(** * tap-hubspot: the incremental extraction engine

    A shallow embedding of [tap_hubspot/__init__.py] and the properties of
    its requester, pagination generator, token refresh, chunked window
    driver and checkpointing.

    Conventions of the embedding.

    - The module-level dictionaries [CONFIG] and [STATE], the standard
      output of the tap, the log and the HTTP traffic are fields of one
      [World] value that every function threads through (monad [M]).
    - An instant is a number of milliseconds since the epoch.  The code
      keeps watermarks as ISO-8601 UTC text of fixed width, produced by
      [utils.strftime] and read back by [utils.strptime]; the embedding
      keeps the instant that the text denotes, so that both functions are
      the identity and Python's comparison of two such texts is the
      comparison of the instants.  In decoded JSON such a text (or a
      [datetime] object) is the constructor [JTime].
    - The remote API and the wall clock are oracles of the environment:
      [server] answers the n-th HTTP exchange, [clock] the n-th reading of
      [datetime.datetime.utcnow()].
    - [tap_hubspot.transform] and the schema files are outside the modelled
      file and are fields of the environment as well. *)

From Stdlib Require Import ZArith Lia Bool List.
From stdpp Require Import base option list strings pretty gmap.

Local Open Scope string_scope.
Local Open Scope Z_scope.

(** ** Decoded JSON values *)

Abbreviation Instant := Z (only parsing).

#[warnings="-register-all"]
Inductive json : Type :=
| JNull
| JBool (b : bool)
| JNum (n : Z)
| JStr (s : string)
| JTime (t : Instant)
| JList (l : list json)
| JObj (kvs : list (string * json)).

(** Dictionary access on the key/value list of a decoded object (keys of a
    decoded object are distinct). *)
Fixpoint obj_get (k : string) (kvs : list (string * json)) : option json :=
  match kvs with
  | [] => None
  | (k', v) :: rest => if String.eqb k k' then Some v else obj_get k rest
  end.

(** [d[k] = v]: replaces in place, or appends a new key. *)
Fixpoint obj_set (k : string) (v : json) (kvs : list (string * json))
  : list (string * json) :=
  match kvs with
  | [] => [(k, v)]
  | (k', v') :: rest =>
      if String.eqb k k' then (k, v) :: rest else (k', v') :: obj_set k v rest
  end.

(** Python truthiness of a decoded value. *)
Definition truthy (v : json) : bool :=
  match v with
  | JNull => false
  | JBool b => b
  | JNum n => negb (n =? 0)
  | JStr s => negb (String.eqb s "")
  | JTime _ => true
  | JList l => match l with [] => false | _ => true end
  | JObj kvs => match kvs with [] => false | _ => true end
  end.

Definition is_json_str (k : string) (v : json) : bool :=
  match v with JStr s => String.eqb s k | _ => false end.

(** ** The world *)

(** Python exceptions that the modelled code can raise. [RequestException]
    carries the status of [e.response] when the exception has a response. *)
Inductive Exn : Type :=
| ValueError (msg : string)
| KeyError (key : string)
| TypeError
| AttributeError
| RequestException (response : option Z).

(** A URL built by [get_url]: the text of the formatted template, and the
    value spliced into its placeholder, if it has one. *)
Record Url : Type := { url_text : string; url_arg : option json }.

Definition Params := gmap string json.

Inductive Request : Type :=
| GET (url : Url) (params : Params) (bearer : json) (user_agent : option string)
| POST (url : string) (payload : list (string * json)).

(** What the network gives back for one exchange: an exception of
    [requests], or a response with its status and its body ([None] when the
    body does not decode as JSON). *)
Inductive NetOutcome : Type :=
| Failed (response : option Z)
| Response (status : Z) (body : option json).

Inductive LogMsg : Type :=
| RefreshingToken
| TokenRefreshed (expires : Instant)
| GetUrl (url : Url) (params : Params)
| GetFailed (url : Url) (params : Params) (status : Z) (content : option json)
| StartingSync
| SyncCompleted.

Inductive Event : Type :=
| LogInfo (msg : LogMsg)
| LogError (msg : LogMsg)
| Http (req : Request) (answer : NetOutcome)
| Sleep (wait : Z)
| WriteSchema (stream : string) (schema : json) (key_properties : list string)
| WriteRecord (stream : string) (record : json)
| WriteState (state : gmap string Instant).

Record Config : Type := {
  access_token : json;
  token_expires : option Instant;
  redirect_uri : json;
  client_id : json;
  client_secret : json;
  refresh_token_value : json;
  start_date : Instant;
  user_agent_value : option string
}.

Record Env : Type := {
  server : nat -> Request -> NetOutcome;
  clock : nat -> Instant;
  transform : json -> json -> json;
  _transform_datetime : json -> json;
  load_json : string -> json
}.

(** [trace] lists the events most recent first. *)
Record World : Type := {
  env : Env;
  CONFIG : Config;
  STATE : gmap string Instant;
  exchanges : nat;
  ticks : nat;
  trace : list Event
}.

Definition set_CONFIG (c : Config) (w : World) : World :=
  {| env := env w; CONFIG := c; STATE := STATE w;
     exchanges := exchanges w; ticks := ticks w; trace := trace w |}.

Definition set_STATE (s : gmap string Instant) (w : World) : World :=
  {| env := env w; CONFIG := CONFIG w; STATE := s;
     exchanges := exchanges w; ticks := ticks w; trace := trace w |}.

Definition emit (e : Event) (w : World) : World :=
  {| env := env w; CONFIG := CONFIG w; STATE := STATE w;
     exchanges := exchanges w; ticks := ticks w; trace := e :: trace w |}.

(** The clock has been read once more. *)
Definition tick (w : World) : World :=
  {| env := env w; CONFIG := CONFIG w; STATE := STATE w;
     exchanges := exchanges w; ticks := S (ticks w); trace := trace w |}.

(** One more HTTP exchange has taken place. *)
Definition exchanged (req : Request) (answer : NetOutcome) (w : World) : World :=
  {| env := env w; CONFIG := CONFIG w; STATE := STATE w;
     exchanges := S (exchanges w); ticks := ticks w;
     trace := Http req answer :: trace w |}.

(** ** The monad of the program: state, exceptions, process exit *)

Inductive Outcome (A : Type) : Type :=
| Ret (a : A)
| Raise (e : Exn)
| SysExit (code : Z)
| OutOfFuel.
Arguments Ret {A} a.
Arguments Raise {A} e.
Arguments SysExit {A} code.
Arguments OutOfFuel {A}.

Definition M (A : Type) : Type := World -> Outcome A * World.

Definition ret {A} (a : A) : M A := fun w => (Ret a, w).
Definition raise {A} (e : Exn) : M A := fun w => (Raise e, w).
Definition sys_exit {A} (code : Z) : M A := fun w => (SysExit code, w).
Definition out_of_fuel {A} : M A := fun w => (OutOfFuel, w).

Definition bind {A B} (m : M A) (f : A -> M B) : M B :=
  fun w =>
    match m w with
    | (Ret a, w') => f a w'
    | (Raise e, w') => (Raise e, w')
    | (SysExit c, w') => (SysExit c, w')
    | (OutOfFuel, w') => (OutOfFuel, w')
    end.

Notation "'let*' x ':=' m 'in' k" := (bind m (fun x => k))
  (at level 10, x name, m at level 100, k at level 200).
Notation "m '>>' k" := (bind m (fun _ => k))
  (at level 100, k at level 200, right associativity).

Definition get_world : M World := fun w => (Ret w, w).
Definition write (e : Event) : M unit := fun w => (Ret tt, emit e w).
Definition of_option {A} (e : Exn) (o : option A) : M A :=
  match o with Some a => ret a | None => raise e end.

(** [datetime.datetime.utcnow()] *)
Definition utcnow : M Instant :=
  fun w => (Ret (clock (env w) (ticks w)), tick w).

(** One HTTP exchange ([session.send], [requests.post]). *)
Definition exchange (req : Request) : M (Z * option json) :=
  fun w =>
    let answer := server (env w) (exchanges w) req in
    let w' := exchanged req answer w in
    match answer with
    | Failed r => (Raise (RequestException r), w')
    | Response status body => (Ret (status, body), w')
    end.

(** [resp.json()] *)
Definition resp_json (resp : Z * option json) : M json :=
  of_option (ValueError "Expecting value") (snd resp).

(** [x[k]] for a string key. *)
Definition subscript (x : json) (k : string) : M json :=
  match x with
  | JObj kvs => of_option (KeyError k) (obj_get k kvs)
  | _ => raise TypeError
  end.

(** [k in x] for a string [k]. *)
Definition contains (k : string) (x : json) : M bool :=
  match x with
  | JObj kvs => ret (bool_decide (is_Some (obj_get k kvs)))
  | JList l => ret (existsb (is_json_str k) l)
  | JStr s => ret (bool_decide (is_Some (String.index 0 k s)))
  | _ => raise TypeError
  end.

(** The elements that [for row in x] visits. *)
Definition iterate (x : json) : M (list json) :=
  match x with
  | JList l => ret l
  | JObj kvs => ret (map (fun kv => JStr (fst kv)) kvs)
  | JStr s => ret (map (fun c => JStr (String c EmptyString)) (String.list_ascii_of_string s))
  | _ => raise TypeError
  end.

(** A [for] loop over a list, with the loop's variables in [s]. *)
Fixpoint for_each {A S} (body : S -> A -> M S) (l : list A) (s : S) : M S :=
  match l with
  | [] => ret s
  | x :: rest => let* s' := body s x in for_each body rest s'
  end.

(** ** The watermark store *)

Definition get_start (key : string) : M Instant :=
  fun w =>
    match STATE w !! key with
    | Some t => (Ret t, w)
    | None =>
        let t := start_date (CONFIG w) in
        (Ret t, set_STATE (<[key := t]> (STATE w)) w)
    end.

(** [utils.strptime]: the instant that a timestamp text denotes. *)
Definition strptime (v : json) : M Instant :=
  match v with
  | JTime t => ret t
  | JStr _ => raise (ValueError "time data does not match format")
  | _ => raise TypeError
  end.

(** [singer.utils.update_state(STATE, entity, dt)] of the singer-python
    library, which the tap calls for every watermark update:
<<
    if dt is None: return
    if isinstance(dt, datetime.datetime): dt = strftime(dt)
    if entity not in state: state[entity] = dt
    if dt >= state[entity]: state[entity] = dt
>>
    A [dt] that is neither [None] nor a timestamp is outside the
    abstraction of watermarks by instants. *)
Definition update_state (entity : string) (dt : json) : M unit :=
  match dt with
  | JNull => ret tt
  | JTime t =>
      fun w =>
        let st := match STATE w !! entity with
                  | Some _ => STATE w
                  | None => <[entity := t]> (STATE w)
                  end in
        match st !! entity with
        | Some cur =>
            if cur <=? t then (Ret tt, set_STATE (<[entity := t]> st) w)
            else (Ret tt, set_STATE st w)
        | None => (Raise (KeyError entity), set_STATE st w)
        end
  | _ => raise TypeError
  end.

(** [singer.write_state(STATE)] *)
Definition write_state : M unit :=
  fun w => (Ret tt, emit (WriteState (STATE w)) w).

(** ** Endpoints *)

Definition BASE_URL : string := "https://api.hubapi.com".

Definition CHUNK_SIZES (entity_name : string) : option Z :=
  if String.eqb entity_name "email_events" then Some (1000 * 60 * 60)
  else if String.eqb entity_name "subscription_changes" then Some (1000 * 60 * 60 * 24)
  else None.

(** The endpoint table; a template is its text and the name of its
    placeholder, if it has one. *)
Definition endpoints : list (string * (string * option string)) :=
  [ ("contacts_properties",  ("/properties/v1/contacts/properties", None));
    ("contacts_all",         ("/contacts/v1/lists/all/contacts/all", None));
    ("contacts_recent",      ("/contacts/v1/lists/recently_updated/contacts/recent", None));
    ("contacts_detail",      ("/contacts/v1/contact/vids/batch/", None));
    ("companies_properties", ("/companies/v2/properties", None));
    ("companies_all",        ("/companies/v2/companies/paged", None));
    ("companies_recent",     ("/companies/v2/companies/recent/modified", None));
    ("companies_detail",     ("/companies/v2/companies/{company_id}", Some "company_id"));
    ("deals_properties",     ("/companies/v2/properties", None));
    ("deals_all",            ("/deals/v1/deal/paged", None));
    ("deals_recent",         ("/deals/v1/deal/recent/modified", None));
    ("deals_detail",         ("/deals/v1/deal/{deal_id}", Some "deal_id"));
    ("campaigns_all",        ("/email/public/v1/campaigns/by-id", None));
    ("campaigns_detail",     ("/email/public/v1/campaigns/{campaign_id}", Some "campaign_id"));
    ("subscription_changes", ("/email/public/v1/subscriptions/timeline", None));
    ("email_events",         ("/email/public/v1/events", None));
    ("contact_lists",        ("/contacts/v1/lists", None));
    ("forms",                ("/forms/v2/forms", None));
    ("workflows",            ("/automation/v3/workflows", None));
    ("keywords",             ("/keywords/v1/keywords", None));
    ("owners",               ("/owners/v2/owners", None)) ].

Fixpoint assoc {A} (k : string) (l : list (string * A)) : option A :=
  match l with
  | [] => None
  | (k', v) :: rest => if String.eqb k k' then Some v else assoc k rest
  end.

Definition get_url (endpoint : string) (kwargs : list (string * json)) : M Url :=
  match assoc endpoint endpoints with
  | None => raise (ValueError ("Invalid endpoint " ++ endpoint))
  | Some (template, None) =>
      ret {| url_text := BASE_URL ++ template; url_arg := None |}
  | Some (template, Some placeholder) =>
      let* v := of_option (KeyError placeholder) (assoc placeholder kwargs) in
      ret {| url_text := BASE_URL ++ template; url_arg := Some v |}
  end.

(** ** Token refresh and the requester *)

Definition refresh_token : M unit :=
  let* w := get_world in
  let cfg := CONFIG w in
  let payload :=
    [ ("grant_type", JStr "refresh_token");
      ("redirect_uri", redirect_uri cfg);
      ("refresh_token", refresh_token_value cfg);
      ("client_id", client_id cfg);
      ("client_secret", client_secret cfg) ] in
  write (LogInfo RefreshingToken) >>
  let* resp := exchange (POST (BASE_URL ++ "/oauth/v1/token") payload) in
  (* resp.raise_for_status() *)
  (if (400 <=? fst resp) && (fst resp <? 600)
   then raise (RequestException (Some (fst resp))) else ret tt) >>
  let* auth := resp_json resp in
  let* at' := subscript auth "access_token" in
  let* rt' := subscript auth "refresh_token" in
  let* expires_in := subscript auth "expires_in" in
  let* now := utcnow in
  let* seconds := match expires_in with
                  | JNum n => ret (n - 600)
                  | _ => raise TypeError
                  end in
  let expires := now + seconds * 1000 in
  (fun w =>
     let c := CONFIG w in
     (Ret tt,
      set_CONFIG {| access_token := at'; token_expires := Some expires;
                    redirect_uri := redirect_uri c; client_id := client_id c;
                    client_secret := client_secret c; refresh_token_value := rt';
                    start_date := start_date c;
                    user_agent_value := user_agent_value c |} w)) >>
  write (LogInfo (TokenRefreshed expires)).

(** The body of [request], without its decorator. *)
Definition request_body (url : Url) (params : option Params) : M (Z * option json) :=
  let* w := get_world in
  let* expired := match token_expires (CONFIG w) with
                  | None => ret true
                  | Some e => let* now := utcnow in ret (e <? now)
                  end in
  (if expired then refresh_token else ret tt) >>
  let params := match params with Some p => p | None => ∅ end in
  let* w := get_world in
  let req := GET url params (access_token (CONFIG w)) (user_agent_value (CONFIG w)) in
  write (LogInfo (GetUrl url params)) >>
  let* resp := exchange req in
  if 400 <=? fst resp
  then write (LogError (GetFailed url params (fst resp) (snd resp))) >> sys_exit 1
  else ret resp.

(** [backoff.expo(base=2, factor)]: the n-th value of the wait generator. *)
Definition expo (factor : Z) (n : nat) : Z := factor * 2 ^ Z.of_nat n.

(** [backoff.on_exception(backoff.expo, RequestException, max_tries, giveup,
    factor)] of the backoff library around [target]:
<<
    tries = 0
    while True:
        tries += 1
        try: ret = target()
        except exception as e:
            if giveup(e) or tries == max_tries: raise
            sleep(jitter(next(wait)))
        else: return ret
>>
    [Sleep] records the value of the wait generator, the upper bound of the
    jittered sleep. Only [RequestException] is caught: other exceptions and
    [SystemExit] leave the loop. *)
Fixpoint on_exception_loop {A} (max_tries : nat) (giveup : option Z -> bool)
    (factor : Z) (target : M A) (remaining tries : nat) : M A :=
  match remaining with
  | O => out_of_fuel
  | S remaining' =>
      fun w =>
        let tries := S tries in
        match target w with
        | (Raise (RequestException r), w1) =>
            if giveup r || (tries =? max_tries)%nat
            then (Raise (RequestException r), w1)
            else on_exception_loop max_tries giveup factor target remaining' tries
                   (emit (Sleep (expo factor (pred tries))) w1)
        | res => res
        end
  end.

Definition on_exception {A} (max_tries : nat) (giveup : option Z -> bool)
    (factor : Z) (target : M A) : M A :=
  on_exception_loop max_tries giveup factor target max_tries 0.

Definition giveup (response : option Z) : bool :=
  match response with
  | Some status => (400 <=? status) && (status <? 500)
  | None => false
  end.

Definition request (url : Url) (params : option Params) : M (Z * option json) :=
  on_exception 5 giveup 2 (request_body url params).

(** ** The pagination generator *)

(** An argument that is a list, or a single name that [gen_request] wraps
    into a list ([isinstance(offset_keys, list)]). *)
Inductive Names : Type :=
| One (name : string)
| Many (names : list string).

Definition as_list (x : Names) : list string :=
  match x with One name => [name] | Many names => names end.

(** [data.get(key, False)] *)
Definition dict_get (data : json) (key : string) : M json :=
  match data with
  | JObj kvs => ret (match obj_get key kvs with Some v => v | None => JBool false end)
  | _ => raise AttributeError
  end.

(** [data.items()] *)
Definition dict_items (data : json) : M (list (string * json)) :=
  match data with
  | JObj kvs => ret kvs
  | _ => raise AttributeError
  end.

(** [for key, target in zip(offset_keys, offset_targets): params[target] = data[key]] *)
Fixpoint copy_offsets (data : json) (pairs : list (string * string)) (params : Params)
  : M Params :=
  match pairs with
  | [] => ret params
  | (key, target) :: rest =>
      let* v := subscript data key in
      copy_offsets data rest (<[target := v]> params)
  end.

Definition path_given (path : option string) : option string :=
  match path with
  | Some p => if String.eqb p "" then None else Some p
  | None => None
  end.

(** The [while True] loop of [gen_request]. The consumer's [for] body runs
    at each [yield], between the requests; [s] holds the consumer's loop
    variables. *)
Fixpoint gen_pages {S} (fuel : nat) (url : Url) (path : option string)
    (more_key : string) (pairs : list (string * string))
    (body : S -> json -> M S) (params : Params) (s : S) : M S :=
  match fuel with
  | O => out_of_fuel
  | Datatypes.S fuel' =>
      let* resp := request url (Some params) in
      let* data := resp_json resp in
      match path_given path with
      | Some p =>
          let* listed := subscript data p in
          let* rows := iterate listed in
          let* s' := for_each body rows s in
          let* more := dict_get data more_key in
          if negb (truthy more) then ret s'
          else
            let* params' := copy_offsets data pairs params in
            gen_pages fuel' url path more_key pairs body params' s'
      | None =>
          let* rows := iterate data in
          for_each body rows s
      end
  end.

Definition mismatch_message : string :=
  "Number of offset_keys must match number of offset_targets".

(** [gen_request], consumed by a [for] loop with body [body]. The body of
    a Python generator starts to run at the first iteration, which every
    caller performs at once. *)
Definition gen_request {S} (fuel : nat) (url : Url) (params : Params)
    (path : option string) (more_key : string)
    (offset_keys offset_targets : Names)
    (body : S -> json -> M S) (s : S) : M S :=
  let offset_keys := as_list offset_keys in
  let offset_targets := as_list offset_targets in
  if negb (length offset_keys =? length offset_targets)%nat
  then raise (ValueError mismatch_message)
  else gen_pages fuel url path more_key (zip offset_keys offset_targets) body params s.

(** ** Schemas *)

Definition get_field_type_schema (field_type : json) : json :=
  if is_json_str "bool" field_type
  then JObj [("type", JList [JStr "null"; JStr "boolean"])]
  else if is_json_str "datetime" field_type
  then JObj [("type", JList [JStr "null"; JStr "string"])]
  else if is_json_str "number" field_type
  then JObj [("type", JList [JStr "null"; JStr "number"; JStr "string"])]
  else JObj [("type", JList [JStr "null"; JStr "string"])].

Definition get_field_schema (field_type : json) (extras : bool) : json :=
  if extras
  then JObj [("type", JStr "object");
             ("properties",
              JObj [("value", get_field_type_schema field_type);
                    ("timestamp", get_field_type_schema (JStr "datetime"));
                    ("source", get_field_type_schema (JStr "string"));
                    ("sourceId", get_field_type_schema (JStr "string"))])]
  else JObj [("type", JStr "object");
             ("properties", JObj [("value", get_field_type_schema field_type)])].

Definition parse_custom_schema (entity_name : string) (data : json) : M json :=
  let* fields := iterate data in
  let* kvs :=
    for_each
      (fun acc field =>
         let* name := subscript field "name" in
         let* type := subscript field "type" in
         match name with
         | JStr k =>
             ret (obj_set k (get_field_schema type
                               (negb (String.eqb entity_name "contacts"))) acc)
         | _ => raise TypeError
         end)
      fields [] in
  ret (JObj kvs).

Definition get_custom_schema (entity_name : string) : M json :=
  let* url := get_url (entity_name ++ "_properties") [] in
  let* resp := request url None in
  let* data := resp_json resp in
  parse_custom_schema entity_name data.

Definition load_schema (entity_name : string) : M json :=
  let* w := get_world in
  let schema := load_json (env w) entity_name in
  if existsb (String.eqb entity_name) ["contacts"; "companies"; "deals"]
  then
    let* custom_schema := get_custom_schema entity_name in
    let* properties := subscript schema "properties" in
    match schema, properties with
    | JObj top, JObj inner =>
        let v := JObj [("type", JStr "object"); ("properties", custom_schema)] in
        ret (JObj (obj_set "properties" (JObj (obj_set "properties" v inner)) top))
    | _, _ => raise TypeError
    end
  else ret schema.

Definition write_schema (stream : string) (schema : json) (keys : list string) : M unit :=
  write (WriteSchema stream schema keys).

Definition write_record (stream : string) (record : json) : M unit :=
  write (WriteRecord stream record).

Definition apply_transform (record schema : json) : M json :=
  fun w => (Ret (transform (env w) record schema), w).

Definition apply_transform_datetime (v : json) : M json :=
  fun w => (Ret (_transform_datetime (env w) v), w).

(** [(datetime.datetime.utcnow() - last_sync).days] *)
Definition days_since (last_sync : Instant) : M Z :=
  let* now := utcnow in ret ((now - last_sync) / 86400000).

Definition time_or_none (t : option Instant) : json :=
  match t with Some t => JTime t | None => JNull end.

(** [not modified_time or modified_time >= last_sync] *)
Definition passes_filter (modified_time : option Instant) (last_sync : Instant) : bool :=
  match modified_time with
  | None => true
  | Some t => last_sync <=? t
  end.

(** ** The streams *)

(** The body of the [for] loop of [sync_contacts]; [vids] is the loop's
    variable. *)
Definition sync_contacts_row (last_sync : Instant) (schema : json)
    (vids : list json) (row : json) : M (list json) :=
  let* properties := subscript row "properties" in
  let* has := contains "lastmodifieddate" properties in
  let* modified_time :=
    (if has
     then
       let* lm := subscript properties "lastmodifieddate" in
       let* raw := subscript lm "value" in
       let* text := apply_transform_datetime raw in
       let* t := strptime text in
       ret (Some t)
     else ret None) in
  let* vids :=
    (if passes_filter modified_time last_sync
     then let* vid := subscript row "vid" in ret (vids ++ [vid])%list
     else ret vids) in
  if (length vids =? 100)%nat
  then
    let* url := get_url "contacts_detail" [] in
    let* resp := request url (Some {[ "vid" := JList vids ]}) in
    let* data := resp_json resp in
    let* items := dict_items data in
    for_each
      (fun (_ : unit) (item : string * json) =>
         let* record := apply_transform (snd item) schema in
         write_record "contacts" record >>
         let* properties := subscript record "properties" in
         let* has := contains "lastmodifieddate" properties in
         if has
         then
           let* lm := subscript properties "lastmodifieddate" in
           let* modified_time := subscript lm "value" in
           update_state "contacts" modified_time
         else ret tt)
      items tt >>
    ret []
  else ret vids.

Definition sync_contacts (fuel : nat) : M unit :=
  let* start := get_start "contacts" in
  let* last_sync := strptime (JTime start) in
  let* days_since_sync := days_since last_sync in
  let endpoint := if 30 <? days_since_sync then "contacts_all" else "contacts_recent" in
  let offset_keys :=
    if 30 <? days_since_sync then ["vid-offset"] else ["vid-offset"; "time-offset"] in
  let offset_targets :=
    if 30 <? days_since_sync then ["vidOffset"] else ["vidOffset"; "timeOffset"] in
  let* schema := load_schema "contacts" in
  write_schema "contacts" schema ["canonical-vid"] >>
  let* url := get_url endpoint [] in
  let params : Params := <["showListMemberships" := JBool true]> {[ "count" := JNum 100 ]} in
  gen_request fuel url params (Some "contacts") "has-more"
    (Many offset_keys) (Many offset_targets)
    (sync_contacts_row last_sync schema) [] >>
  write_state.

(** [modified_time] of a company or deal record. *)
Definition record_modified_time (record : json) : M (option Instant) :=
  let* has := contains "hs_lastmodifieddate" record in
  if has
  then
    let* f := subscript record "hs_lastmodifieddate" in
    let* v := subscript f "value" in
    let* t := strptime v in
    ret (Some t)
  else
    let* has := contains "createdate" record in
    if has
    then
      let* f := subscript record "createdate" in
      let* v := subscript f "value" in
      let* t := strptime v in
      ret (Some t)
    else ret None.

(** The body of the [for i, row in enumerate(...)] loop of [sync_companies]
    and of [sync_deals]; the loop's variable is the index [i]. *)
Definition sync_detail_row (stream detail_endpoint id_arg id_key : string)
    (last_sync : Instant) (schema : json) (i : nat) (row : json) : M nat :=
  let* id := subscript row id_key in
  let* url := get_url detail_endpoint [(id_arg, id)] in
  let* resp := request url None in
  let* record := resp_json resp in
  let* record := apply_transform record schema in
  let* modified_time := record_modified_time record in
  (if passes_filter modified_time last_sync
   then
     write_record stream record >>
     update_state stream (time_or_none modified_time)
   else ret tt) >>
  (if (Z.of_nat i mod 250 =? 0) then write_state else ret tt) >>
  ret (S i).

(** The listing loop of [sync_companies]; returns the number of listed
    records. *)
Definition sync_companies_rows (fuel : nat) : M nat :=
  let* start := get_start "companies" in
  let* last_sync := strptime (JTime start) in
  let* days_since_sync := days_since last_sync in
  let endpoint := if 30 <? days_since_sync then "companies_all" else "companies_recent" in
  let path := if 30 <? days_since_sync then "companies" else "results" in
  let more_key := if 30 <? days_since_sync then "has-more" else "hasMore" in
  let* schema := load_schema "companies" in
  write_schema "companies" schema ["companyId"] >>
  let* url := get_url endpoint [] in
  let params : Params := {[ "count" := JNum 250 ]} in
  gen_request fuel url params (Some path) more_key (Many ["offset"]) (Many ["offset"])
    (sync_detail_row "companies" "companies_detail" "company_id" "companyId"
       last_sync schema) 0%nat.

Definition sync_companies (fuel : nat) : M unit :=
  sync_companies_rows fuel >> ret tt.

Definition sync_deals_rows (fuel : nat) : M nat :=
  let* start := get_start "deals" in
  let* last_sync := strptime (JTime start) in
  let* days_since_sync := days_since last_sync in
  let endpoint := if 30 <? days_since_sync then "deals_all" else "deals_recent" in
  let* schema := load_schema "deals" in
  write_schema "deals" schema ["portalId"; "dealId"] >>
  let* url := get_url endpoint [] in
  let params : Params := {[ "count" := JNum 250 ]} in
  gen_request fuel url params (Some "deals") "hasMore" (One "offset") (One "offset")
    (sync_detail_row "deals" "deals_detail" "deal_id" "dealId" last_sync schema) 0%nat.

Definition sync_deals (fuel : nat) : M unit :=
  sync_deals_rows fuel >> ret tt.

Definition sync_campaigns (fuel : nat) : M unit :=
  let* schema := load_schema "campaigns" in
  write_schema "campaigns" schema ["id"] >>
  let* url := get_url "campaigns_all" [] in
  let params : Params := {[ "limit" := JNum 500 ]} in
  gen_request fuel url params (Some "campaigns") "hasMore" (One "offset") (One "offset")
    (fun (i : nat) row =>
       let* id := subscript row "id" in
       let* url := get_url "campaigns_detail" [("campaign_id", id)] in
       let* resp := request url None in
       let* record := resp_json resp in
       let* record := apply_transform record schema in
       write_record "campaigns" record >>
       ret (S i))
    0%nat >>
  ret tt.

(** The [while start_ts < now_ts] loop of [sync_entity_chunked]. *)
Fixpoint chunk_loop (fuel pages : nat) (entity_name : string) (path : string)
    (schema : json) (url : Url) (now_ts start_ts : Z) : M unit :=
  if start_ts <? now_ts
  then
    match fuel with
    | O => out_of_fuel
    | S fuel' =>
        let* size := of_option (KeyError entity_name) (CHUNK_SIZES entity_name) in
        let end_ts := start_ts + size in
        let params : Params :=
          <["startTimestamp" := JNum start_ts]>
            (<["endTimestamp" := JNum end_ts]> {[ "limit" := JNum 1000 ]}) in
        gen_request pages url params (Some path) "hasMore" (One "offset") (One "offset")
          (fun (_ : unit) row =>
             let* record := apply_transform row schema in
             write_record entity_name record)
          tt >>
        update_state entity_name (JTime end_ts) >>
        write_state >>
        chunk_loop fuel' pages entity_name path schema url now_ts end_ts
    end
  else ret tt.

Definition sync_entity_chunked (fuel : nat) (entity_name : string)
    (key_properties : list string) (path : string) : M unit :=
  let* schema := load_schema entity_name in
  write_schema entity_name schema key_properties >>
  let* start := get_start entity_name in
  let* now_ts := utcnow in
  let* start_ts := strptime (JTime start) in
  let* url := get_url entity_name [] in
  chunk_loop fuel fuel entity_name path schema url now_ts start_ts.

Definition sync_subscription_changes (fuel : nat) : M unit :=
  sync_entity_chunked fuel "subscription_changes"
    ["timestamp"; "portalId"; "recipient"] "timeline".

Definition sync_email_events (fuel : nat) : M unit :=
  sync_entity_chunked fuel "email_events" ["id"] "events".

Definition sync_contact_lists (fuel : nat) : M unit :=
  let* schema := load_schema "contact_lists" in
  write_schema "contact_lists" schema ["internalListId"] >>
  let* start := get_start "contact_lists" in
  let* url := get_url "contact_lists" [] in
  let params : Params := {[ "count" := JNum 250 ]} in
  gen_request fuel url params (Some "lists") "has-more" (One "offset") (One "offset")
    (fun (i : nat) row =>
       let* record := apply_transform row schema in
       write_record "contact_lists" record >>
       ret (S i))
    0%nat >>
  ret tt.

(** [record[field] >= start], both sides timestamp texts. *)
Definition at_or_after (v : json) (start : Instant) : M bool :=
  match v with
  | JTime t => ret (start <=? t)
  | _ => raise TypeError
  end.

(** The four streams that fetch one page, filter on one field and write
    the state once: [sync_forms], [sync_workflows], [sync_keywords] and
    [sync_owners] differ in the stream's name, its key properties, the
    place of the rows in the payload and the field compared. *)
Definition sync_single_page (stream : string) (key_properties : list string)
    (rows_key : option string) (field : string) : M unit :=
  let* schema := load_schema stream in
  write_schema stream schema key_properties >>
  let* start := get_start stream in
  let* url := get_url stream [] in
  let* resp := request url None in
  let* data := resp_json resp in
  let* listed := match rows_key with
                 | Some k => subscript data k
                 | None => ret data
                 end in
  let* rows := iterate listed in
  for_each
    (fun (_ : unit) row =>
       let* record := apply_transform row schema in
       let* v := subscript record field in
       let* keep := at_or_after v start in
       if keep
       then
         write_record stream record >>
         let* v := subscript record field in
         update_state stream v
       else ret tt)
    rows tt >>
  write_state.

Definition sync_forms : M unit :=
  sync_single_page "forms" ["guid"] None "updatedAt".

Definition sync_workflows : M unit :=
  sync_single_page "workflows" ["id"] (Some "workflows") "updatedAt".

Definition sync_keywords : M unit :=
  sync_single_page "keywords" ["keyword_guid"] (Some "keywords") "created_at".

Definition sync_owners : M unit :=
  sync_single_page "owners" ["portalId"; "ownerId"] None "updatedAt".

Definition do_sync (fuel : nat) : M unit :=
  write (LogInfo StartingSync) >>
  sync_subscription_changes fuel >>
  sync_email_events fuel >>
  sync_forms >>
  sync_workflows >>
  sync_keywords >>
  sync_owners >>
  sync_campaigns fuel >>
  sync_contact_lists fuel >>
  sync_contacts fuel >>
  sync_companies fuel >>
  sync_deals fuel >>
  write (LogInfo SyncCompleted).

(** ** Observations on a run *)

(** The events of [w'] that are not yet in [w], most recent first. *)
Definition new_events (w w' : World) : list Event :=
  take (length (trace w') - length (trace w))%nat (trace w').

Definition is_get (e : Event) : bool :=
  match e with Http (GET _ _ _ _) _ => true | _ => false end.

Definition is_post (e : Event) : bool :=
  match e with Http (POST _ _) _ => true | _ => false end.


(** The waits of the backoff sleeps, oldest first. *)
Definition sleeps (evs : list Event) : list Z :=
  omap (fun e => match e with Sleep s => Some s | _ => None end) (rev evs).

(** The state messages written, oldest first. *)
Definition states (evs : list Event) : list (gmap string Instant) :=
  omap (fun e => match e with WriteState s => Some s | _ => None end) (rev evs).

(** The sizes of the [vid] batches sent to the [contacts_detail] endpoint,
    oldest first, and the vids asked for. *)
Definition detail_batch (e : Event) : option (list json) :=
  match e with
  | Http (GET url params _ _) _ =>
      if String.eqb (url_text url) (BASE_URL ++ "/contacts/v1/contact/vids/batch/")
      then match params !! "vid" with
           | Some (JList vids) => Some vids
           | _ => None
           end
      else None
  | _ => None
  end.

Definition detail_batches (evs : list Event) : list (list json) :=
  omap detail_batch (rev evs).

(** ** Concrete environments used to run the model *)

Definition sample_config (expires : option Instant) : Config :=
  {| access_token := JStr "access-0"; token_expires := expires;
     redirect_uri := JStr "https://example.test/cb"; client_id := JStr "id";
     client_secret := JStr "secret"; refresh_token_value := JStr "refresh-0";
     start_date := 0; user_agent_value := None |}.

Definition scripted (script : list NetOutcome) : nat -> Request -> NetOutcome :=
  fun n _ => nth n script (Failed None).

Definition sample_env (srv : nat -> Request -> NetOutcome) (now : Instant) : Env :=
  {| server := srv; clock := fun _ => now;
     transform := fun record _ => record;
     _transform_datetime := fun v => v;
     load_json := fun _ => JObj [("properties", JObj [])] |}.

Definition sample_world (srv : nat -> Request -> NetOutcome) (now : Instant)
    (expires : option Instant) (st : gmap string Instant) : World :=
  {| env := sample_env srv now; CONFIG := sample_config expires; STATE := st;
     exchanges := 0; ticks := 0; trace := [] |}.

Definition sample_url : Url :=
  {| url_text := BASE_URL ++ "/owners/v2/owners"; url_arg := None |}.

Definition vid_row (n : Z) : json :=
  JObj [("vid", JNum n); ("properties", JObj [])].

Definition vid_key (v : json) : string :=
  match v with JNum n => pretty n | _ => "?" end.

(** An API with [total] contacts, vids 1 to [total], none of which carries
    a [lastmodifieddate]: the listing serves pages of 100 from [vidOffset],
    the detail endpoint one record for each vid asked for. *)
Definition contacts_server (total : nat) : nat -> Request -> NetOutcome :=
  fun _ req =>
    match req with
    | GET url params _ _ =>
        if String.eqb (url_text url) (BASE_URL ++ "/properties/v1/contacts/properties")
        then Response 200 (Some (JList []))
        else if String.eqb (url_text url) (BASE_URL ++ "/contacts/v1/contact/vids/batch/")
        then match params !! "vid" with
             | Some (JList vids) =>
                 Response 200 (Some (JObj (map (fun v => (vid_key v, JObj [("vid", v); ("properties", JObj [])])) vids)))
             | _ => Response 200 (Some (JObj []))
             end
        else
          let o := match params !! "vidOffset" with
                   | Some (JNum o) => Z.to_nat o
                   | _ => 0%nat
                   end in
          let rows := map (fun i => vid_row (Z.of_nat (o + i)))
                        (seq 1 (Nat.min 100 (total - o))) in
          Response 200 (Some (JObj [("contacts", JList rows);
                                    ("has-more", JBool (o + 100 <? total)%nat);
                                    ("vid-offset", JNum (Z.of_nat (o + 100)));
                                    ("time-offset", JNum 0)]))
    | POST _ _ => Failed None
    end.

(** An API without data: every listing is one empty page. *)
Definition empty_server : nat -> Request -> NetOutcome :=
  fun _ req =>
    match req with
    | GET url _ _ _ =>
        if existsb (String.eqb (url_text url))
             [BASE_URL ++ "/properties/v1/contacts/properties";
              BASE_URL ++ "/companies/v2/properties";
              BASE_URL ++ "/forms/v2/forms";
              BASE_URL ++ "/owners/v2/owners"]
        then Response 200 (Some (JList []))
        else
          Response 200 (Some (JObj [("timeline", JList []); ("events", JList []);
                                    ("campaigns", JList []); ("lists", JList []);
                                    ("workflows", JList []); ("keywords", JList []);
                                    ("contacts", JList []); ("results", JList []);
                                    ("deals", JList [])]))
    | POST _ _ => Failed None
    end.

(** ** Relations between the world before and after a piece of program *)

Definition preserves (R : World -> World -> Prop) {A} (m : M A) : Prop :=
  forall w, R w (snd (m w)).

(** Events other than HTTP exchanges and state messages. *)
Definition is_output (e : Event) : bool :=
  match e with
  | Http _ _ | WriteState _ => false
  | _ => true
  end.

(** A relation that reading the clock, logging, sleeping, writing schema
    and record messages, replacing the credential and a POST exchange
    maintain. *)
Class Stable (R : World -> World -> Prop) : Prop := {
  stable_refl : forall w, R w w;
  stable_trans : forall w1 w2 w3, R w1 w2 -> R w2 w3 -> R w1 w3;
  stable_tick : forall w, R w (tick w);
  stable_emit : forall e w, is_output e = true -> R w (emit e w);
  stable_config : forall c w, R w (set_CONFIG c w);
  stable_post : forall url payload answer w, R w (exchanged (POST url payload) answer w)
}.

(** ... and a GET exchange, *)
Class GetStable (R : World -> World -> Prop) : Prop :=
  stable_get : forall url params bearer ua answer w,
    R w (exchanged (GET url params bearer ua) answer w).

(** ... and the operations of the watermark store, *)
Class StoreStable (R : World -> World -> Prop) : Prop := {
  stable_get_start : forall key, preserves R (get_start key);
  stable_update_state : forall entity dt, preserves R (update_state entity dt)
}.

(** ... and writing a state message. *)
Class CheckpointStable (R : World -> World -> Prop) : Prop :=
  stable_write_state : preserves R write_state.

(** The trace has only grown, and by no state message. *)
Definition quiet (w w' : World) : Prop :=
  exists evs, trace w' = (evs ++ trace w)%list /\ states evs = [].

(** The watermark store is the same. *)
Definition same_STATE (w w' : World) : Prop := STATE w' = STATE w.

(** The trace has only grown. *)
Definition extends (w w' : World) : Prop :=
  exists evs, trace w' = (evs ++ trace w)%list.

(** The trace has only grown, and by no GET exchange. *)
Definition no_get (w w' : World) : Prop :=
  exists evs, trace w' = (evs ++ trace w)%list /\ forallb (fun e => negb (is_get e)) evs = true.

(** Every watermark of [s1] is in [s2], at the same instant or later. *)
Definition state_le (s1 s2 : gmap string Instant) : Prop :=
  forall k t, s1 !! k = Some t -> exists t', s2 !! k = Some t' /\ t <= t'.

(** [evs] (most recent first) are events between a store [lo] and a store
    [hi]: each state message among them is above [lo] and what was written
    before it, and below what is written after it and [hi]. *)
Fixpoint ordered_between (lo : gmap string Instant) (evs : list Event)
    (hi : gmap string Instant) : Prop :=
  match evs with
  | [] => state_le lo hi
  | WriteState s :: rest => state_le s hi /\ ordered_between lo rest s
  | _ :: rest => ordered_between lo rest hi
  end.

Definition monotone (w w' : World) : Prop :=
  exists evs, trace w' = (evs ++ trace w)%list /\
              ordered_between (STATE w) evs (STATE w').

(** ** The windows of the chunked driver *)

(** The [(start_ts, end_ts)] pairs that the [while] loop of
    [sync_entity_chunked] goes through. *)
Fixpoint windows (fuel : nat) (size now_ts start_ts : Z) : option (list (Z * Z)) :=
  if start_ts <? now_ts
  then
    match fuel with
    | O => None
    | S fuel' =>
        let end_ts := start_ts + size in
        option_map (cons (start_ts, end_ts)) (windows fuel' size now_ts end_ts)
    end
  else Some [].

(** [ws] are consecutive non-empty half-open intervals from [lo] to [hi]. *)
Fixpoint tiles (ws : list (Z * Z)) (lo hi : Z) : Prop :=
  match ws with
  | [] => lo = hi
  | (a, b) :: rest => a = lo /\ a < b /\ tiles rest b hi
  end.

(** The number of windows from watermark [W] to [N] with chunks of [size]. *)
Definition window_count (size W N : Z) : Z :=
  if W <? N then (N - W + size - 1) / size else 0.

(** A GET exchange that the server answered. *)
Definition got_response (e : Event) : bool :=
  match e with
  | Http (GET _ _ _ _) (Response _ _) => true
  | _ => false
  end.

Definition no_response (evs : list Event) : Prop :=
  forallb (fun e => negb (got_response e)) evs = true.

(** The shape of the run of a call of the requester from [w], with outcome
    [r] in [w']. *)
Definition request_shape (url : Url) (w : World) (r : Outcome (Z * option json))
    (w' : World) : Prop :=
  exists pre,
    no_response pre /\
    (((forall a, r <> Ret a) /\ trace w' = (pre ++ trace w)%list) \/
     (exists P tok ua s b,
        s < 400 /\ r = Ret (s, b) /\
        trace w' = Http (GET url P tok ua) (Response s b)
                     :: LogInfo (GetUrl url P) :: (pre ++ trace w)%list) \/
     (exists P tok ua s b,
        400 <= s /\ r = SysExit 1 /\
        trace w' = LogError (GetFailed url P s b)
                     :: Http (GET url P tok ua) (Response s b)
                     :: LogInfo (GetUrl url P) :: (pre ++ trace w)%list)).

(** ** Concrete runs *)

(** Scenario C of the specification: status 503 twice, then 200. *)
Definition unavailable_twice : World :=
  sample_world
    (scripted [Response 503 None; Response 503 None; Response 200 (Some (JList []))])
    1000 (Some 5000) ∅.

(** Two network failures, then 200. *)
Definition unreachable_twice : World :=
  sample_world (scripted [Failed None; Failed None; Response 200 (Some (JList []))])
    1000 (Some 5000) ∅.

(** A network that is down. *)
Definition unreachable : World :=
  sample_world (scripted []) 1000 (Some 5000) ∅.

(** Status 404 on the first exchange. *)
Definition not_found : World :=
  sample_world (scripted [Response 404 None]) 1000 (Some 5000) ∅.

(** A credential whose expiry is the current instant. *)
Definition expiring_now : World :=
  sample_world (scripted [Response 200 (Some (JList []))]) 1000 (Some 1000) ∅.

(** No credential yet, and an authorization endpoint that grants one. *)
Definition first_contact : World :=
  sample_world
    (scripted [Response 200 (Some (JObj [("access_token", JStr "access-1");
                                         ("refresh_token", JStr "refresh-1");
                                         ("expires_in", JNum 21600)]));
               Response 200 (Some (JList []))])
    1000 None ∅.

(** An API without data, a clock at 1 ms and a start date at 0. *)
Definition quiet_api : World :=
  sample_world empty_server 1 (Some 999999999) ∅.

(** An API with two companies; the listing gives the one modified at 200
    before the one modified at 100. *)
Definition companies_server : nat -> Request -> NetOutcome :=
  fun _ req =>
    match req with
    | GET url _ _ _ =>
        if String.eqb (url_text url) (BASE_URL ++ "/companies/v2/properties")
        then Response 200 (Some (JList []))
        else if String.eqb (url_text url) (BASE_URL ++ "/companies/v2/companies/{company_id}")
        then
          let modified := match url_arg url with
                          | Some (JNum 1) => 200
                          | _ => 100
                          end in
          Response 200
            (Some (JObj [("hs_lastmodifieddate", JObj [("value", JTime modified)])]))
        else
          Response 200
            (Some (JObj [("results", JList [JObj [("companyId", JNum 1)];
                                           JObj [("companyId", JNum 2)]]);
                         ("hasMore", JBool false)]))
    | POST _ _ => Failed None
    end.

Definition companies_out_of_order : World :=
  sample_world companies_server 1000 (Some 5000) ∅.

(** Scenario B of the specification: 250 contacts, all candidates. *)
Definition contacts_250 : World :=
  sample_world (contacts_server 250) 1000 (Some 5000) ∅.

(** The watermark from which the sync of [entity] starts in [w]: the stored
    one, or the configured start date. *)
Definition watermark_of (entity : string) (w : World) : Z :=
  match STATE w !! entity with
  | Some t => t
  | None => start_date (CONFIG w)
  end.


(** The cadence as the specification words it. *)
Definition one_state_at_completion {A} (m : M A) (w : World) : Prop :=
  forall a w', m w = (Ret a, w') -> length (states (new_events w w')) = 1%nat.

Definition one_state_per_batch {A} (m : M A) (w : World) : Prop :=
  forall a w', m w = (Ret a, w') ->
    length (states (new_events w w')) = length (detail_batches (new_events w w')).

(** A run of [m] that returns has written state messages [sts] (oldest
    first) with [Q sts a w'], [a] the value returned and [w'] the world
    reached. *)
Definition yields {A} (Q : list (gmap string Z) -> A -> World -> Prop) (m : M A) : Prop :=
  forall w a w', m w = (Ret a, w') ->
    exists evs, trace w' = (evs ++ trace w)%list /\ Q (states evs) a w'.

(** A run of [m] that returns has a state message of the store as its last
    event. *)
Definition ends_with_state {A} (m : M A) : Prop :=
  forall w a w', m w = (Ret a, w') ->
    exists older, trace w' = WriteState (STATE w') :: older.

(** The number of state messages due after [n] listed records, one at each
    index that is a multiple of 250. *)
Definition checkpoints_due (n : nat) : nat := ((n + 249) / 250)%nat.



(** A measure of the world has not decreased. *)
Definition le_on (measure : World -> nat) (w w' : World) : Prop :=
  (measure w <= measure w')%nat.

(** The number of POST exchanges (token refreshes) in the trace. *)
Definition posts (w : World) : nat := length (List.filter is_post (trace w)).

(** The test of [request] on the credential: [CONFIG['token_expires'] is
    None or CONFIG['token_expires'] < datetime.datetime.utcnow()], and the
    world after the test (the clock is read only when an expiry is held). *)
Definition expired (w : World) : bool :=
  match token_expires (CONFIG w) with
  | None => true
  | Some e => e <? clock (env w) (ticks w)
  end.

Definition checked (w : World) : World :=
  match token_expires (CONFIG w) with
  | None => w
  | Some _ => tick w
  end.

(** The two halves of the body of [request]: the [if] that refreshes the
    token, and the GET with the test of its status. *)
Definition token_check : M unit :=
  let* w := get_world in
  let* expired := match token_expires (CONFIG w) with
                  | None => ret true
                  | Some e => let* now := utcnow in ret (e <? now)
                  end in
  if expired then refresh_token else ret tt.

Definition send_get (url : Url) (params : Params) : M (Z * option json) :=
  let* w := get_world in
  let req := GET url params (access_token (CONFIG w)) (user_agent_value (CONFIG w)) in
  write (LogInfo (GetUrl url params)) >>
  let* resp := exchange req in
  if 400 <=? fst resp
  then write (LogError (GetFailed url params (fst resp) (snd resp))) >> sys_exit 1
  else ret resp.

(** The refresh as the specification words it: a refresh
    exchange takes place in an attempt if and only if no credential is held
    or the held expiry is at or before the current instant. *)
Definition refresh_at_or_before (url : Url) (params : option Params) (w : World) : Prop :=
  existsb is_post (new_events w (snd (request_body url params w))) = true <->
  (token_expires (CONFIG w) = None \/
   exists e, token_expires (CONFIG w) = Some e /\ e <= clock (env w) (ticks w)).


(** ** What a piece of the program writes and how it can fail *)

(** Events that every part of the program may leave in the trace: logs,
    HTTP exchanges, sleeps and state messages. *)
Definition background (e : Event) : bool :=
  match e with
  | WriteSchema _ _ _ | WriteRecord _ _ => false
  | _ => true
  end.

Definition lets_background (ok : Event -> bool) : Prop :=
  forall e, background e = true -> ok e = true.

(** The errors of configuration: an endpoint name outside the table
    ([get_url]), offset keys and targets that do not pair up
    ([gen_request]), a URL placeholder without a value ([str.format] in
    [get_url]) and a stream without a chunk size ([CHUNK_SIZES]). *)
Definition is_config_error (e : Exn) : bool :=
  match e with
  | ValueError msg =>
      String.prefix "Invalid endpoint " msg || String.eqb msg mismatch_message
  | KeyError k =>
      existsb (String.eqb k)
        ["company_id"; "deal_id"; "campaign_id"; "email_events"; "subscription_changes"]
  | _ => false
  end.

(** Every run of [m] adds to the trace only events that [ok] accepts,
    raises no error of configuration, and exits with code 1 if it exits. *)
Definition behaves (ok : Event -> bool) {A} (m : M A) : Prop :=
  forall w,
    (exists evs, trace (snd (m w)) = (evs ++ trace w)%list /\ forallb ok evs = true) /\
    (forall e, fst (m w) = Raise e -> is_config_error e = false) /\
    (forall c, fst (m w) = SysExit c -> c = 1).

(** [get_url] can serve the name with these arguments. *)
Definition url_ok (endpoint : string) (kwargs : list (string * json)) : bool :=
  match assoc endpoint endpoints with
  | Some (_, None) => true
  | Some (_, Some placeholder) =>
      match assoc placeholder kwargs with Some _ => true | None => false end
  | None => false
  end.

(** Any event. *)
Definition any_event (e : Event) : bool := true.

(** No schema or record message of a stream other than [stream]. *)
Definition of_stream (stream : string) (e : Event) : bool :=
  match e with
  | WriteSchema s _ _ | WriteRecord s _ => String.eqb s stream
  | _ => true
  end.

(** No record message of [stream]. *)
Definition no_record_of (stream : string) (e : Event) : bool :=
  match e with
  | WriteRecord s _ => negb (String.eqb s stream)
  | _ => true
  end.

(** No schema message. *)
Definition no_schema (e : Event) : bool :=
  match e with
  | WriteSchema _ _ _ => false
  | _ => true
  end.

(** No record message. *)
Definition no_record (e : Event) : bool :=
  match e with
  | WriteRecord _ _ => false
  | _ => true
  end.

(** The streams of the schema messages, oldest first. *)
Definition schemas (evs : list Event) : list string :=
  omap (fun e => match e with WriteSchema s _ _ => Some s | _ => None end) (rev evs).

(** The records written for [stream], oldest first. *)
Definition records (stream : string) (evs : list Event) : list json :=
  omap (fun e => match e with
                 | WriteRecord s r => if String.eqb s stream then Some r else None
                 | _ => None
                 end) (rev evs).

(** In [evs] (most recent first) every record of [stream] comes after a
    schema message of [stream]. *)
Fixpoint announced (stream : string) (evs : list Event) : Prop :=
  match evs with
  | [] => True
  | WriteRecord s _ :: older =>
      (s = stream -> exists schema keys, In (WriteSchema stream schema keys) older) /\
      announced stream older
  | _ :: older => announced stream older
  end.

Definition announces (stream : string) {A} (m : M A) : Prop :=
  forall w, exists evs,
    trace (snd (m w)) = (evs ++ trace w)%list /\ announced stream evs.

(** Events that every part of the program may leave in the trace: logs,
    exchanges with the authorization endpoint and state messages. *)
Definition routine (e : Event) : bool :=
  match e with
  | LogInfo _ | LogError _ | Http (POST _ _) _ | WriteState _ => true
  | _ => false
  end.

Definition lets_routine (ok : Event -> bool) : Prop :=
  forall e, routine e = true -> ok e = true.

(** [ok] accepts a GET of [url] with [params], whatever the credential sent
    and the answer. *)
Definition gets_ok (ok : Event -> bool) (url : Url) (params : Params) : Prop :=
  forall bearer ua answer, ok (Http (GET url params bearer ua) answer) = true.

Definition sleeps_ok (ok : Event -> bool) : Prop :=
  forall wait, ok (Sleep wait) = true.

(** Every run of [m] writes the schema messages of the streams [l], in
    this order, when it returns, and those of the first streams of [l]
    when it fails. *)
Definition declares (l : list string) {A} (m : M A) : Prop :=
  forall w, exists evs,
    trace (snd (m w)) = (evs ++ trace w)%list /\
    (exists rest, l = (schemas evs ++ rest)%list) /\
    (forall a, fst (m w) = Ret a -> schemas evs = l).

(** The streams, in the order in which [do_sync] goes through them. *)
Definition stream_order : list string :=
  ["subscription_changes"; "email_events"; "forms"; "workflows"; "keywords";
   "owners"; "campaigns"; "contact_lists"; "contacts"; "companies"; "deals"].

(** The request of [refresh_token] to the authorization endpoint, for the
    configuration [c]. *)
Definition refresh_request (c : Config) : Request :=
  POST (BASE_URL ++ "/oauth/v1/token")
    [ ("grant_type", JStr "refresh_token");
      ("redirect_uri", redirect_uri c);
      ("refresh_token", refresh_token_value c);
      ("client_id", client_id c);
      ("client_secret", client_secret c) ].

(** The events of one attempt of the requester: no sleep, at most one
    refresh exchange and at most one GET exchange. *)
Definition one_attempt (evs : list Event) : Prop :=
  sleeps evs = [] /\
  (length (List.filter is_get evs) <= 1)%nat /\
  (length (List.filter is_post evs) <= 1)%nat.

(** No credential yet, and an authorization endpoint that answers with the
    given status. *)
Definition refresh_answered (status : Z) : World :=
  sample_world (scripted [Response status None]) 1000 None ∅.



(** A detail batch of the contacts has exactly 100 vids. *)
Definition full_batch (e : Event) : bool :=
  match detail_batch e with
  | Some vids => (length vids =? 100)%nat
  | None => true
  end.

(** A GET goes to one of the URLs [urls]. *)
Definition gets_from (urls : list string) (e : Event) : bool :=
  match e with
  | Http (GET url _ _ _) _ => existsb (String.eqb (url_text url)) urls
  | _ => true
  end.



(** The instant under [field] of a record, when it has one. *)
Definition field_time (field : string) (record : json) : option Instant :=
  match record with
  | JObj kvs => match obj_get field kvs with Some (JTime t) => Some t | _ => None end
  | _ => None
  end.


(** [modified_time] of a company or deal record, as [record_modified_time]
    computes it when it returns. *)
Definition modified_time_of (record : json) : option Instant :=
  match record with
  | JObj kvs =>
      match obj_get "hs_lastmodifieddate" kvs with
      | Some f => field_time "value" f
      | None =>
          match obj_get "createdate" kvs with
          | Some f => field_time "value" f
          | None => None
          end
      end
  | _ => None
  end.

(** A record message carries a record that passes the filter of the
    companies and deals. *)
Definition passes_start (start : Instant) (e : Event) : bool :=
  match e with
  | WriteRecord _ record => passes_filter (modified_time_of record) start
  | _ => true
  end.

(** The environment is the same. *)
Definition same_env (w w' : World) : Prop := env w' = env w.



(** An API with two forms, updated at 50 and at 200, and a forms watermark
    at 100. *)
Definition two_forms : World :=
  sample_world
    (fun _ _ => Response 200 (Some (JList [JObj [("updatedAt", JTime 50)];
                                           JObj [("updatedAt", JTime 200)]])))
    1000 (Some 5000) {[ "forms" := 100 ]}.

(** A store whose email events watermark is after the clock. *)
Definition up_to_date : World :=
  sample_world empty_server 1000 (Some 5000) {[ "email_events" := 2000 ]}.

(** * Properties *)

(** ** Running a sequence *)

Lemma bind_Ret_inv {A B} (m : M A) (f : A -> M B) w b w' :
  bind m f w = (Ret b, w') ->
  exists a w1, m w = (Ret a, w1) /\ f a w1 = (Ret b, w').
Proof.
  unfold bind. destruct (m w) as [[a | e | c | ] w1]; intros H; try discriminate.
  exists a, w1. split; [reflexivity | exact H].
Qed.

Lemma bind_run {A B} (m : M A) (f : A -> M B) w a w1 :
  m w = (Ret a, w1) -> bind m f w = f a w1.
Proof. unfold bind. intros ->. reflexivity. Qed.

Lemma bind_assoc {A B C} (m : M A) (f : A -> M B) (g : B -> M C) w :
  bind (bind m f) g w = bind m (fun a => bind (f a) g) w.
Proof. unfold bind. destruct (m w) as [[a | e | c | ] w1]; reflexivity. Qed.

Lemma bind_ext {A B} (m : M A) (f g : A -> M B) w :
  (forall a w1, f a w1 = g a w1) -> bind m f w = bind m g w.
Proof.
  intros H. unfold bind. destruct (m w) as [[a | e | c | ] w1]; try reflexivity. apply H.
Qed.

Lemma surjective_run {A} (m : M A) w : m w = (fst (m w), snd (m w)).
Proof. destruct (m w); reflexivity. Qed.

(** ** What every piece of the program maintains *)

Section Preservation.
Context (R : World -> World -> Prop) `{!Stable R}.

Lemma preserves_ret {A} (a : A) : preserves R (ret a).
Proof. intros w. apply stable_refl. Qed.

Lemma preserves_raise {A} e : preserves R (@raise A e).
Proof. intros w. apply stable_refl. Qed.

Lemma preserves_sys_exit {A} c : preserves R (@sys_exit A c).
Proof. intros w. apply stable_refl. Qed.

Lemma preserves_out_of_fuel {A} : preserves R (@out_of_fuel A).
Proof. intros w. apply stable_refl. Qed.

Lemma preserves_bind {A B} (m : M A) (f : A -> M B) :
  preserves R m -> (forall a, preserves R (f a)) -> preserves R (bind m f).
Proof.
  intros Hm Hf w. unfold bind. specialize (Hm w).
  destruct (m w) as [[a | e | c | ] w1]; simpl in *; try exact Hm.
  eapply stable_trans; [exact Hm | apply Hf].
Qed.

Lemma preserves_get_world : preserves R get_world.
Proof. intros w. apply stable_refl. Qed.

Lemma preserves_write e : is_output e = true -> preserves R (write e).
Proof. intros He w. simpl. apply stable_emit, He. Qed.

Lemma preserves_utcnow : preserves R utcnow.
Proof. intros w. simpl. apply stable_tick. Qed.

Lemma preserves_of_option {A} e (o : option A) : preserves R (of_option e o).
Proof. destruct o; [apply preserves_ret | apply preserves_raise]. Qed.

Lemma preserves_apply_transform r s : preserves R (apply_transform r s).
Proof. intros w. apply stable_refl. Qed.

Lemma preserves_apply_transform_datetime v : preserves R (apply_transform_datetime v).
Proof. intros w. apply stable_refl. Qed.

Lemma preserves_post url payload : preserves R (exchange (POST url payload)).
Proof.
  intros w. unfold exchange.
  destruct (server (env w) (exchanges w) (POST url payload)); simpl; apply stable_post.
Qed.

Lemma preserves_set_config (f : World -> Config) :
  preserves R (fun w => (Ret tt, set_CONFIG (f w) w)).
Proof. intros w. simpl. apply stable_config. Qed.

Lemma preserves_for_each {A S} (body : S -> A -> M S) l :
  (forall s x, preserves R (body s x)) -> forall s, preserves R (for_each body l s).
Proof.
  intros Hb. induction l as [| x l IH]; intros s; simpl.
  - apply preserves_ret.
  - apply preserves_bind; [apply Hb | intros; apply IH].
Qed.

Lemma preserves_on_exception_loop {A} max_tries gu factor (target : M A) :
  preserves R target ->
  forall remaining tries,
    preserves R (on_exception_loop max_tries gu factor target remaining tries).
Proof.
  intros Ht. induction remaining as [| n IH]; intros tries w; simpl.
  - apply stable_refl.
  - specialize (Ht w).
    destruct (target w) as [[a | [ | | | | r] | c | ] w1]; simpl in *; try exact Ht.
    match goal with |- context [if ?b then _ else _] => destruct b end;
      simpl; [exact Ht |].
    eapply stable_trans; [exact Ht |].
    eapply stable_trans; [apply (stable_emit (Sleep (expo factor tries))); reflexivity |].
    apply IH.
Qed.

End Preservation.

(** Steps through a program, one construct at a time. *)
Ltac pres_step :=
  lazymatch goal with
  | |- preserves _ (bind _ _) => apply preserves_bind
  | |- preserves _ (ret _) => apply preserves_ret
  | |- preserves _ (raise _) => apply preserves_raise
  | |- preserves _ (sys_exit _) => apply preserves_sys_exit
  | |- preserves _ out_of_fuel => apply preserves_out_of_fuel
  | |- preserves _ get_world => apply preserves_get_world
  | |- preserves _ utcnow => apply preserves_utcnow
  | |- preserves _ (write _) => apply preserves_write
  | |- preserves _ (write_schema _ _ _) => apply preserves_write
  | |- preserves _ (write_record _ _) => apply preserves_write
  | |- preserves _ (of_option _ _) => apply preserves_of_option
  | |- preserves _ (apply_transform _ _) => apply preserves_apply_transform
  | |- preserves _ (apply_transform_datetime _) => apply preserves_apply_transform_datetime
  | |- preserves _ (exchange (POST _ _)) => apply preserves_post
  | |- preserves _ (fun w => (Ret tt, set_CONFIG _ w)) =>
      apply (preserves_set_config _ (fun w => _))
  | |- preserves _ (for_each _ _ _) => apply preserves_for_each
  | |- preserves _ (get_start _) => apply stable_get_start
  | |- preserves _ (update_state _ _) => apply stable_update_state
  | |- preserves _ write_state => apply stable_write_state
  | |- preserves _ (match ?x with _ => _ end) => destruct x
  end.

Ltac pres_side :=
  lazymatch goal with
  | |- preserves _ _ => idtac
  | |- forall _, _ => idtac
  | |- _ => first [typeclasses eauto | reflexivity]
  end.

Ltac pres := repeat (intros; cbv beta; pres_step; pres_side).

Section PreservationOfProgram.
Context (R : World -> World -> Prop) `{!Stable R}.

Lemma preserves_resp_json resp : preserves R (resp_json resp).
Proof. unfold resp_json. pres. Qed.

Lemma preserves_subscript x k : preserves R (subscript x k).
Proof. unfold subscript. pres. Qed.

Lemma preserves_contains k x : preserves R (contains k x).
Proof. unfold contains. pres. Qed.

Lemma preserves_iterate x : preserves R (iterate x).
Proof. unfold iterate. pres. Qed.

Lemma preserves_dict_get d k : preserves R (dict_get d k).
Proof. unfold dict_get. pres. Qed.

Lemma preserves_dict_items d : preserves R (dict_items d).
Proof. unfold dict_items. pres. Qed.

Lemma preserves_strptime v : preserves R (strptime v).
Proof. unfold strptime. pres. Qed.

Lemma preserves_at_or_after v t : preserves R (at_or_after v t).
Proof. unfold at_or_after. pres. Qed.

Lemma preserves_get_url e kw : preserves R (get_url e kw).
Proof.
  unfold get_url. destruct (assoc e endpoints) as [[t [p |]] |]; pres.
Qed.

Lemma preserves_days_since t : preserves R (days_since t).
Proof. unfold days_since. pres. Qed.

Lemma preserves_copy_offsets data pairs :
  forall params, preserves R (copy_offsets data pairs params).
Proof.
  induction pairs as [| [k t] rest IH]; intros params; simpl.
  - pres.
  - apply preserves_bind; [exact _ | apply preserves_subscript | intros; apply IH].
Qed.

Lemma preserves_refresh_token : preserves R refresh_token.
Proof.
  unfold refresh_token. pres;
    first [apply preserves_resp_json | apply preserves_subscript].
Qed.

End PreservationOfProgram.

Ltac pres_leaf :=
  first [ apply preserves_resp_json | apply preserves_subscript
        | apply preserves_contains | apply preserves_iterate
        | apply preserves_dict_get | apply preserves_dict_items
        | apply preserves_strptime | apply preserves_at_or_after
        | apply preserves_get_url | apply preserves_days_since
        | apply preserves_copy_offsets | apply preserves_refresh_token ].

Ltac prog := repeat (intros; cbv beta; first [pres_step | pres_leaf]; pres_side); intros.

Section PreservationOfRequests.
Context (R : World -> World -> Prop) `{!Stable R} `{!GetStable R}.

Lemma preserves_get url params bearer ua :
  preserves R (exchange (GET url params bearer ua)).
Proof.
  intros w. unfold exchange.
  destruct (server (env w) (exchanges w) (GET url params bearer ua)); simpl;
    apply stable_get.
Qed.

Lemma preserves_request_body url params : preserves R (request_body url params).
Proof. unfold request_body. prog. apply preserves_get. Qed.

Lemma preserves_request url params : preserves R (request url params).
Proof.
  unfold request, on_exception. apply preserves_on_exception_loop; [exact _ |].
  apply preserves_request_body.
Qed.

Lemma preserves_gen_pages {S} (body : S -> json -> M S) url path more_key pairs :
  (forall s row, preserves R (body s row)) ->
  forall fuel params s,
    preserves R (gen_pages fuel url path more_key pairs body params s).
Proof.
  intros Hb. induction fuel as [| fuel IH]; intros params s; simpl.
  - prog.
  - prog; first [apply preserves_request | apply Hb | apply IH].
Qed.

Lemma preserves_gen_request {S} (body : S -> json -> M S) fuel url params path
    more_key ks ts s :
  (forall s row, preserves R (body s row)) ->
  preserves R (gen_request fuel url params path more_key ks ts body s).
Proof.
  intros Hb. unfold gen_request. prog. apply preserves_gen_pages, Hb.
Qed.

Lemma preserves_parse_custom_schema e data : preserves R (parse_custom_schema e data).
Proof. unfold parse_custom_schema. prog. Qed.

Lemma preserves_get_custom_schema e : preserves R (get_custom_schema e).
Proof.
  unfold get_custom_schema. prog;
    first [apply preserves_request | apply preserves_parse_custom_schema].
Qed.

Lemma preserves_load_schema e : preserves R (load_schema e).
Proof. unfold load_schema. prog. apply preserves_get_custom_schema. Qed.

Lemma preserves_record_modified_time r : preserves R (record_modified_time r).
Proof. unfold record_modified_time. prog. Qed.

Lemma preserves_sync_campaigns fuel : preserves R (sync_campaigns fuel).
Proof.
  unfold sync_campaigns. prog;
    first [apply preserves_load_schema | apply preserves_gen_request; prog;
           apply preserves_request].
Qed.

End PreservationOfRequests.

Ltac prog_leaf :=
  first [ pres_leaf | apply preserves_get | apply preserves_request
        | apply preserves_load_schema | apply preserves_record_modified_time
        | apply preserves_gen_request | apply preserves_gen_pages
        | apply preserves_sync_campaigns ].

Ltac whole := repeat (intros; cbv beta; first [pres_step | prog_leaf]; pres_side); intros.

Section PreservationOfStreams.
Context (R : World -> World -> Prop) `{!Stable R} `{!GetStable R} `{!StoreStable R}.

Lemma preserves_sync_contacts_row last_sync schema vids row :
  preserves R (sync_contacts_row last_sync schema vids row).
Proof. unfold sync_contacts_row. whole. Qed.

Lemma preserves_sync_detail_row_quiet stream ep arg key last_sync schema i row :
  (Z.of_nat i mod 250 =? 0) = false ->
  preserves R (sync_detail_row stream ep arg key last_sync schema i row).
Proof. intros Hi. unfold sync_detail_row. rewrite Hi. whole. Qed.

Lemma preserves_sync_contact_lists fuel : preserves R (sync_contact_lists fuel).
Proof. unfold sync_contact_lists. whole. Qed.

Context `{!CheckpointStable R}.

Lemma preserves_sync_contacts fuel : preserves R (sync_contacts fuel).
Proof. unfold sync_contacts. whole. apply preserves_sync_contacts_row. Qed.

Lemma preserves_sync_detail_row stream ep arg key last_sync schema i row :
  preserves R (sync_detail_row stream ep arg key last_sync schema i row).
Proof. unfold sync_detail_row. whole. Qed.



Lemma preserves_chunk_loop pages e path schema url now_ts :
  forall fuel start_ts,
    preserves R (chunk_loop fuel pages e path schema url now_ts start_ts).
Proof.
  induction fuel as [| fuel IH]; intros start_ts; cbn [chunk_loop].
  - whole.
  - whole. apply IH.
Qed.


Lemma preserves_sync_single_page stream keys rows_key field :
  preserves R (sync_single_page stream keys rows_key field).
Proof. unfold sync_single_page. whole. Qed.


End PreservationOfStreams.

(** ** The relations are maintained *)

Lemma states_app (a b : list Event) : states (a ++ b) = (states b ++ states a)%list.
Proof. unfold states. rewrite rev_app_distr. apply omap_app. Qed.


Lemma states_cons_state s evs : states (WriteState s :: evs) = (states evs ++ [s])%list.
Proof. change (WriteState s :: evs) with ([WriteState s] ++ evs)%list. apply states_app. Qed.

Lemma new_events_app w w' evs : trace w' = (evs ++ trace w)%list -> new_events w w' = evs.
Proof.
  intros H. unfold new_events. rewrite H, length_app.
  replace (length evs + length (trace w) - length (trace w))%nat with (length evs) by lia.
  apply take_app_length.
Qed.

Lemma preserves_run R {A} (m : M A) w r w' : preserves R m -> m w = (r, w') -> R w w'.
Proof. intros Hm H. specialize (Hm w). rewrite H in Hm. exact Hm. Qed.

#[export] Instance extends_stable : Stable extends.
Proof.
  split.
  - intros w. exists []. reflexivity.
  - intros w1 w2 w3 [e1 H1] [e2 H2]. exists (e2 ++ e1)%list.
    rewrite H2, H1. apply app_assoc.
  - intros w. exists []. reflexivity.
  - intros e w _. exists [e]. reflexivity.
  - intros c w. exists []. reflexivity.
  - intros url payload answer w. exists [Http (POST url payload) answer]. reflexivity.
Qed.

#[export] Instance extends_get : GetStable extends.
Proof. intros url params bearer ua answer w. eexists [_]. reflexivity. Qed.

Lemma get_start_cases key w :
  (STATE w !! key = None /\
   get_start key w = (Ret (start_date (CONFIG w)),
                      set_STATE (<[key := start_date (CONFIG w)]> (STATE w)) w)) \/
  (exists t, STATE w !! key = Some t /\ get_start key w = (Ret t, w)).
Proof.
  unfold get_start. destruct (STATE w !! key) as [t |] eqn:E.
  - right. exists t. split; reflexivity.
  - left. split; reflexivity.
Qed.

(** The watermark of [entity] after [update_state]: the later of the stored
    one and [t]. *)
Lemma update_state_time entity t w :
  update_state entity (JTime t) w =
    (Ret tt, set_STATE (<[entity := match STATE w !! entity with
                                     | Some cur => Z.max cur t
                                     | None => t
                                     end]> (STATE w)) w).
Proof.
  unfold update_state. destruct (STATE w !! entity) as [cur |] eqn:E; cbv beta iota.
  - rewrite E. destruct (Z.leb_spec cur t) as [Hle | Hgt].
    + rewrite Z.max_r by lia. reflexivity.
    + rewrite Z.max_l by lia. rewrite insert_id by exact E. reflexivity.
  - rewrite lookup_insert_eq. rewrite Z.leb_refl. rewrite insert_insert_eq. reflexivity.
Qed.

Lemma update_state_trace entity dt w : trace (snd (update_state entity dt w)) = trace w.
Proof.
  destruct dt; try reflexivity. rewrite update_state_time. reflexivity.
Qed.

Lemma get_start_trace key w : trace (snd (get_start key w)) = trace w.
Proof.
  destruct (get_start_cases key w) as [[_ ->] | (t & _ & ->)]; reflexivity.
Qed.

#[export] Instance extends_store : StoreStable extends.
Proof.
  split.
  - intros key w. exists []. apply get_start_trace.
  - intros entity dt w. exists []. apply update_state_trace.
Qed.

#[export] Instance extends_checkpoint : CheckpointStable extends.
Proof. intros w. eexists [_]. reflexivity. Qed.

#[export] Instance quiet_stable : Stable quiet.
Proof.
  split.
  - intros w. exists []. split; reflexivity.
  - intros w1 w2 w3 (e1 & H1 & Q1) (e2 & H2 & Q2). exists (e2 ++ e1)%list. split.
    + rewrite H2, H1. apply app_assoc.
    + rewrite states_app, Q1, Q2. reflexivity.
  - intros w. exists []. split; reflexivity.
  - intros e w He. exists [e]. split; [reflexivity |].
    destruct e; try discriminate; reflexivity.
  - intros c w. exists []. split; reflexivity.
  - intros url payload answer w. eexists [_]. split; reflexivity.
Qed.

#[export] Instance quiet_get : GetStable quiet.
Proof. intros url params bearer ua answer w. eexists [_]. split; reflexivity. Qed.

#[export] Instance quiet_store : StoreStable quiet.
Proof.
  split.
  - intros key w. exists []. split; [apply get_start_trace | reflexivity].
  - intros entity dt w. exists []. split; [apply update_state_trace | reflexivity].
Qed.

#[export] Instance no_get_stable : Stable no_get.
Proof.
  split.
  - intros w. exists []. split; reflexivity.
  - intros w1 w2 w3 (e1 & H1 & Q1) (e2 & H2 & Q2). exists (e2 ++ e1)%list. split.
    + rewrite H2, H1. apply app_assoc.
    + rewrite forallb_app, Q1, Q2. reflexivity.
  - intros w. exists []. split; reflexivity.
  - intros e w He. exists [e]. split; [reflexivity |].
    destruct e; try discriminate; reflexivity.
  - intros c w. exists []. split; reflexivity.
  - intros url payload answer w. eexists [_]. split; reflexivity.
Qed.

#[export] Instance same_STATE_stable : Stable same_STATE.
Proof.
  split; try (intros; reflexivity).
  intros w1 w2 w3 H1 H2. unfold same_STATE in *. congruence.
Qed.

#[export] Instance same_STATE_get : GetStable same_STATE.
Proof. intros url params bearer ua answer w. reflexivity. Qed.

(** *** The order of the watermark stores *)

Lemma state_le_refl s : state_le s s.
Proof. intros k t H. exists t. split; [exact H | lia]. Qed.

Lemma state_le_trans s1 s2 s3 : state_le s1 s2 -> state_le s2 s3 -> state_le s1 s3.
Proof.
  intros H1 H2 k t H. destruct (H1 k t H) as (t' & H' & Hle).
  destruct (H2 k t' H') as (t'' & H'' & Hle'). exists t''. split; [exact H'' | lia].
Qed.

Lemma state_le_insert_new s k t : s !! k = None -> state_le s (<[k := t]> s).
Proof.
  intros Hk k' t' H'. exists t'. split; [| lia].
  rewrite lookup_insert_ne; [exact H' | congruence].
Qed.

Lemma state_le_raise s k cur t :
  s !! k = Some cur -> cur <= t -> state_le s (<[k := t]> s).
Proof.
  intros Hk Hle k' t' H'. destruct (decide (k = k')) as [<- | Hne].
  - exists t. rewrite lookup_insert_eq. split; [reflexivity |].
    rewrite Hk in H'. injection H' as <-. exact Hle.
  - exists t'. rewrite lookup_insert_ne by exact Hne. split; [exact H' | lia].
Qed.

Lemma ordered_between_hi lo evs hi hi' :
  state_le hi hi' -> ordered_between lo evs hi -> ordered_between lo evs hi'.
Proof.
  intros Hle. induction evs as [| e rest IH]; simpl.
  - intros H. eapply state_le_trans; eassumption.
  - destruct e; try exact IH.
    intros [H1 H2]. split; [eapply state_le_trans; eassumption | exact H2].
Qed.

Lemma ordered_between_app lo e1 mid e2 hi :
  ordered_between lo e1 mid -> ordered_between mid e2 hi ->
  ordered_between lo (e2 ++ e1) hi.
Proof.
  intros H1. revert hi. induction e2 as [| e rest IH]; simpl; intros hi H2.
  - eapply ordered_between_hi; eassumption.
  - destruct e; try (apply IH; exact H2).
    destruct H2 as [Ha Hb]. split; [exact Ha | apply IH; exact Hb].
Qed.

Lemma monotone_same w w' : trace w' = trace w -> state_le (STATE w) (STATE w') -> monotone w w'.
Proof. intros Ht Hs. exists []. split; [exact Ht | exact Hs]. Qed.

#[export] Instance monotone_stable : Stable monotone.
Proof.
  split.
  - intros w. apply monotone_same; [reflexivity | apply state_le_refl].
  - intros w1 w2 w3 (e1 & H1 & Q1) (e2 & H2 & Q2). exists (e2 ++ e1)%list. split.
    + rewrite H2, H1. apply app_assoc.
    + eapply ordered_between_app; eassumption.
  - intros w. apply monotone_same; [reflexivity | apply state_le_refl].
  - intros e w He. exists [e]. split; [reflexivity |].
    destruct e; try discriminate; simpl; apply state_le_refl.
  - intros c w. apply monotone_same; [reflexivity | apply state_le_refl].
  - intros url payload answer w. eexists [_]. split; [reflexivity |].
    simpl. apply state_le_refl.
Qed.

#[export] Instance monotone_get : GetStable monotone.
Proof.
  intros url params bearer ua answer w. eexists [_]. split; [reflexivity |].
  simpl. apply state_le_refl.
Qed.

(** No operation of the store lowers a watermark or removes one. *)
Lemma get_start_state_le key w : state_le (STATE w) (STATE (snd (get_start key w))).
Proof.
  destruct (get_start_cases key w) as [[Hn ->] | (t & _ & ->)]; simpl.
  - apply state_le_insert_new, Hn.
  - apply state_le_refl.
Qed.

Lemma update_state_state_le entity dt w :
  state_le (STATE w) (STATE (snd (update_state entity dt w))).
Proof.
  destruct dt; try apply state_le_refl. rewrite update_state_time. simpl.
  destruct (STATE w !! entity) as [cur |] eqn:E.
  - eapply state_le_raise; [exact E | lia].
  - apply state_le_insert_new, E.
Qed.

#[export] Instance monotone_store : StoreStable monotone.
Proof.
  split.
  - intros key w. apply monotone_same; [apply get_start_trace | apply get_start_state_le].
  - intros entity dt w.
    apply monotone_same; [apply update_state_trace | apply update_state_state_le].
Qed.

#[export] Instance monotone_checkpoint : CheckpointStable monotone.
Proof.
  intros w. eexists [_]. split; [reflexivity |]. simpl.
  split; apply state_le_refl.
Qed.



(** ** C8: the watermarks never move backward *)


(** Two companies listed out of order of modification (200, then 100), both
    after the watermark read at the start: both records are written, and the
    stored watermark stays at 200. *)
Example companies_out_of_order_keep_the_later :
  let r := sync_companies 5 companies_out_of_order in
  fst r = Ret tt /\
  STATE (snd r) !! "companies" = Some 200 /\
  length (List.filter (fun e => match e with WriteRecord _ _ => true | _ => false end)
            (trace (snd r))) = 2%nat.
Proof. vm_compute. repeat split. Qed.

(** ** C10: reading the start position seeds the watermark *)








(** ** The requester *)

Lemma no_get_no_response evs :
  forallb (fun e => negb (is_get e)) evs = true -> no_response evs.
Proof.
  unfold no_response. induction evs as [| e rest IH]; simpl; [reflexivity |].
  intros H. apply andb_true_iff in H as [He Hr]. rewrite (IH Hr), andb_true_r.
  destruct e as [| | [] [] | | | |]; try reflexivity; discriminate.
Qed.

(** What a call of the requester leaves in the trace: events [pre] among
    which no GET was answered, and then either nothing more, with a failure
    (an exception, an exit), or an answered GET with a status below 400,
    which is returned, or an answered GET with a status of 400 or more, the
    error log and the exit with code 1. *)
Lemma request_body_outcome url params w r w' :
  request_body url params w = (r, w') -> request_shape url w r w'.
Proof.
  set (prefix := let* w0 := get_world in
                 let* expired := match token_expires (CONFIG w0) with
                                 | None => ret true
                                 | Some e => let* now := utcnow in ret (e <? now)
                                 end in
                 if expired then refresh_token else ret tt).
  set (P := match params with Some p => p | None => ∅ end).
  set (tail := let* w0 := get_world in
               write (LogInfo (GetUrl url P)) >>
               let* resp := exchange (GET url P (access_token (CONFIG w0))
                                        (user_agent_value (CONFIG w0))) in
               if 400 <=? fst resp
               then write (LogError (GetFailed url P (fst resp) (snd resp))) >> sys_exit 1
               else ret resp).
  assert (Hsplit : forall w, request_body url params w = bind prefix (fun _ => tail) w).
  { intros w0. unfold prefix, request_body. rewrite bind_assoc.
    apply bind_ext; intros w1 w2. rewrite bind_assoc.
    apply bind_ext; intros expired w3. reflexivity. }
  intros H. rewrite Hsplit in H.
  assert (Hpre : preserves no_get prefix) by (unfold prefix; prog).
  specialize (Hpre w). unfold bind in H.
  destruct (prefix w) as [o w1]. simpl in Hpre. destruct Hpre as (pre & Ht & Hn).
  apply no_get_no_response in Hn.
  assert (Hfail : forall o' : Outcome (Z * option json),
            (forall a, o' <> Ret a) -> (o', w1) = (r, w') -> request_shape url w r w').
  { intros o' Ho E. injection E as <- <-. exists pre. split; [exact Hn |].
    left. split; [exact Ho | exact Ht]. }
  destruct o as [[] | e | c | ];
    try (refine (Hfail _ _ H); intros a; discriminate).
  unfold tail, bind, get_world, write, exchange in H. simpl in H.
  destruct (server (env w1) (exchanges w1) _) as [resp | s b] eqn:E; simpl in H.
  - injection H as <- <-.
    exists (Http (GET url P (access_token (CONFIG w1)) (user_agent_value (CONFIG w1)))
              (Failed resp) :: LogInfo (GetUrl url P) :: pre).
    split; [exact Hn |]. left. split; [discriminate |]. simpl. rewrite Ht. reflexivity.
  - exists pre. split; [exact Hn |].
    destruct (Z.leb_spec 400 s) as [Hs | Hs]; simpl in H; injection H as <- <-.
    + right; right. exists P, (access_token (CONFIG w1)), (user_agent_value (CONFIG w1)), s, b.
      simpl. rewrite Ht. repeat split. exact Hs.
    + right; left. exists P, (access_token (CONFIG w1)), (user_agent_value (CONFIG w1)), s, b.
      simpl. rewrite Ht. repeat split. exact Hs.
Qed.

Lemma no_response_app a b : no_response a -> no_response b -> no_response (a ++ b).
Proof. unfold no_response. intros Ha Hb. rewrite forallb_app, Ha, Hb. reflexivity. Qed.

Lemma request_shape_after url w w1 r w' pre :
  trace w1 = (pre ++ trace w)%list -> no_response pre ->
  request_shape url w1 r w' -> request_shape url w r w'.
Proof.
  intros Ht Hn (pre' & Hn' & H). exists (pre' ++ pre)%list.
  split; [apply no_response_app; assumption |].
  rewrite Ht in H. rewrite <- !app_assoc.
  destruct H as [[Hf H] | [(P & tok & ua & s & b & Hs & Hr & H) | (P & tok & ua & s & b & Hs & Hr & H)]].
  - left. split; assumption.
  - right; left. exists P, tok, ua, s, b. repeat split; assumption.
  - right; right. exists P, tok, ua, s, b. repeat split; assumption.
Qed.

Lemma on_exception_loop_outcome url params max_tries gu factor :
  forall remaining tries w r w',
    on_exception_loop max_tries gu factor (request_body url params) remaining tries w
      = (r, w') ->
    request_shape url w r w'.
Proof.
  induction remaining as [| n IH]; intros tries w r w' H; simpl in H.
  - injection H as <- <-. exists []. split; [reflexivity |].
    left. split; [discriminate | reflexivity].
  - destruct (request_body url params w) as [r1 w1] eqn:E.
    pose proof (request_body_outcome _ _ _ _ _ E) as Hshape.
    destruct r1 as [a | [ | | | | resp] | c | ]; try (injection H as <- <-; exact Hshape).
    match type of H with context [if ?b then _ else _] => destruct b end.
    + injection H as <- <-. exact Hshape.
    + apply IH in H.
      destruct Hshape as (pre & Hn & [[_ Ht] | [(P & tok & ua & s & b & _ & Hr & _) | (P & tok & ua & s & b & _ & Hr & _)]]);
        try discriminate.
      eapply (request_shape_after url w _ r w' (Sleep (expo factor tries) :: pre));
        [| | exact H].
      * simpl. rewrite Ht. reflexivity.
      * exact Hn.
Qed.

Lemma request_outcome url params w r w' :
  request url params w = (r, w') -> request_shape url w r w'.
Proof. apply on_exception_loop_outcome. Qed.

Lemma no_response_In e evs : no_response evs -> In e evs -> got_response e = false.
Proof.
  unfold no_response. intros Hn Hin. rewrite forallb_forall in Hn.
  specialize (Hn e Hin). destruct (got_response e); [discriminate | reflexivity].
Qed.

(** A GET that is answered with a status of 400 or more, client or server
    error alike, is the last exchange of the call: the error is logged and
    the process exits with code 1. *)
Lemma error_status_exits url params w r w' u P tok ua s b :
  request url params w = (r, w') ->
  In (Http (GET u P tok ua) (Response s b)) (new_events w w') ->
  400 <= s ->
  r = SysExit 1 /\ u = url /\
  exists older,
    new_events w w' =
      LogError (GetFailed url P s b) :: Http (GET url P tok ua) (Response s b) :: older /\
    no_response older /\ sleeps (new_events w w') = sleeps older.
Proof.
  intros H Hin Hs. apply request_outcome in H as (pre & Hn & H).
  destruct H as [[_ Ht] | [(P' & tok' & ua' & s' & b' & Hs' & Hr & Ht)
                          | (P' & tok' & ua' & s' & b' & Hs' & Hr & Ht)]].
  - rewrite (new_events_app w w' pre Ht) in Hin.
    apply (no_response_In _ _ Hn) in Hin. discriminate.
  - rewrite (new_events_app w w' (_ :: _ :: pre) Ht) in Hin.
    destruct Hin as [E | [E | Hin]]; try discriminate.
    + injection E; intros; subst. lia.
    + apply (no_response_In _ _ Hn) in Hin. discriminate.
  - rewrite (new_events_app w w' (_ :: _ :: _ :: pre) Ht) in *.
    destruct Hin as [E | [E | [E | Hin]]]; try discriminate.
    + injection E; intros; subst. split; [reflexivity |]. split; [reflexivity |].
      eexists (LogInfo _ :: pre). split; [reflexivity |]. split; [exact Hn |].
      unfold sleeps. simpl. rewrite <- !app_assoc, !omap_app. simpl.
      rewrite !app_nil_r. reflexivity.
    + apply (no_response_In _ _ Hn) in Hin. discriminate.
Qed.

(** ** C5: a client error stops the run *)

(** C5. For every HTTP request whose response has status in [400, 500),
    the requester does not retry: it logs the failing URL and status, and
    terminates the process with a non-zero exit code. Whenever a GET of a
    call of [request] is answered with such a status, the call ends in
    [sys.exit(1)]; the answered GET is the last exchange of the call,
    followed by the error log of that URL and status only; no other GET of
    the call was answered, and no backoff sleep follows it. *)
Theorem client_error_is_not_retried :
  forall url params w r w' u P tok ua s b,
    request url params w = (r, w') ->
    In (Http (GET u P tok ua) (Response s b)) (new_events w w') ->
    400 <= s < 500 ->
    r = SysExit 1 /\ u = url /\
    exists older,
      new_events w w' =
        LogError (GetFailed url P s b) :: Http (GET url P tok ua) (Response s b) :: older /\
      no_response older /\ sleeps (new_events w w') = sleeps older.
Proof.
  intros url params w r w' u P tok ua s b H Hin [Hs _].
  eapply error_status_exits; eassumption.
Qed.

Lemma client_error_is_not_retried_witness :
  fst (request sample_url None not_found) = SysExit 1.
Proof.
  apply (client_error_is_not_retried sample_url None not_found _ _
           sample_url ∅ (JStr "access-0") None 404 None (surjective_run _ _)).
  - vm_compute. right; left. reflexivity.
  - lia.
Defined.

(** ** C1: which failures are retried *)

(** Network failures are retried with the waits 2, 4, 8, 16 of the
    exponential backoff, five attempts in all. *)
Example network_failures_are_retried :
  let r := request sample_url None unreachable_twice in
  fst r = Ret (200, Some (JList [])) /\
  sleeps (new_events unreachable_twice (snd r)) = [2; 4] /\
  exchanges (snd r) = 3%nat.
Proof. vm_compute. repeat split. Qed.

Example network_failures_exhaust :
  let r := request sample_url None unreachable in
  fst r = Raise (RequestException None) /\
  sleeps (new_events unreachable (snd r)) = [2; 4; 8; 16] /\
  exchanges (snd r) = 5%nat.
Proof. vm_compute. repeat split. Qed.

(** C1 (the code departs from the specification). A call that receives status 503
    twice and then 200: the first 503 is logged and the process exits with
    code 1; one exchange has taken place, no backoff sleep, and the 200 is
    never asked for. The status test [resp.status_code >= 400] of [request]
    exits before any [RequestException] could reach the decorator. *)
Theorem server_error_exits_without_retry :
  let r := request sample_url None unavailable_twice in
  fst r = SysExit 1 /\
  sleeps (new_events unavailable_twice (snd r)) = [] /\
  exchanges (snd r) = 1%nat /\
  new_events unavailable_twice (snd r) =
    [ LogError (GetFailed sample_url ∅ 503 None);
      Http (GET sample_url ∅ (JStr "access-0") None) (Response 503 None);
      LogInfo (GetUrl sample_url ∅) ].
Proof. vm_compute. repeat split. Qed.

(** ** C2: the detail batches of the contacts *)

(** C2 (the code departs from the specification). A contacts sync whose listing
    yields 250 candidate vids: the sync completes with two detail fetches,
    of 100 vids each, and 200 records; the last 50 candidates, vids 201 to
    250, are in no batch: [sync_contacts] fetches a batch when [vids]
    reaches 100 and never fetches what is left at the end of the listing. *)
Theorem contacts_250_fetch_two_batches :
  let r := sync_contacts 10 contacts_250 in
  let evs := new_events contacts_250 (snd r) in
  fst r = Ret tt /\
  map length (detail_batches evs) = [100; 100]%nat /\
  concat (detail_batches evs) = map (fun i => JNum (Z.of_nat i)) (seq 1 200) /\
  length (List.filter (fun e => match e with WriteRecord _ _ => true | _ => false end)
            evs) = 200%nat.
Proof. vm_compute. repeat split. Qed.

(** ** Measures that only grow: exchanges, refreshes *)

Lemma posts_emit e w : posts (emit e w) = (if is_post e then S (posts w) else posts w).
Proof. unfold posts. simpl. destruct (is_post e); reflexivity. Qed.

#[export] Instance exchanges_grow : Stable (le_on exchanges).
Proof. split; unfold le_on; simpl; intros; lia. Qed.

#[export] Instance exchanges_grow_get : GetStable (le_on exchanges).
Proof. intros url params bearer ua answer w. unfold le_on. simpl. lia. Qed.

#[export] Instance posts_grow : Stable (le_on posts).
Proof.
  split; unfold le_on; intros; try reflexivity.
  - lia.
  - rewrite posts_emit. destruct (is_post e); lia.
  - unfold posts. simpl. lia.
Qed.

#[export] Instance posts_grow_get : GetStable (le_on posts).
Proof.
  intros url params bearer ua answer w. unfold le_on, posts. simpl. lia.
Qed.

Lemma bind_exchange_grows (measure : World -> nat) `{!Stable (le_on measure)}
    {B} req (k : Z * option json -> M B) w :
  (forall a, preserves (le_on measure) (k a)) ->
  (forall answer w0, (measure w0 < measure (exchanged req answer w0))%nat) ->
  (measure w < measure (snd (bind (exchange req) k w)))%nat.
Proof.
  intros Hk Hx. unfold bind, exchange.
  destruct (server (env w) (exchanges w) req) as [r | s b] eqn:E; simpl.
  - apply Hx.
  - specialize (Hk (s, b) (exchanged req (Response s b) w)). unfold le_on in Hk.
    specialize (Hx (Response s b) w). lia.
Qed.

Lemma bind_grows (measure : World -> nat) `{!Stable (le_on measure)}
    {A B} (m : M A) (k : A -> M B) w :
  (measure w < measure (snd (m w)))%nat ->
  (forall a, preserves (le_on measure) (k a)) ->
  (measure w < measure (snd (bind m k w)))%nat.
Proof.
  intros Hm Hk. unfold bind. destruct (m w) as [[a | e | c | ] w1]; simpl in *; try exact Hm.
  specialize (Hk a w1). unfold le_on in Hk. lia.
Qed.

Lemma refresh_token_grows (measure : World -> nat) `{!Stable (le_on measure)} w :
  (forall e w0, is_output e = true -> measure (emit e w0) = measure w0) ->
  (forall url payload answer w0,
     (measure w0 < measure (exchanged (POST url payload) answer w0))%nat) ->
  (measure w < measure (snd (refresh_token w)))%nat.
Proof.
  intros He Hx. unfold refresh_token.
  rewrite (bind_run get_world _ w w w eq_refl).
  erewrite (bind_run (write _) _ w tt); [| reflexivity].
  rewrite <- (He (LogInfo RefreshingToken) w eq_refl).
  apply bind_exchange_grows; [exact _ | | intros; apply Hx].
  intros resp. prog.
Qed.

Lemma token_check_run w :
  token_check w = if expired w then refresh_token (checked w) else (Ret tt, checked w).
Proof.
  unfold token_check, expired, checked. rewrite (bind_run get_world _ w w w eq_refl).
  destruct (token_expires (CONFIG w)) as [e |]; [| reflexivity].
  unfold bind, utcnow, ret. simpl.
  destruct (e <? clock (env w) (ticks w)); reflexivity.
Qed.

Lemma request_body_split url params w :
  request_body url params w =
    bind token_check
      (fun _ => send_get url (match params with Some p => p | None => ∅ end)) w.
Proof.
  unfold token_check, request_body. rewrite bind_assoc.
  apply bind_ext; intros w1 w2. rewrite bind_assoc.
  apply bind_ext; intros e w3. reflexivity.
Qed.

Lemma send_get_grows (measure : World -> nat) `{!Stable (le_on measure)} url P w :
  (forall e w0, is_output e = true -> measure (emit e w0) = measure w0) ->
  (forall u p tok ua answer w0,
     (measure w0 < measure (exchanged (GET u p tok ua) answer w0))%nat) ->
  (measure w < measure (snd (send_get url P w)))%nat.
Proof.
  intros He Hx. unfold send_get.
  rewrite (bind_run get_world _ w w w eq_refl).
  erewrite (bind_run (write _) _ w tt); [| reflexivity].
  rewrite <- (He (LogInfo (GetUrl url P)) w eq_refl).
  apply bind_exchange_grows; [exact _ | | intros; apply Hx].
  intros resp. prog.
Qed.

Lemma checked_same w : trace (checked w) = trace w /\ exchanges (checked w) = exchanges w.
Proof. unfold checked. destruct (token_expires (CONFIG w)); split; reflexivity. Qed.

(** Every attempt, and so every call of the requester, performs at least
    one HTTP exchange. *)
Lemma request_body_exchanges url params w :
  (exchanges w < exchanges (snd (request_body url params w)))%nat.
Proof.
  rewrite request_body_split. unfold bind. rewrite token_check_run.
  destruct (checked_same w) as [_ Hx]. rewrite <- Hx.
  destruct (expired w).
  - pose proof (refresh_token_grows exchanges (checked w)
                  ltac:(reflexivity) ltac:(intros; simpl; lia)) as Hr.
    destruct (refresh_token (checked w)) as [[[] | e | c | ] w1]; simpl in *; try exact Hr.
    pose proof (send_get_grows exchanges url
                  (match params with Some p => p | None => ∅ end) w1
                  ltac:(reflexivity) ltac:(intros; simpl; lia)) as Hs.
    lia.
  - apply (send_get_grows exchanges); [reflexivity | intros; simpl; lia].
Qed.

Lemma request_exchanges url params w :
  (exchanges w < exchanges (snd (request url params w)))%nat.
Proof.
  unfold request, on_exception. cbn [on_exception_loop].
  pose proof (request_body_exchanges url params w) as Hb.
  destruct (request_body url params w) as [[a | [ | | | | resp] | c | ] w1];
    simpl in Hb |- *; try exact Hb.
  match goal with |- context [if ?b then _ else _] => destruct b end; [exact Hb |].
  pose proof (preserves_on_exception_loop (le_on exchanges) 5 giveup 2
                (request_body url params) (preserves_request_body _ url params)
                4 1 (emit (Sleep (expo 2 0)) w1)) as Hl.
  unfold le_on in Hl. simpl in Hl. simpl. lia.
Qed.

(** ** C6: the offset keys and targets must pair up *)

(** C6. For every call to the pagination generator, if the number of
    offset-key names does not equal the number of offset-target names (a
    single name counting as a list of one), a configuration error is raised
    before any HTTP request is issued: the run is the [ValueError] in an
    unchanged world. When the counts are equal, the run is that of the
    paging loop, which starts with the request of the first page, and at
    least one HTTP exchange takes place in that request. *)
Theorem offset_mismatch_is_rejected :
  forall (S : Type) (body : S -> json -> M S) fuel url params path more_key ks ts s w,
    if (length (as_list ks) =? length (as_list ts))%nat
    then
      gen_request (Datatypes.S fuel) url params path more_key ks ts body s w =
        gen_pages (Datatypes.S fuel) url path more_key
          (zip (as_list ks) (as_list ts)) body params s w /\
      (exists k, gen_request (Datatypes.S fuel) url params path more_key ks ts body s w =
                   bind (request url (Some params)) k w) /\
      (exchanges w < exchanges (snd (request url (Some params) w)))%nat
    else
      gen_request (Datatypes.S fuel) url params path more_key ks ts body s w =
        (Raise (ValueError mismatch_message), w).
Proof.
  intros S body fuel url params path more_key ks ts s w.
  unfold gen_request.
  destruct (length (as_list ks) =? length (as_list ts))%nat; cbn [negb].
  - split; [reflexivity |]. split; [| apply request_exchanges].
    eexists. cbn [gen_pages]. reflexivity.
  - reflexivity.
Qed.

(** ** C7: when the token is refreshed *)

Lemma send_get_posts url P w : posts (snd (send_get url P w)) = posts w.
Proof.
  unfold send_get, bind, get_world, write, exchange. simpl.
  destruct (server (env w) (exchanges w) _) as [r | s b]; simpl; [reflexivity |].
  destruct (400 <=? s); reflexivity.
Qed.

Lemma existsb_filter_length {A} (f : A -> bool) l :
  existsb f l = true <-> (0 < length (List.filter f l))%nat.
Proof.
  induction l as [| x l IH]; simpl.
  - split; [discriminate | lia].
  - destruct (f x); simpl; [split; [lia | reflexivity] | exact IH].
Qed.

Lemma posts_new_events w w' :
  extends w w' ->
  (existsb is_post (new_events w w') = true <-> (posts w < posts w')%nat).
Proof.
  intros [evs H]. rewrite (new_events_app w w' evs H), existsb_filter_length.
  unfold posts. rewrite H, List.filter_app, length_app. lia.
Qed.

Lemma expired_spec w :
  expired w = true <->
  (token_expires (CONFIG w) = None \/
   exists e, token_expires (CONFIG w) = Some e /\ e < clock (env w) (ticks w)).
Proof.
  unfold expired. destruct (token_expires (CONFIG w)) as [e |].
  - rewrite Z.ltb_lt. split.
    + intros H. right. exists e. split; [reflexivity | exact H].
    + intros [H | (e' & H & Hlt)]; [discriminate | congruence].
  - split; [intros _; left; reflexivity | reflexivity].
Qed.

(** An attempt refreshes the token exactly when the test of [request] on
    the credential holds. *)
Lemma request_body_refreshes url params w :
  (posts w < posts (snd (request_body url params w)))%nat <-> expired w = true.
Proof.
  rewrite request_body_split. unfold bind. rewrite token_check_run.
  assert (Hc : posts (checked w) = posts w).
  { unfold posts. destruct (checked_same w) as [-> _]. reflexivity. }
  destruct (expired w).
  - split; [reflexivity | intros _].
    pose proof (refresh_token_grows posts (checked w)
                  ltac:(intros e w0 He; rewrite posts_emit;
                        destruct e; try discriminate; reflexivity)
                  ltac:(intros; unfold posts; simpl; lia)) as Hr.
    destruct (refresh_token (checked w)) as [[[] | e | c | ] w1]; simpl in *; try lia.
    rewrite send_get_posts. lia.
  - rewrite send_get_posts. split; [lia | discriminate].
Qed.

(** What a refresh that succeeds has done. *)
Lemma refresh_token_success w w1 :
  refresh_token w = (Ret tt, w1) ->
  exists payload status fields access refresh seconds,
    server (env w) (exchanges w) (POST (BASE_URL ++ "/oauth/v1/token") payload)
      = Response status (Some (JObj fields)) /\
    (status < 400 \/ 600 <= status) /\
    obj_get "access_token" fields = Some access /\
    obj_get "refresh_token" fields = Some refresh /\
    obj_get "expires_in" fields = Some (JNum seconds) /\
    access_token (CONFIG w1) = access /\
    refresh_token_value (CONFIG w1) = refresh /\
    token_expires (CONFIG w1) =
      Some (clock (env w) (ticks w) + (seconds - 600) * 1000).
Proof.
  unfold refresh_token. intros H.
  rewrite (bind_run get_world _ w w w eq_refl) in H.
  erewrite (bind_run (write _) _ w tt) in H; [| reflexivity].
  apply bind_Ret_inv in H as ([status body] & w2 & Hx & H).
  unfold exchange in Hx. simpl in Hx.
  match type of Hx with context [server ?e ?n ?req] =>
    destruct (server e n req) as [r | s b] eqn:Hsrv end; [discriminate |].
  injection Hx as -> -> <-. simpl in H.
  apply bind_Ret_inv in H as ([] & w3 & Hraise & H).
  assert (Hstatus : (status < 400 \/ 600 <= status) /\ w3 = exchanged
            (POST (BASE_URL ++ "/oauth/v1/token")
               [("grant_type", JStr "refresh_token");
                ("redirect_uri", redirect_uri (CONFIG w));
                ("refresh_token", refresh_token_value (CONFIG w));
                ("client_id", client_id (CONFIG w));
                ("client_secret", client_secret (CONFIG w))])
            (Response status body) (emit (LogInfo RefreshingToken) w)).
  { destruct (Z.leb_spec 400 status), (Z.ltb_spec status 600); simpl in Hraise;
      try discriminate; injection Hraise as <-; (split; [lia | reflexivity]). }
  destruct Hstatus as [Hstatus ->].
  apply bind_Ret_inv in H as (auth & w4 & Hj & H).
  destruct body as [auth' |]; [| discriminate]. injection Hj as -> <-.
  apply bind_Ret_inv in H as (access & w5 & Ha & H).
  destruct auth as [ | | | | | | fields]; try discriminate.
  unfold subscript, of_option in Ha.
  destruct (obj_get "access_token" fields) as [v |] eqn:Eat; [| discriminate].
  injection Ha as -> <-.
  apply bind_Ret_inv in H as (refresh & w6 & Hr & H).
  unfold subscript, of_option in Hr.
  destruct (obj_get "refresh_token" fields) as [v |] eqn:Ert; [| discriminate].
  injection Hr as -> <-.
  apply bind_Ret_inv in H as (expires_in & w7 & He & H).
  unfold subscript, of_option in He.
  destruct (obj_get "expires_in" fields) as [v |] eqn:Eex; [| discriminate].
  injection He as -> <-.
  apply bind_Ret_inv in H as (now & w8 & Hn & H).
  injection Hn as <- <-.
  apply bind_Ret_inv in H as (seconds & w9 & Hs & H).
  destruct expires_in as [ | | n | | | | ]; try discriminate.
  injection Hs as <- <-.
  apply bind_Ret_inv in H as ([] & w10 & Hc & H).
  injection Hc as <-. injection H as <-.
  eexists _, status, fields, access, refresh, n.
  split; [exact Hsrv |]. repeat split; try assumption.
Qed.

(** C7, the counterexample: the held expiry is the current instant, the
    specification asks for a refresh, and the attempt performs none. *)
Lemma refresh_at_expiry_counterexample :
  ~ refresh_at_or_before sample_url None expiring_now.
Proof.
  intros [_ H].
  assert (Hpost : existsb is_post
            (new_events expiring_now (snd (request_body sample_url None expiring_now)))
          = true).
  { apply H. right. exists 1000. split; [reflexivity | vm_compute; discriminate]. }
  vm_compute in Hpost. discriminate.
Qed.

(** C7, as amended. Before every outbound GET (in every attempt of the
    requester), a token refresh exchange is performed if and only if no
    credential is held or the held expiry is strictly before the current
    instant; with an expiry at the current instant or after it there is no
    refresh. A refresh that succeeds has replaced the access token and the
    refresh token by those of the answer, and the expiry by the instant of
    the refresh plus the granted lifetime less 600 seconds. *)
Theorem refresh_when_expiry_is_past :
  forall url params w,
    (existsb is_post (new_events w (snd (request_body url params w))) = true <->
     (token_expires (CONFIG w) = None \/
      exists e, token_expires (CONFIG w) = Some e /\ e < clock (env w) (ticks w))) /\
    (forall w1,
       refresh_token w = (Ret tt, w1) ->
       exists payload status fields access refresh seconds,
         server (env w) (exchanges w) (POST (BASE_URL ++ "/oauth/v1/token") payload)
           = Response status (Some (JObj fields)) /\
         (status < 400 \/ 600 <= status) /\
         obj_get "access_token" fields = Some access /\
         obj_get "refresh_token" fields = Some refresh /\
         obj_get "expires_in" fields = Some (JNum seconds) /\
         access_token (CONFIG w1) = access /\
         refresh_token_value (CONFIG w1) = refresh /\
         token_expires (CONFIG w1) =
           Some (clock (env w) (ticks w) + (seconds - 600) * 1000)).
Proof.
  intros url params w. split.
  - rewrite posts_new_events, request_body_refreshes; [apply expired_spec |].
    apply (preserves_request_body extends).
  - intros w1. apply refresh_token_success.
Qed.

Lemma refresh_when_expiry_is_past_witness :
  exists seconds,
    token_expires (CONFIG (snd (refresh_token first_contact))) =
      Some (1000 + (seconds - 600) * 1000).
Proof.
  destruct (proj2 (refresh_when_expiry_is_past sample_url None first_contact)
              (snd (refresh_token first_contact)))
    as (payload & status & fields & access & refresh & seconds & _ & _ & _ & _ & _ & _ & _ & H).
  - vm_compute. reflexivity.
  - exists seconds. exact H.
Defined.

(** ** C4 and C9: the windows of the chunked driver *)

Lemma chunk_size_cases entity size :
  CHUNK_SIZES entity = Some size ->
  (entity = "email_events" /\ size = 3600000) \/
  (entity = "subscription_changes" /\ size = 86400000).
Proof.
  unfold CHUNK_SIZES.
  destruct (String.eqb_spec entity "email_events") as [-> | _].
  - intros H. injection H as <-. left. split; reflexivity.
  - destruct (String.eqb_spec entity "subscription_changes") as [-> | _].
    + intros H. injection H as <-. right. split; reflexivity.
    + discriminate.
Qed.

Lemma chunk_size_positive entity size : CHUNK_SIZES entity = Some size -> 0 < size.
Proof. intros H. destruct (chunk_size_cases _ _ H) as [[_ ->] | [_ ->]]; lia. Qed.

Lemma window_count_step size s N :
  0 < size -> s < N -> window_count size s N = 1 + window_count size (s + size) N.
Proof.
  intros Hc Hs. unfold window_count.
  destruct (Z.ltb_spec s N) as [_ | ?]; [| lia].
  destruct (Z.ltb_spec (s + size) N) as [Hlt | Hge].
  - replace (N - s + size - 1) with ((N - (s + size) + size - 1) + 1 * size) by lia.
    rewrite Z.div_add by lia. lia.
  - assert ((N - s + size - 1) / size = 1); [| lia].
    symmetry. apply Z.div_unique with (r := N - s - 1); lia.
Qed.

Lemma window_count_done size s N : N <= s -> window_count size s N = 0.
Proof. intros H. unfold window_count. destruct (Z.ltb_spec s N); [lia | reflexivity]. Qed.

Lemma window_count_nonneg size s N : 0 < size -> 0 <= window_count size s N.
Proof.
  intros Hc. unfold window_count. destruct (Z.ltb_spec s N); [| lia].
  apply Z.div_pos; lia.
Qed.



(** The loop does not depend on fuel that it does not use. *)
Lemma windows_some size N fuel s ws :
  0 < size -> windows fuel size N s = Some ws ->
  length ws = Z.to_nat (window_count size s N) /\
  tiles ws s (s + window_count size s N * size).
Proof.
  intros Hc. revert s ws. induction fuel as [| fuel IH]; intros s ws; simpl.
  - destruct (Z.ltb_spec s N) as [Hs | Hs]; [discriminate |].
    intros H. injection H as <-. rewrite (window_count_done size s N Hs).
    simpl. split; [reflexivity | lia].
  - destruct (Z.ltb_spec s N) as [Hs | Hs].
    + destruct (windows fuel size N (s + size)) as [ws' |] eqn:E; [| discriminate].
      simpl. intros H. injection H as <-. destruct (IH _ _ E) as [Hl Ht].
      pose proof (window_count_step size s N Hc Hs) as Hstep.
      pose proof (window_count_nonneg size (s + size) N Hc) as Hnn.
      simpl. split; [rewrite Hl; lia |].
      split; [reflexivity |]. split; [lia |].
      replace (s + window_count size s N * size)
        with (s + size + window_count size (s + size) N * size) by lia.
      exact Ht.
    + intros H. injection H as <-. rewrite (window_count_done size s N Hs).
      simpl. split; [reflexivity | lia].
Qed.


(** The loop of the driver, run to its end: it has gone through the
    windows, has written one state message at the end of each, carrying the
    end of the window as the watermark, and leaves the end of the last
    window in the store. *)
Lemma chunk_loop_run pages e path schema url N size :
  CHUNK_SIZES e = Some size ->
  forall fuel s w w',
    STATE w !! e = Some s ->
    chunk_loop fuel pages e path schema url N s w = (Ret tt, w') ->
    exists ws evs,
      windows fuel size N s = Some ws /\
      trace w' = (evs ++ trace w)%list /\
      map (fun st : gmap string Z => st !! e) (states evs)
        = map (fun ab : Z * Z => Some (snd ab)) ws /\
      STATE w' !! e = Some (s + window_count size s N * size).
Proof.
  intros Hsize. pose proof (chunk_size_positive _ _ Hsize) as Hpos.
  induction fuel as [| fuel IH]; intros s w w' Hst H; cbn [chunk_loop windows] in *.
  - destruct (Z.ltb_spec s N) as [Hs | Hs]; [discriminate |].
    injection H as <-. exists [], []. rewrite (window_count_done size s N Hs).
    repeat split. rewrite Hst. f_equal. lia.
  - destruct (Z.ltb_spec s N) as [Hs | Hs].
    + rewrite Hsize in H. erewrite (bind_run (of_option _ _)) in H; [| reflexivity].
      apply bind_Ret_inv in H as ([] & w1 & Hgen & H).
      assert (Hq : quiet w w1).
      { eapply preserves_run; [| exact Hgen]. apply preserves_gen_request; try exact _.
        intros. prog. }
      assert (Hsame : same_STATE w w1).
      { eapply preserves_run; [| exact Hgen]. apply preserves_gen_request; try exact _.
        intros. prog. }
      destruct Hq as (e1 & Ht1 & Hq1). unfold same_STATE in Hsame.
      apply bind_Ret_inv in H as ([] & w2 & Hup & H).
      rewrite update_state_time in Hup. injection Hup as <-.
      rewrite Hsame, Hst in H. rewrite Z.max_r in H by lia.
      apply bind_Ret_inv in H as ([] & w3 & Hws & H).
      injection Hws as <-.
      apply IH in H as (ws & evs & Hw & Ht & Hm & Hfin).
      2:{ simpl. apply lookup_insert_eq. }
      exists ((s, s + size) :: ws),
             (evs ++ WriteState (<[e := s + size]> (STATE w)) :: e1)%list.
      rewrite Hw. split; [reflexivity |]. split.
      * rewrite Ht. simpl. rewrite Ht1, <- app_assoc. reflexivity.
      * split.
        -- rewrite states_app, states_cons_state, Hq1. simpl.
           rewrite lookup_insert_eq. f_equal. exact Hm.
        -- rewrite Hfin. f_equal.
           rewrite (window_count_step size s N Hpos Hs). lia.
    + injection H as <-. exists [], []. rewrite (window_count_done size s N Hs).
      repeat split. rewrite Hst. f_equal. lia.
Qed.

(** The steps of [sync_entity_chunked] before its loop. *)
Lemma sync_entity_chunked_run fuel e keys path size w :
  CHUNK_SIZES e = Some size ->
  exists url w0,
    sync_entity_chunked fuel e keys path w =
      chunk_loop fuel fuel e path (load_json (env w) e) url
        (clock (env w) (ticks w)) (watermark_of e w) w0 /\
    STATE w0 !! e = Some (watermark_of e w) /\
    trace w0 = WriteSchema e (load_json (env w) e) keys :: trace w /\
    (CONFIG w0 = CONFIG w /\ env w0 = env w).
Proof.
  intros Hsize. unfold sync_entity_chunked, watermark_of.
  destruct (chunk_size_cases _ _ Hsize) as [[-> _] | [-> _]];
    (erewrite (bind_run (load_schema _)); [| reflexivity]);
    (erewrite (bind_run (write_schema _ _ _)); [| reflexivity]);
    unfold bind at 1;
    match goal with |- context [get_start ?k ?w0] =>
      destruct (get_start_cases k w0) as [[Hn ->] | (t & Ht & ->)]
    end; simpl in *.
  all: try rewrite Hn; try rewrite Ht.
  all: eexists _, _; split; [reflexivity |]; split; [| split; [| split]; reflexivity]; simpl.
  all: first [apply lookup_insert_eq | exact Ht].
Qed.

(** *** Enough fuel lets the driver complete *)











(** ** C3: the cadence of the state messages *)

Lemma yields_quiet_bind {A B} Q (m : M A) (f : A -> M B) :
  preserves quiet m -> (forall x, yields Q (f x)) -> yields Q (bind m f).
Proof.
  intros Hm Hf w b w' H. apply bind_Ret_inv in H as (x & w1 & Hx & H).
  destruct (preserves_run quiet m w _ w1 Hm Hx) as (e1 & H1 & Q1).
  destruct (Hf x w1 b w' H) as (e2 & H2 & HQ). exists (e2 ++ e1)%list. split.
  - rewrite H2, H1. apply app_assoc.
  - rewrite states_app, Q1. exact HQ.
Qed.

Lemma yields_bind {A B} Q1 (Q2 : A -> _) Q (m : M A) (f : A -> M B) :
  yields Q1 m -> (forall x, yields (Q2 x) (f x)) ->
  (forall sts1 x w1 sts2 b w2,
     Q1 sts1 x w1 -> Q2 x sts2 b w2 -> Q (sts1 ++ sts2)%list b w2) ->
  yields Q (bind m f).
Proof.
  intros Hm Hf HQ w b w' H. apply bind_Ret_inv in H as (x & w1 & Hx & H).
  destruct (Hm w x w1 Hx) as (e1 & H1 & K1).
  destruct (Hf x w1 b w' H) as (e2 & H2 & K2). exists (e2 ++ e1)%list. split.
  - rewrite H2, H1. apply app_assoc.
  - rewrite states_app. eapply HQ; eassumption.
Qed.

Lemma yields_quiet {A} (m : M A) :
  preserves quiet m -> yields (fun sts _ _ => sts = []) m.
Proof.
  intros Hm w a w' H. destruct (preserves_run quiet m w _ w' Hm H) as (e1 & H1 & Q1).
  exists e1. split; assumption.
Qed.

Lemma yields_write_state : yields (fun sts _ w' => sts = [STATE w']) write_state.
Proof.
  intros w a w' H. injection H; intros; subst. exists [WriteState (STATE w)].
  split; reflexivity.
Qed.

Lemma ends_bind {A B} (m : M A) (f : A -> M B) :
  (forall x, ends_with_state (f x)) -> ends_with_state (bind m f).
Proof.
  intros Hf w b w' H. apply bind_Ret_inv in H as (x & w1 & _ & H).
  exact (Hf x w1 b w' H).
Qed.

Lemma ends_write_state : ends_with_state write_state.
Proof. intros w a w' H. injection H; intros; subst. exists (trace w). reflexivity. Qed.

Lemma yields_new_events {A} Q (m : M A) w a w' :
  yields Q m -> m w = (Ret a, w') -> Q (states (new_events w w')) a w'.
Proof.
  intros Hm H. destruct (Hm w a w' H) as (evs & Ht & HQ).
  rewrite (new_events_app w w' evs Ht). exact HQ.
Qed.

Lemma ends_new_events {A} (m : M A) w a w' :
  preserves extends m -> ends_with_state m -> m w = (Ret a, w') ->
  states (new_events w w') <> [] ->
  exists older, new_events w w' = WriteState (STATE w') :: older.
Proof.
  intros Hx Hm H Hne. destruct (preserves_run extends m w _ w' Hx H) as [evs Ht].
  destruct (Hm w a w' H) as [older Ho]. rewrite (new_events_app w w' evs Ht) in *.
  destruct evs as [| e rest]; [contradiction Hne; reflexivity |].
  rewrite Ho in Ht. injection Ht as <- _. exists rest. reflexivity.
Qed.

(** *** One state message, the last event: contacts and the single pages *)

Lemma sync_contacts_yields fuel :
  yields (fun sts _ w' => sts = [STATE w']) (sync_contacts fuel) /\
  ends_with_state (sync_contacts fuel).
Proof.
  unfold sync_contacts. split.
  - repeat (apply yields_quiet_bind;
            [solve [whole; try apply preserves_sync_contacts_row; exact _] | intros]).
    apply yields_write_state.
  - repeat (apply ends_bind; intros). apply ends_write_state.
Qed.

Lemma sync_single_page_yields stream keys rows_key field :
  yields (fun sts _ w' => sts = [STATE w']) (sync_single_page stream keys rows_key field) /\
  ends_with_state (sync_single_page stream keys rows_key field).
Proof.
  unfold sync_single_page. split.
  - repeat (apply yields_quiet_bind; [solve [whole] | intros]).
    apply yields_write_state.
  - repeat (apply ends_bind; intros). apply ends_write_state.
Qed.

(** *** Companies and deals: one state message at each 250th index *)

Lemma checkpoints_due_step i :
  checkpoints_due (S i) =
    (checkpoints_due i + (if (Z.of_nat i mod 250 =? 0)%Z then 1 else 0))%nat.
Proof.
  unfold checkpoints_due.
  assert (Hz : Z.of_nat (i mod 250) = Z.of_nat i mod 250)
    by (rewrite Nat2Z.inj_mod; reflexivity).
  destruct (Z.eqb_spec (Z.of_nat i mod 250) 0) as [E | E].
  - assert (Hi : (i mod 250 = 0)%nat) by lia.
    pose proof (Nat.div_mod_eq i 250) as Hd. rewrite Hi in Hd.
    replace (S i + 249)%nat with (i + 1 * 250)%nat by lia.
    rewrite Nat.div_add by lia.
    assert ((i + 249) / 250 = i / 250)%nat; [| lia].
    replace (i + 249)%nat with (249 + (i / 250) * 250)%nat by lia.
    rewrite Nat.div_add by lia. reflexivity.
  - assert (Hi : (i mod 250 <> 0)%nat) by lia.
    pose proof (Nat.div_mod_eq i 250) as Hd.
    pose proof (Nat.mod_upper_bound i 250 ltac:(lia)) as Hu.
    assert (H1 : ((S i + 249) / 250 = i / 250 + 1)%nat).
    { replace (S i + 249)%nat with ((i mod 250) + (i / 250 + 1) * 250)%nat by lia.
      rewrite Nat.div_add by lia. rewrite Nat.div_small by lia. lia. }
    assert (H2 : ((i + 249) / 250 = i / 250 + 1)%nat).
    { replace (i + 249)%nat with ((i mod 250 - 1) + (i / 250 + 1) * 250)%nat by lia.
      rewrite Nat.div_add by lia. rewrite Nat.div_small by lia. lia. }
    lia.
Qed.

Lemma sync_detail_row_yields stream ep arg key last_sync schema i row :
  yields (fun sts j w' =>
            j = S i /\
            sts = if Z.of_nat i mod 250 =? 0 then [STATE w'] else [])
    (sync_detail_row stream ep arg key last_sync schema i row).
Proof.
  unfold sync_detail_row.
  repeat (apply yields_quiet_bind; [solve [whole] | intros]).
  destruct (Z.of_nat i mod 250 =? 0).
  - intros w j w' H. injection H; intros; subst.
    exists [WriteState (STATE w)]. repeat split.
  - intros w j w' H. injection H; intros; subst. exists []. repeat split.
Qed.

Lemma yields_weaken {A} (Q Q' : list (gmap string Z) -> A -> World -> Prop) (m : M A) :
  (forall sts a w', Q sts a w' -> Q' sts a w') -> yields Q m -> yields Q' m.
Proof.
  intros HQ Hm w a w' H. destruct (Hm w a w' H) as (evs & Ht & K).
  exists evs. split; [exact Ht | apply HQ, K].
Qed.

Lemma yields_ret {A} (Q : list (gmap string Z) -> A -> World -> Prop) (a : A) :
  (forall w, Q [] a w) -> yields Q (ret a).
Proof.
  intros HQ w b w' H. injection H as Ha Hw. subst b w'. exists [].
  split; [reflexivity | apply HQ].
Qed.

Lemma yields_never {A} (Q : list (gmap string Z) -> A -> World -> Prop) (m : M A) :
  (forall w a w', m w <> (Ret a, w')) -> yields Q m.
Proof. intros Hm w a w' H. destruct (Hm w a w' H). Qed.

Section Counting.
Context (body : nat -> json -> M nat).
Hypothesis body_counts : forall i row,
  yields (fun sts n _ => (length sts + checkpoints_due i = checkpoints_due n)%nat)
    (body i row).

Lemma for_each_counts rows : forall i,
  yields (fun sts n _ => (length sts + checkpoints_due i = checkpoints_due n)%nat)
    (for_each body rows i).
Proof.
  induction rows as [| row rest IH]; intros i; simpl.
  - apply yields_ret. intros w. reflexivity.
  - eapply yields_bind; [apply body_counts | intros j; apply IH |].
    cbv beta. intros sts1 j w1 sts2 n w2 H1 H2. rewrite length_app. lia.
Qed.

Lemma gen_pages_counts url path more_key pairs : forall fuel params i,
  yields (fun sts n _ => (length sts + checkpoints_due i = checkpoints_due n)%nat)
    (gen_pages fuel url path more_key pairs body params i).
Proof.
  induction fuel as [| fuel IH]; intros params i; cbn [gen_pages].
  - apply yields_never. discriminate.
  - apply yields_quiet_bind; [solve [whole] | intros resp].
    apply yields_quiet_bind; [solve [whole] | intros data].
    destruct (path_given path) as [p |].
    + apply yields_quiet_bind; [solve [whole] | intros listed].
      apply yields_quiet_bind; [solve [whole] | intros rows].
      eapply (yields_bind _
                (fun j sts n _ =>
                   (length sts + checkpoints_due j = checkpoints_due n)%nat));
        [apply for_each_counts | intros j |].
      * apply yields_quiet_bind; [solve [whole] | intros more].
        destruct (negb (truthy more)).
        -- apply yields_ret. intros w. reflexivity.
        -- apply yields_quiet_bind; [solve [whole] | intros params'].
           apply IH.
      * cbv beta. intros sts1 j w1 sts2 n w2 H1 H2. rewrite length_app. lia.
    + apply yields_quiet_bind; [solve [whole] | intros rows].
      apply for_each_counts.
Qed.

Lemma gen_request_counts fuel url params path more_key ks ts i :
  yields (fun sts n _ => (length sts + checkpoints_due i = checkpoints_due n)%nat)
    (gen_request fuel url params path more_key ks ts body i).
Proof.
  unfold gen_request. destruct (negb _).
  - apply yields_never. discriminate.
  - apply gen_pages_counts.
Qed.

End Counting.

Lemma sync_detail_row_counts stream ep arg key last_sync schema i row :
  yields (fun sts n _ => (length sts + checkpoints_due i = checkpoints_due n)%nat)
    (sync_detail_row stream ep arg key last_sync schema i row).
Proof.
  eapply yields_weaken; [| apply sync_detail_row_yields].
  cbv beta. intros sts n w' [-> ->]. rewrite checkpoints_due_step.
  destruct (Z.of_nat i mod 250 =? 0); simpl; lia.
Qed.

Lemma sync_companies_rows_yields fuel :
  yields (fun sts n _ => length sts = checkpoints_due n) (sync_companies_rows fuel).
Proof.
  unfold sync_companies_rows.
  repeat (apply yields_quiet_bind; [solve [whole] | intros]).
  eapply yields_weaken; [| apply gen_request_counts; intros; apply sync_detail_row_counts].
  cbv beta. intros sts n _ H. change (checkpoints_due 0) with 0%nat in H. lia.
Qed.

Lemma sync_deals_rows_yields fuel :
  yields (fun sts n _ => length sts = checkpoints_due n) (sync_deals_rows fuel).
Proof.
  unfold sync_deals_rows.
  repeat (apply yields_quiet_bind; [solve [whole] | intros]).
  eapply yields_weaken; [| apply gen_request_counts; intros; apply sync_detail_row_counts].
  cbv beta. intros sts n _ H. change (checkpoints_due 0) with 0%nat in H. lia.
Qed.

(** *** The chunked streams: one state message for each window *)

Lemma sync_entity_chunked_states fuel entity keys path size w w' :
  CHUNK_SIZES entity = Some size ->
  sync_entity_chunked fuel entity keys path w = (Ret tt, w') ->
  length (states (new_events w w')) =
    Z.to_nat (window_count size (watermark_of entity w) (clock (env w) (ticks w))).
Proof.
  intros Hsize Hrun. pose proof (chunk_size_positive _ _ Hsize) as Hpos.
  destruct (sync_entity_chunked_run fuel entity keys path size w Hsize)
    as (url & w0 & Heq & Hst & Htr & _).
  rewrite Heq in Hrun.
  destruct (chunk_loop_run _ _ _ _ _ _ _ Hsize _ _ _ _ Hst Hrun)
    as (ws & evs & Hw & Ht & Hm & _).
  destruct (windows_some _ _ _ _ _ Hpos Hw) as [Hl _].
  rewrite (new_events_app w w' (evs ++ [WriteSchema entity (load_json (env w) entity) keys])).
  - rewrite states_app. simpl. rewrite <- Hl.
    rewrite <- (length_map (fun st : gmap string Z => st !! entity)), Hm, length_map.
    reflexivity.
  - rewrite Ht, Htr, <- app_assoc. reflexivity.
Qed.

Lemma quiet_new_events {A} (m : M A) w :
  preserves quiet m -> states (new_events w (snd (m w))) = [].
Proof.
  intros Hm. destruct (Hm w) as (evs & Ht & Hq).
  rewrite (new_events_app _ _ evs Ht). exact Hq.
Qed.

(** C3, the counterexample: on an API without data the syncs of the
    campaigns and of the contact lists complete and have written no state
    message; the contacts sync of 250 candidates completes with two detail
    batches and one state message. *)
Lemma cadence_counterexample_three_streams :
  ~ one_state_at_completion (sync_campaigns 5) quiet_api /\
  ~ one_state_at_completion (sync_contact_lists 5) quiet_api /\
  ~ one_state_per_batch (sync_contacts 10) contacts_250.
Proof.
  split; [| split].
  - intros H. specialize (H tt _ (surjective_run _ _)). vm_compute in H. discriminate.
  - intros H. specialize (H tt _ (surjective_run _ _)). vm_compute in H. discriminate.
  - intros H. specialize (H tt _ (surjective_run _ _)). vm_compute in H. discriminate.
Qed.

(** C3, as amended. The contacts sync that completes has written exactly one
    state message, as its last event, whatever the number of detail batches.
    The companies and deals syncs write a state message after each listed
    record whose index, from 0, is a multiple of 250 (the 1st, the 251st,
    ...), so [(n + 249) / 250] of them for [n] listed records. A chunked
    stream that completes has written one state message for each window.
    Each of forms, workflows, keywords and owners that completes has written
    exactly one state message, as its last event. The syncs of the contact
    lists and of the campaigns write no state message. *)
Theorem checkpoint_cadence :
  (forall fuel w w',
     sync_contacts fuel w = (Ret tt, w') ->
     states (new_events w w') = [STATE w'] /\
     exists older, new_events w w' = WriteState (STATE w') :: older) /\
  (forall stream ep arg key last_sync schema i row w j w',
     sync_detail_row stream ep arg key last_sync schema i row w = (Ret j, w') ->
     j = S i /\
     states (new_events w w') = if Z.of_nat i mod 250 =? 0 then [STATE w'] else []) /\
  (forall fuel w n w',
     sync_companies_rows fuel w = (Ret n, w') ->
     length (states (new_events w w')) = checkpoints_due n) /\
  (forall fuel w n w',
     sync_deals_rows fuel w = (Ret n, w') ->
     length (states (new_events w w')) = checkpoints_due n) /\
  (forall fuel entity keys path size w w',
     CHUNK_SIZES entity = Some size ->
     sync_entity_chunked fuel entity keys path w = (Ret tt, w') ->
     length (states (new_events w w')) =
       Z.to_nat (window_count size (watermark_of entity w) (clock (env w) (ticks w)))) /\
  Forall (fun m : M unit =>
            forall w w', m w = (Ret tt, w') ->
              states (new_events w w') = [STATE w'] /\
              exists older, new_events w w' = WriteState (STATE w') :: older)
    [sync_forms; sync_workflows; sync_keywords; sync_owners] /\
  (forall fuel w,
     states (new_events w (snd (sync_contact_lists fuel w))) = [] /\
     states (new_events w (snd (sync_campaigns fuel w))) = []).
Proof.
  assert (Hpage : forall stream keys rows_key field w w',
            sync_single_page stream keys rows_key field w = (Ret tt, w') ->
            states (new_events w w') = [STATE w'] /\
            exists older, new_events w w' = WriteState (STATE w') :: older).
  { intros stream keys rows_key field w w' H.
    destruct (sync_single_page_yields stream keys rows_key field) as [Hy He].
    pose proof (yields_new_events _ _ _ _ _ Hy H) as Hs. cbv beta in Hs.
    split; [exact Hs |].
    eapply ends_new_events; [| exact He | exact H | rewrite Hs; discriminate].
    apply preserves_sync_single_page; exact _. }
  split; [| split; [| split; [| split; [| split; [| split]]]]].
  - intros fuel w w' H. destruct (sync_contacts_yields fuel) as [Hy He].
    pose proof (yields_new_events _ _ _ _ _ Hy H) as Hs. cbv beta in Hs.
    split; [exact Hs |].
    eapply ends_new_events; [| exact He | exact H | rewrite Hs; discriminate].
    apply preserves_sync_contacts; exact _.
  - intros stream ep arg key last_sync schema i row w j w' H.
    exact (yields_new_events _ _ _ _ _
             (sync_detail_row_yields stream ep arg key last_sync schema i row) H).
  - intros fuel w n w' H.
    exact (yields_new_events _ _ _ _ _ (sync_companies_rows_yields fuel) H).
  - intros fuel w n w' H.
    exact (yields_new_events _ _ _ _ _ (sync_deals_rows_yields fuel) H).
  - intros fuel entity keys path size w w' Hsize H.
    eapply sync_entity_chunked_states; eassumption.
  - repeat (apply List.Forall_cons; [intros w w'; apply Hpage |]). apply List.Forall_nil.
  - intros fuel w. split; apply quiet_new_events.
    + apply preserves_sync_contact_lists; exact _.
    + apply preserves_sync_campaigns; exact _.
Qed.

Lemma checkpoint_cadence_witness :
  states (new_events quiet_api (snd (sync_contacts 5 quiet_api)))
    = [STATE (snd (sync_contacts 5 quiet_api))].
Proof.
  apply (proj1 checkpoint_cadence 5%nat quiet_api). vm_compute. reflexivity.
Defined.

(** * Further properties of the program *)

(** ** What every piece writes and how it can fail *)

Lemma background_routine ok : lets_background ok -> lets_routine ok.
Proof. intros H e He. apply H. destruct e as [| | [] | | | |]; try discriminate; reflexivity. Qed.

Lemma background_gets ok url params : lets_background ok -> gets_ok ok url params.
Proof. intros H bearer ua answer. apply H. reflexivity. Qed.

Lemma background_sleeps ok : lets_background ok -> sleeps_ok ok.
Proof. intros H wait. apply H. reflexivity. Qed.

Section Behaviour.
Context (ok : Event -> bool) (Hrt : lets_routine ok).

Lemma behaves_pure {A} (o : Outcome A) :
  (forall e, o = Raise e -> is_config_error e = false) ->
  (forall c, o = SysExit c -> c = 1) ->
  behaves ok (fun w => (o, w)).
Proof.
  intros He Hc w. split; [exists []; split; reflexivity |]. split; [exact He | exact Hc].
Qed.

Lemma behaves_ret {A} (a : A) : behaves ok (ret a).
Proof. apply behaves_pure; discriminate. Qed.

Lemma behaves_raise {A} e : is_config_error e = false -> behaves ok (@raise A e).
Proof.
  intros He. apply behaves_pure; [| discriminate]. intros e' E. injection E as <-. exact He.
Qed.

Lemma behaves_sys_exit {A} : behaves ok (@sys_exit A 1).
Proof. apply behaves_pure; [discriminate |]. intros c E. injection E as <-. reflexivity. Qed.

Lemma behaves_out_of_fuel {A} : behaves ok (@out_of_fuel A).
Proof. apply behaves_pure; discriminate. Qed.

(** The continuation of a sequence behaves on the values that its first
    part can return. *)
Lemma behaves_bind_post {A B} (Q : A -> Prop) (m : M A) (f : A -> M B) :
  behaves ok m -> (forall w a w', m w = (Ret a, w') -> Q a) ->
  (forall a, Q a -> behaves ok (f a)) -> behaves ok (bind m f).
Proof.
  intros Hm HQ Hf w. destruct (Hm w) as ((e1 & H1 & K1) & Hr & Hx). unfold bind.
  specialize (HQ w).
  destruct (m w) as [[a | e | c | ] w1]; simpl in *.
  - destruct (Hf a (HQ a w1 eq_refl) w1) as ((e2 & H2 & K2) & Hr2 & Hx2).
    split; [| split; assumption].
    exists (e2 ++ e1)%list. split.
    + rewrite H2, H1. apply app_assoc.
    + rewrite forallb_app, K1, K2. reflexivity.
  - split; [exists e1; split; assumption |]. split; [| discriminate].
    intros e' E. injection E as <-. apply Hr. reflexivity.
  - split; [exists e1; split; assumption |]. split; [discriminate |].
    intros c' E. injection E as <-. apply Hx. reflexivity.
  - split; [exists e1; split; assumption |]. split; discriminate.
Qed.

Lemma behaves_bind {A B} (m : M A) (f : A -> M B) :
  behaves ok m -> (forall a, behaves ok (f a)) -> behaves ok (bind m f).
Proof.
  intros Hm Hf. apply (behaves_bind_post (fun _ => True)); auto.
Qed.

Lemma behaves_step {A} (a : A) (f : World -> World) :
  (forall w, exists evs, trace (f w) = (evs ++ trace w)%list /\ forallb ok evs = true) ->
  behaves ok (fun w => (Ret a, f w)).
Proof. intros Hf w. split; [apply Hf |]. split; discriminate. Qed.

Lemma behaves_get_world : behaves ok get_world.
Proof. intros w. split; [exists []; split; reflexivity |]. split; discriminate. Qed.

Lemma behaves_write e : ok e = true -> behaves ok (write e).
Proof.
  intros He. apply behaves_step. intros w. exists [e]. split; [reflexivity |].
  simpl. rewrite He. reflexivity.
Qed.

Lemma behaves_utcnow : behaves ok utcnow.
Proof. intros w. split; [exists []; split; reflexivity |]. split; discriminate. Qed.

Lemma behaves_of_option {A} e (o : option A) :
  (o = None -> is_config_error e = false) -> behaves ok (of_option e o).
Proof.
  intros H. destruct o; [apply behaves_ret | apply behaves_raise, H; reflexivity].
Qed.

Lemma behaves_apply_transform r s : behaves ok (apply_transform r s).
Proof. intros w. split; [exists []; split; reflexivity |]. split; discriminate. Qed.

Lemma behaves_apply_transform_datetime v : behaves ok (apply_transform_datetime v).
Proof. intros w. split; [exists []; split; reflexivity |]. split; discriminate. Qed.

Lemma behaves_exchange req :
  (forall answer, ok (Http req answer) = true) -> behaves ok (exchange req).
Proof.
  intros Hreq w. unfold exchange.
  destruct (server (env w) (exchanges w) req) as [r | s b] eqn:E; simpl.
  - split; [| split; [| discriminate]].
    + eexists [_]. split; [reflexivity |]. simpl. rewrite Hreq; reflexivity.
    + intros e H. injection H as <-. reflexivity.
  - split; [| split; discriminate].
    eexists [_]. split; [reflexivity |]. simpl. rewrite Hreq; reflexivity.
Qed.

Lemma behaves_post url payload : behaves ok (exchange (POST url payload)).
Proof. apply behaves_exchange. intros answer. apply Hrt. reflexivity. Qed.

Lemma behaves_get url params bearer ua :
  gets_ok ok url params -> behaves ok (exchange (GET url params bearer ua)).
Proof. intros Hg. apply behaves_exchange. intros answer. apply Hg. Qed.

Lemma behaves_set_config (f : World -> Config) :
  behaves ok (fun w => (Ret tt, set_CONFIG (f w) w)).
Proof. apply behaves_step. intros w. exists []. split; reflexivity. Qed.

Lemma behaves_get_start key : behaves ok (get_start key).
Proof.
  intros w. destruct (get_start_cases key w) as [[_ ->] | (t & _ & ->)]; simpl;
    (split; [exists []; split; reflexivity |]; split; discriminate).
Qed.

Lemma behaves_update_state entity dt : behaves ok (update_state entity dt).
Proof.
  destruct dt; try (apply behaves_raise; reflexivity); [apply behaves_ret |].
  intros w. rewrite update_state_time. simpl.
  split; [exists []; split; reflexivity |]. split; discriminate.
Qed.

Lemma behaves_write_state : behaves ok write_state.
Proof.
  apply behaves_step. intros w. eexists [_]. split; [reflexivity |].
  simpl. rewrite Hrt; reflexivity.
Qed.

Lemma behaves_for_each {A S} (body : S -> A -> M S) l :
  (forall s x, behaves ok (body s x)) -> forall s, behaves ok (for_each body l s).
Proof.
  intros Hb. induction l as [| x l IH]; intros s; simpl.
  - apply behaves_ret.
  - apply behaves_bind; [apply Hb | intros; apply IH].
Qed.

Lemma behaves_on_exception_loop {A} max_tries gu factor (target : M A) :
  sleeps_ok ok ->
  behaves ok target ->
  forall remaining tries,
    behaves ok (on_exception_loop max_tries gu factor target remaining tries).
Proof.
  intros Hsl Ht. induction remaining as [| n IH]; intros tries; cbn [on_exception_loop].
  - apply behaves_out_of_fuel.
  - intros w. destruct (Ht w) as ((e1 & H1 & K1) & Hr & Hx).
    destruct (target w) as [[a | [ | | | | r] | c | ] w1] eqn:E; simpl in *;
      try (split; [exists e1; split; assumption |]; split; assumption).
    match goal with |- context [if ?b then _ else _] => destruct b end.
    + split; [exists e1; split; assumption |]. split; assumption.
    + destruct (IH (S tries) (emit (Sleep (expo factor tries)) w1))
        as ((e2 & H2 & K2) & Hr2 & Hx2).
      split; [| split; assumption].
      exists (e2 ++ Sleep (expo factor tries) :: e1)%list. split.
      * rewrite H2. simpl. rewrite H1, <- app_assoc. reflexivity.
      * rewrite forallb_app, K2. simpl. rewrite K1, Hsl; reflexivity.
Qed.

End Behaviour.

Ltac bh_step :=
  lazymatch goal with
  | |- behaves _ (bind _ _) => apply behaves_bind
  | |- behaves _ (ret _) => apply behaves_ret
  | |- behaves _ (raise _) => apply behaves_raise
  | |- behaves _ (sys_exit _) => apply behaves_sys_exit
  | |- behaves _ out_of_fuel => apply behaves_out_of_fuel
  | |- behaves _ get_world => apply behaves_get_world
  | |- behaves _ utcnow => apply behaves_utcnow
  | |- behaves _ (write _) => apply behaves_write
  | |- behaves _ (write_schema _ _ _) => apply behaves_write
  | |- behaves _ (write_record _ _) => apply behaves_write
  | |- behaves _ (of_option _ _) => apply behaves_of_option
  | |- behaves _ (apply_transform _ _) => apply behaves_apply_transform
  | |- behaves _ (apply_transform_datetime _) => apply behaves_apply_transform_datetime
  | |- behaves _ (exchange (POST _ _)) => apply behaves_post
  | |- behaves _ (exchange (GET _ _ _ _)) => apply behaves_get
  | |- behaves _ (fun w => (Ret tt, set_CONFIG _ w)) =>
      apply (behaves_set_config _ (fun w => _))
  | |- behaves _ (for_each _ _ _) => apply behaves_for_each
  | |- behaves _ (get_start _) => apply behaves_get_start
  | |- behaves _ (update_state _ _) => apply behaves_update_state
  | |- behaves _ write_state => apply behaves_write_state
  | |- behaves _ (match ?x with _ => _ end) => destruct x eqn:?
  end.

(** Closes the side conditions: an event that is let through, an error
    that is no error of configuration. *)
Ltac bh_close :=
  lazymatch goal with
  | |- behaves _ _ => fail
  | |- lets_routine _ => first [assumption | apply background_routine; assumption]
  | |- sleeps_ok _ => first [assumption | apply background_sleeps; assumption]
  | |- gets_ok _ _ _ => first [assumption | apply background_gets; assumption]
  | H : lets_background ?ok |- ?ok _ = true =>
      first [apply H; reflexivity | solve [auto] | reflexivity]
  | H : lets_routine ?ok |- ?ok _ = true =>
      first [apply H; reflexivity | solve [auto] | reflexivity]
  | |- _ => first [reflexivity | assumption | discriminate | solve [auto]]
  end.

Ltac bh := repeat (intros; cbv beta zeta; first [bh_step | bh_close]); intros.

Section BehaviourOfProgram.
Context (ok : Event -> bool) (Hrt : lets_routine ok).

Lemma behaves_resp_json resp : behaves ok (resp_json resp).
Proof. unfold resp_json. bh. Qed.

Lemma behaves_subscript x k :
  is_config_error (KeyError k) = false -> behaves ok (subscript x k).
Proof. intros Hk. unfold subscript. bh. Qed.

Lemma behaves_contains k x : behaves ok (contains k x).
Proof. unfold contains. bh. Qed.

Lemma behaves_iterate x : behaves ok (iterate x).
Proof. unfold iterate. bh. Qed.

Lemma behaves_dict_get d k : behaves ok (dict_get d k).
Proof. unfold dict_get. bh. Qed.

Lemma behaves_dict_items d : behaves ok (dict_items d).
Proof. unfold dict_items. bh. Qed.

Lemma behaves_strptime v : behaves ok (strptime v).
Proof. unfold strptime. bh. Qed.

Lemma behaves_at_or_after v t : behaves ok (at_or_after v t).
Proof. unfold at_or_after. bh. Qed.

Lemma behaves_days_since t : behaves ok (days_since t).
Proof. unfold days_since. bh. Qed.

Lemma behaves_get_url endpoint kwargs :
  url_ok endpoint kwargs = true -> behaves ok (get_url endpoint kwargs).
Proof.
  unfold url_ok, get_url. destruct (assoc endpoint endpoints) as [[t [p |]] |];
    [| intros _; bh | discriminate].
  destruct (assoc p kwargs); [intros _; bh | discriminate].
Qed.

Lemma behaves_copy_offsets data pairs :
  forallb (fun kt => negb (is_config_error (KeyError (fst kt)))) pairs = true ->
  forall params, behaves ok (copy_offsets data pairs params).
Proof.
  induction pairs as [| [k t] rest IH]; simpl; intros H params.
  - apply behaves_ret.
  - apply andb_true_iff in H as [Hk Hr]. apply negb_true_iff in Hk.
    apply behaves_bind; [apply behaves_subscript, Hk | intros; apply IH, Hr].
Qed.

Lemma behaves_refresh_token : behaves ok refresh_token.
Proof.
  unfold refresh_token.
  bh; first [apply behaves_resp_json | apply behaves_subscript; reflexivity].
Qed.

Lemma behaves_request_body url params :
  gets_ok ok url (match params with Some p => p | None => ∅ end) ->
  behaves ok (request_body url params).
Proof. intros Hg. unfold request_body. bh. all: apply behaves_refresh_token. Qed.

Lemma behaves_request url params :
  sleeps_ok ok ->
  gets_ok ok url (match params with Some p => p | None => ∅ end) ->
  behaves ok (request url params).
Proof.
  intros Hsl Hg. unfold request, on_exception.
  apply behaves_on_exception_loop; [exact Hsl |].
  apply behaves_request_body, Hg.
Qed.

(** The parameters of the next page: those of the page before, with the
    offset targets set. *)
Lemma copy_offsets_keeps (inv : Params -> Prop) data pairs :
  (forall p t v, inv p -> In t (map snd pairs) -> inv (<[t := v]> p)) ->
  forall params w p' w',
    inv params -> copy_offsets data pairs params w = (Ret p', w') -> inv p'.
Proof.
  induction pairs as [| [k t] rest IH]; simpl; intros Hset params w p' w' Hinv H.
  - injection H as <- _. exact Hinv.
  - apply bind_Ret_inv in H as (v & w1 & _ & H).
    eapply IH; [| | exact H].
    + intros p t' v' Hp Hin. apply Hset; [exact Hp | right; exact Hin].
    + apply Hset; [exact Hinv | left; reflexivity].
Qed.

Lemma behaves_gen_pages {S} (inv : Params -> Prop) (body : S -> json -> M S)
    url path more_key pairs :
  sleeps_ok ok ->
  (forall p, inv p -> gets_ok ok url p) ->
  (forall p t v, inv p -> In t (map snd pairs) -> inv (<[t := v]> p)) ->
  (forall p, path_given path = Some p -> is_config_error (KeyError p) = false) ->
  forallb (fun kt => negb (is_config_error (KeyError (fst kt)))) pairs = true ->
  (forall s row, behaves ok (body s row)) ->
  forall fuel params s,
    inv params ->
    behaves ok (gen_pages fuel url path more_key pairs body params s).
Proof.
  intros Hsl Hg Hset Hp Hk Hb.
  induction fuel as [| fuel IH]; intros params s Hinv; cbn [gen_pages].
  - apply behaves_out_of_fuel.
  - apply behaves_bind; [apply behaves_request; [exact Hsl | apply Hg, Hinv] | intros resp].
    apply behaves_bind; [apply behaves_resp_json | intros data].
    destruct (path_given path) as [p |].
    + apply behaves_bind; [apply behaves_subscript, Hp; reflexivity | intros listed].
      apply behaves_bind; [apply behaves_iterate | intros rows].
      apply behaves_bind; [apply behaves_for_each, Hb | intros s'].
      apply behaves_bind; [apply behaves_dict_get | intros more].
      destruct (negb (truthy more)); [apply behaves_ret |].
      apply (behaves_bind_post ok inv); [apply behaves_copy_offsets, Hk | |].
      * intros w p' w'. apply (copy_offsets_keeps inv data pairs Hset); exact Hinv.
      * intros p' Hp'. apply IH, Hp'.
    + apply behaves_bind; [apply behaves_iterate | intros rows].
      apply behaves_for_each, Hb.
Qed.

Lemma In_zip_snd {A B} (b : B) (l : list A) : forall l' : list B,
  In b (map snd (zip l l')) -> In b l'.
Proof.
  induction l as [| x l IH]; intros [| y l'] H; simpl in *; try contradiction.
  destruct H as [H | H]; [left; exact H | right; apply IH, H].
Qed.

Lemma behaves_gen_request {S} (inv : Params -> Prop) (body : S -> json -> M S)
    fuel url params path more_key ks ts s :
  sleeps_ok ok ->
  (forall p, inv p -> gets_ok ok url p) ->
  (forall p t v, inv p -> In t (as_list ts) -> inv (<[t := v]> p)) ->
  inv params ->
  length (as_list ks) = length (as_list ts) ->
  (forall p, path_given path = Some p -> is_config_error (KeyError p) = false) ->
  forallb (fun k => negb (is_config_error (KeyError k))) (as_list ks) = true ->
  (forall s row, behaves ok (body s row)) ->
  behaves ok (gen_request fuel url params path more_key ks ts body s).
Proof.
  intros Hsl Hg Hset Hinv Hl Hp Hk Hb. unfold gen_request. rewrite Hl, Nat.eqb_refl. cbn [negb].
  apply (behaves_gen_pages inv); try assumption.
  - intros p t v Hi Hin. apply Hset; [exact Hi |]. eapply In_zip_snd, Hin.
  - clear Hp Hb Hset. revert Hl Hk.
    generalize (as_list ts) as t. generalize (as_list ks) as k.
    induction k as [| x k IH]; intros [| y t] Hl Hk; simpl in *;
      try reflexivity; try discriminate.
    apply andb_true_iff in Hk as [Hx Hk]. rewrite Hx. simpl. apply IH; [lia | exact Hk].
Qed.

Lemma behaves_parse_custom_schema e data : behaves ok (parse_custom_schema e data).
Proof.
  unfold parse_custom_schema.
  bh; first [apply behaves_iterate | apply behaves_subscript; reflexivity].
Qed.

Lemma behaves_record_modified_time r : behaves ok (record_modified_time r).
Proof.
  unfold record_modified_time.
  bh; first [ apply behaves_contains | apply behaves_strptime
            | apply behaves_subscript; reflexivity ].
Qed.

End BehaviourOfProgram.

(** ** The same, for the streams *)

Lemma behaves_bind_ret ok {A B} (a : A) (f : A -> M B) :
  behaves ok (f a) -> behaves ok (bind (ret a) f).
Proof. intros H w. exact (H w). Qed.

(** [get_url] is a function of its arguments. *)
Lemma get_url_plain endpoint kwargs t :
  assoc endpoint endpoints = Some (t, None) ->
  get_url endpoint kwargs = ret {| url_text := BASE_URL ++ t; url_arg := None |}.
Proof. intros H. unfold get_url. rewrite H. reflexivity. Qed.

Lemma get_url_with endpoint kwargs t p v :
  assoc endpoint endpoints = Some (t, Some p) ->
  assoc p kwargs = Some v ->
  get_url endpoint kwargs = ret {| url_text := BASE_URL ++ t; url_arg := Some v |}.
Proof. intros H Hv. unfold get_url. rewrite H, Hv. reflexivity. Qed.

Lemma custom_cases e :
  existsb (String.eqb e) ["contacts"; "companies"; "deals"] = true ->
  e = "contacts" \/ e = "companies" \/ e = "deals".
Proof.
  simpl. rewrite !orb_true_iff, !String.eqb_eq. intros [H | [H | [H | H]]]; auto.
  discriminate.
Qed.

Section BehaviourOfSchemas.
Context (ok : Event -> bool) (Hrt : lets_routine ok).

Lemma behaves_load_schema e :
  sleeps_ok ok ->
  (forall t, assoc (e ++ "_properties") endpoints = Some (t, None) ->
     gets_ok ok {| url_text := BASE_URL ++ t; url_arg := None |} ∅) ->
  behaves ok (load_schema e).
Proof.
  intros Hsl Hg. unfold load_schema. apply behaves_bind; [apply behaves_get_world | intros w0].
  destruct (existsb (String.eqb e) ["contacts"; "companies"; "deals"]) eqn:E;
    [| apply behaves_ret].
  assert (Hurl : exists t, assoc (e ++ "_properties") endpoints = Some (t, None)).
  { destruct (custom_cases e E) as [-> | [-> | ->]]; eexists; reflexivity. }
  destruct Hurl as [t Ht]. unfold get_custom_schema.
  rewrite (get_url_plain _ [] t Ht).
  apply behaves_bind; [| intros custom].
  - apply behaves_bind_ret.
    apply behaves_bind; [apply behaves_request; [exact Hrt | exact Hsl | apply Hg, Ht] | intros resp].
    apply behaves_bind; [apply behaves_resp_json | intros data].
    apply behaves_parse_custom_schema.
  - bh; apply behaves_subscript; reflexivity.
Qed.

End BehaviourOfSchemas.

Section BehaviourInBackground.
Context (ok : Event -> bool) (Hbg : lets_background ok).

Lemma behaves_request_bg url params : behaves ok (request url params).
Proof.
  apply behaves_request;
    [apply background_routine | apply background_sleeps | apply background_gets]; exact Hbg.
Qed.

Lemma behaves_gen_request_bg {S} (body : S -> json -> M S) fuel url params path
    more_key ks ts s :
  length (as_list ks) = length (as_list ts) ->
  (forall p, path_given path = Some p -> is_config_error (KeyError p) = false) ->
  forallb (fun k => negb (is_config_error (KeyError k))) (as_list ks) = true ->
  (forall s row, behaves ok (body s row)) ->
  behaves ok (gen_request fuel url params path more_key ks ts body s).
Proof.
  intros Hl Hp Hk Hb.
  apply (behaves_gen_request ok (background_routine ok Hbg) (fun _ => True));
    try assumption; auto using background_sleeps, background_gets.
Qed.

Lemma behaves_load_schema_bg e : behaves ok (load_schema e).
Proof.
  apply behaves_load_schema;
    [apply background_routine, Hbg | apply background_sleeps, Hbg |].
  intros t _. apply background_gets, Hbg.
Qed.

End BehaviourInBackground.

Ltac split_ifs :=
  repeat match goal with |- context [if ?b then _ else _] => destruct b end.

Ltac side_path :=
  let p := fresh "p" in
  let Hp := fresh "Hp" in
  intros p Hp;
  repeat match type of Hp with context [if ?b then _ else _] => destruct b end;
  vm_compute in Hp; injection Hp as <-; reflexivity.

Ltac bh_sidec :=
  lazymatch goal with
  | |- behaves _ _ => idtac
  | |- lets_background _ => assumption
  | |- lets_routine _ => first [assumption | apply background_routine; assumption]
  | |- forall _ _, behaves _ _ => idtac
  | |- forall _, _ = Some _ -> _ => side_path
  | |- _ => split_ifs; reflexivity
  end.

Ltac bh_leaf :=
  first [ apply behaves_resp_json | apply behaves_contains | apply behaves_iterate
        | apply behaves_dict_get | apply behaves_dict_items | apply behaves_strptime
        | apply behaves_at_or_after | apply behaves_days_since
        | apply behaves_refresh_token | apply behaves_request_bg
        | apply behaves_load_schema_bg | apply behaves_record_modified_time
        | apply behaves_subscript | apply behaves_get_url
        | apply behaves_gen_request_bg ];
  bh_sidec.

Ltac bhw := repeat (intros; cbv beta zeta; first [bh_step | bh_leaf | bh_close]); intros.

Section BehaviourOfStreams.
Context (ok : Event -> bool) (Hbg : lets_background ok).

Lemma behaves_sync_contacts fuel :
  (forall schema keys, ok (WriteSchema "contacts" schema keys) = true) ->
  (forall r, ok (WriteRecord "contacts" r) = true) ->
  behaves ok (sync_contacts fuel).
Proof. intros Hs Hr. unfold sync_contacts, sync_contacts_row. bhw. Qed.

Lemma behaves_sync_detail_row stream ep arg key last_sync schema i row :
  (forall r, ok (WriteRecord stream r) = true) ->
  is_config_error (KeyError key) = false ->
  (forall id, url_ok ep [(arg, id)] = true) ->
  behaves ok (sync_detail_row stream ep arg key last_sync schema i row).
Proof.
  intros Hr Hk Hu. unfold sync_detail_row. bhw.
  all: first [apply behaves_subscript, Hk | apply behaves_get_url, Hu].
Qed.

Lemma behaves_sync_companies fuel :
  (forall schema keys, ok (WriteSchema "companies" schema keys) = true) ->
  (forall r, ok (WriteRecord "companies" r) = true) ->
  behaves ok (sync_companies fuel).
Proof.
  intros Hs Hr. unfold sync_companies, sync_companies_rows. bhw.
  apply behaves_sync_detail_row; [exact Hr | reflexivity | reflexivity].
Qed.

Lemma behaves_sync_deals fuel :
  (forall schema keys, ok (WriteSchema "deals" schema keys) = true) ->
  (forall r, ok (WriteRecord "deals" r) = true) ->
  behaves ok (sync_deals fuel).
Proof.
  intros Hs Hr. unfold sync_deals, sync_deals_rows. bhw.
  apply behaves_sync_detail_row; [exact Hr | reflexivity | reflexivity].
Qed.

Lemma behaves_sync_campaigns fuel :
  (forall schema keys, ok (WriteSchema "campaigns" schema keys) = true) ->
  (forall r, ok (WriteRecord "campaigns" r) = true) ->
  behaves ok (sync_campaigns fuel).
Proof. intros Hs Hr. unfold sync_campaigns. bhw. Qed.

Lemma behaves_sync_contact_lists fuel :
  (forall schema keys, ok (WriteSchema "contact_lists" schema keys) = true) ->
  (forall r, ok (WriteRecord "contact_lists" r) = true) ->
  behaves ok (sync_contact_lists fuel).
Proof. intros Hs Hr. unfold sync_contact_lists. bhw. Qed.

Lemma behaves_chunk_loop pages e path schema url now_ts size :
  CHUNK_SIZES e = Some size ->
  is_config_error (KeyError path) = false ->
  (forall r, ok (WriteRecord e r) = true) ->
  forall fuel start_ts,
    behaves ok (chunk_loop fuel pages e path schema url now_ts start_ts).
Proof.
  intros Hsize Hpath Hr. induction fuel as [| fuel IH]; intros start_ts; cbn [chunk_loop].
  - bhw.
  - destruct (start_ts <? now_ts); [| apply behaves_ret].
    rewrite Hsize. apply behaves_bind; [apply behaves_ret | intros size'].
    apply behaves_bind.
    + apply behaves_gen_request_bg; [exact Hbg | reflexivity | | reflexivity | bhw].
      intros p Hp. unfold path_given in Hp.
      destruct (String.eqb path ""); [discriminate |]. injection Hp as E. subst p.
      exact Hpath.
    + bhw. apply IH.
Qed.

Lemma behaves_sync_entity_chunked fuel e keys path size :
  CHUNK_SIZES e = Some size ->
  is_config_error (KeyError path) = false ->
  (forall schema k, ok (WriteSchema e schema k) = true) ->
  (forall r, ok (WriteRecord e r) = true) ->
  behaves ok (sync_entity_chunked fuel e keys path).
Proof.
  intros Hsize Hpath Hs Hr. unfold sync_entity_chunked.
  assert (Hurl : url_ok e [] = true).
  { destruct (chunk_size_cases _ _ Hsize) as [[-> _] | [-> _]]; reflexivity. }
  bhw; first [apply behaves_get_url, Hurl | eapply behaves_chunk_loop; eassumption].
Qed.

Lemma behaves_sync_single_page stream keys rows_key field :
  url_ok stream [] = true ->
  (forall k, rows_key = Some k -> is_config_error (KeyError k) = false) ->
  is_config_error (KeyError field) = false ->
  (forall schema k, ok (WriteSchema stream schema k) = true) ->
  (forall r, ok (WriteRecord stream r) = true) ->
  behaves ok (sync_single_page stream keys rows_key field).
Proof.
  intros Hurl Hrows Hfield Hs Hr. unfold sync_single_page. bhw.
  all: first [ apply behaves_get_url, Hurl | apply behaves_subscript, Hfield
             | apply behaves_subscript, Hrows; reflexivity ].
Qed.

Lemma behaves_do_sync fuel :
  (forall s schema keys, ok (WriteSchema s schema keys) = true) ->
  (forall s r, ok (WriteRecord s r) = true) ->
  behaves ok (do_sync fuel).
Proof.
  intros Hs Hr. unfold do_sync.
  unfold sync_subscription_changes, sync_email_events,
    sync_forms, sync_workflows, sync_keywords, sync_owners.
  repeat lazymatch goal with
         | |- behaves _ (bind _ _) => apply behaves_bind; [| intros _]
         end.
  all: try (apply behaves_write; apply Hbg; reflexivity).
  all: try (eapply behaves_sync_entity_chunked;
            [reflexivity | reflexivity | intros; apply Hs | intros; apply Hr]).
  all: try (apply behaves_sync_single_page;
            [reflexivity | | reflexivity | intros; apply Hs | intros; apply Hr];
            intros k E; try discriminate; injection E as <-; reflexivity).
  - apply behaves_sync_campaigns; auto.
  - apply behaves_sync_contact_lists; auto.
  - apply behaves_sync_contacts; auto.
  - apply behaves_sync_companies; auto.
  - apply behaves_sync_deals; auto.
Qed.

End BehaviourOfStreams.

(** ** The wiring of the program *)

Lemma placeholder_cases endpoint t p :
  assoc endpoint endpoints = Some (t, Some p) ->
  p = "company_id" \/ p = "deal_id" \/ p = "campaign_id".
Proof.
  unfold endpoints. cbn [assoc].
  repeat match goal with
         | |- context [if ?b then _ else _] => destruct b
         end;
    intros H; try discriminate; injection H as _ <-; auto.
Qed.

Lemma behaves_any_do_sync fuel : behaves any_event (do_sync fuel).
Proof. apply behaves_do_sync; try unfold lets_background; intros; reflexivity. Qed.

(** X1. The program is wired consistently: whatever the API answers, a run
    of [do_sync] never fails on an error of configuration. It raises
    neither the [ValueError] of [get_url] for an endpoint name outside the
    table, nor the [KeyError] of a URL placeholder without a value, nor the
    [ValueError] of [gen_request] for offset keys and targets that do not
    pair up, nor the [KeyError] of a stream without a chunk size; and when
    it exits, the exit code is 1. Every error that [get_url] can raise is
    one of these. *)
Theorem do_sync_raises_no_configuration_error :
  forall (fuel : nat) (w : World),
    match fst (do_sync fuel w) with
    | Raise e => is_config_error e = false
    | SysExit c => c = 1
    | _ => True
    end /\
    (forall endpoint kwargs w0 e,
       fst (get_url endpoint kwargs w0) = Raise e -> is_config_error e = true).
Proof.
  intros fuel w. split.
  - destruct (behaves_any_do_sync fuel w) as (_ & He & Hc).
    destruct (fst (do_sync fuel w)); auto.
  - intros endpoint kwargs w0 e. unfold get_url.
    destruct (assoc endpoint endpoints) as [[t [p |]] |] eqn:E.
    + destruct (assoc p kwargs); simpl; [discriminate |].
      intros H. injection H as <-.
      destruct (placeholder_cases _ _ _ E) as [-> | [-> | ->]]; reflexivity.
    + discriminate.
    + simpl. intros H. injection H as <-. destruct endpoint; reflexivity.
Qed.

(** ** Which messages a stream writes *)

Lemma of_stream_background stream : lets_background (of_stream stream).
Proof. intros e He. destruct e; try reflexivity; discriminate. Qed.

Lemma of_stream_schema stream schema keys :
  of_stream stream (WriteSchema stream schema keys) = true.
Proof. apply String.eqb_refl. Qed.

Lemma of_stream_record stream r : of_stream stream (WriteRecord stream r) = true.
Proof. apply String.eqb_refl. Qed.

Lemma own_sync_entity_chunked fuel e keys path size :
  CHUNK_SIZES e = Some size ->
  is_config_error (KeyError path) = false ->
  behaves (of_stream e) (sync_entity_chunked fuel e keys path).
Proof.
  intros Hs Hp. eapply behaves_sync_entity_chunked; try eassumption.
  - apply of_stream_background.
  - intros. apply of_stream_schema.
  - intros. apply of_stream_record.
Qed.

Lemma own_sync_single_page stream keys rows_key field :
  url_ok stream [] = true ->
  (forall k, rows_key = Some k -> is_config_error (KeyError k) = false) ->
  is_config_error (KeyError field) = false ->
  behaves (of_stream stream) (sync_single_page stream keys rows_key field).
Proof.
  intros Hu Hk Hf. apply behaves_sync_single_page; try assumption.
  - apply of_stream_background.
  - intros. apply of_stream_schema.
  - intros. apply of_stream_record.
Qed.

Ltac own_side :=
  [> apply of_stream_background | intros; apply of_stream_schema
   | intros; apply of_stream_record ].

Ltac own_stream :=
  lazymatch goal with
  | |- behaves _ (sync_entity_chunked _ _ _ _) =>
      eapply own_sync_entity_chunked; reflexivity
  | |- behaves _ (sync_single_page _ _ _ _) =>
      apply own_sync_single_page;
      [reflexivity | intros k E; try discriminate; injection E as <-; reflexivity
      | reflexivity]
  | |- behaves _ (sync_campaigns _) => apply behaves_sync_campaigns; own_side
  | |- behaves _ (sync_contact_lists _) => apply behaves_sync_contact_lists; own_side
  | |- behaves _ (sync_contacts _) => apply behaves_sync_contacts; own_side
  | |- behaves _ (sync_companies _) => apply behaves_sync_companies; own_side
  | |- behaves _ (sync_deals _) => apply behaves_sync_deals; own_side
  end.

(** The eleven streams, in the order of [do_sync]. *)
Lemma own_streams fuel :
  behaves (of_stream "subscription_changes") (sync_subscription_changes fuel) /\
  behaves (of_stream "email_events") (sync_email_events fuel) /\
  behaves (of_stream "forms") sync_forms /\
  behaves (of_stream "workflows") sync_workflows /\
  behaves (of_stream "keywords") sync_keywords /\
  behaves (of_stream "owners") sync_owners /\
  behaves (of_stream "campaigns") (sync_campaigns fuel) /\
  behaves (of_stream "contact_lists") (sync_contact_lists fuel) /\
  behaves (of_stream "contacts") (sync_contacts fuel) /\
  behaves (of_stream "companies") (sync_companies fuel) /\
  behaves (of_stream "deals") (sync_deals fuel).
Proof.
  unfold sync_subscription_changes, sync_email_events, sync_forms, sync_workflows,
    sync_keywords, sync_owners.
  repeat match goal with |- _ /\ _ => split end; own_stream.
Qed.

(** X2. Every stream writes schema and record messages under its own name
    only: whatever the API answers, and also when the run fails, each of
    the eleven sync functions adds to the output no schema message and no
    record message of another stream. *)
Theorem streams_write_their_own_messages :
  forall (fuel : nat) (w : World),
    let own (stream : string) (m : M unit) :=
      exists evs, trace (snd (m w)) = (evs ++ trace w)%list /\
                  forallb (of_stream stream) evs = true in
    own "subscription_changes" (sync_subscription_changes fuel) /\
    own "email_events" (sync_email_events fuel) /\
    own "forms" sync_forms /\
    own "workflows" sync_workflows /\
    own "keywords" sync_keywords /\
    own "owners" sync_owners /\
    own "campaigns" (sync_campaigns fuel) /\
    own "contact_lists" (sync_contact_lists fuel) /\
    own "contacts" (sync_contacts fuel) /\
    own "companies" (sync_companies fuel) /\
    own "deals" (sync_deals fuel).
Proof.
  intros fuel w own.
  destruct (own_streams fuel) as (H1 & H2 & H3 & H4 & H5 & H6 & H7 & H8 & H9 & H10 & H11).
  exact (conj (proj1 (H1 w)) (conj (proj1 (H2 w)) (conj (proj1 (H3 w))
         (conj (proj1 (H4 w)) (conj (proj1 (H5 w)) (conj (proj1 (H6 w))
         (conj (proj1 (H7 w)) (conj (proj1 (H8 w)) (conj (proj1 (H9 w))
         (conj (proj1 (H10 w)) (proj1 (H11 w)))))))))))).
Qed.

(** ** The schema of a stream comes before its records *)

Lemma announced_app stream e2 : forall e1,
  announced stream e1 -> announced stream e2 -> announced stream (e2 ++ e1).
Proof.
  intros e1 H1. induction e2 as [| e rest IH]; intros H2; [exact H1 |].
  destruct e; simpl in *; try (apply IH; exact H2).
  destruct H2 as [Hs H2]. split; [| apply IH; exact H2].
  intros E. destruct (Hs E) as (schema & keys & Hin). exists schema, keys.
  apply in_or_app. left. exact Hin.
Qed.

Lemma announced_after_schema stream schema keys evs :
  announced stream (evs ++ [WriteSchema stream schema keys]).
Proof.
  induction evs as [| e rest IH]; simpl; [exact I |].
  destruct e; try exact IH. split; [| exact IH].
  intros _. exists schema, keys. apply in_or_app. right. left. reflexivity.
Qed.

Lemma announced_no_record stream evs :
  forallb (no_record_of stream) evs = true -> announced stream evs.
Proof.
  induction evs as [| e rest IH]; simpl; [intros; exact I |].
  intros H. apply andb_true_iff in H as [He Hr].
  destruct e; try (apply IH; exact Hr). split; [| apply IH; exact Hr].
  intros ->. simpl in He. rewrite String.eqb_refl in He. discriminate.
Qed.

Lemma forallb_weaken {A} (p q : A -> bool) l :
  (forall x, p x = true -> q x = true) -> forallb p l = true -> forallb q l = true.
Proof.
  intros Hpq. induction l as [| x l IH]; simpl; [reflexivity |].
  intros H. apply andb_true_iff in H as [Hx Hl]. rewrite (Hpq x Hx), (IH Hl). reflexivity.
Qed.

Lemma behaves_weaken (p q : Event -> bool) {A} (m : M A) :
  (forall e, p e = true -> q e = true) -> behaves p m -> behaves q m.
Proof.
  intros Hpq H w. destruct (H w) as ((evs & Ht & Hf) & Hr). split; [| exact Hr].
  exists evs. split; [exact Ht | exact (forallb_weaken p q evs Hpq Hf)].
Qed.

Lemma announces_bind stream {A B} (m : M A) (f : A -> M B) :
  announces stream m -> (forall a, announces stream (f a)) -> announces stream (bind m f).
Proof.
  intros Hm Hf w. destruct (Hm w) as (e1 & H1 & K1). unfold bind.
  destruct (m w) as [[a | e | c | ] w1]; simpl in *; try (exists e1; split; assumption).
  destruct (Hf a w1) as (e2 & H2 & K2). exists (e2 ++ e1)%list. split.
  - rewrite H2, H1. apply app_assoc.
  - apply announced_app; assumption.
Qed.

Lemma announces_of_behaves stream {A} (m : M A) :
  behaves (no_record_of stream) m -> announces stream m.
Proof.
  intros H w. destruct (H w) as ((evs & Ht & Hf) & _). exists evs.
  split; [exact Ht | apply announced_no_record, Hf].
Qed.

Lemma announces_schema_then stream schema keys {B} (f : unit -> M B) :
  (forall a, preserves extends (f a)) ->
  announces stream (bind (write_schema stream schema keys) f).
Proof.
  intros Hf w. unfold bind, write_schema, write. simpl.
  destruct (Hf tt (emit (WriteSchema stream schema keys) w)) as [evs Ht].
  exists (evs ++ [WriteSchema stream schema keys])%list. split.
  - rewrite Ht. simpl. rewrite <- app_assoc. reflexivity.
  - apply announced_after_schema.
Qed.

Lemma background_no_record_of stream e : background e = true -> no_record_of stream e = true.
Proof. destruct e; try reflexivity; discriminate. Qed.

Lemma background_lets : lets_background background.
Proof. intros e He. exact He. Qed.

(** What comes before the schema message of a stream writes neither a
    schema nor a record. *)
Lemma announces_prefix stream {A B} (m : M A) (f : A -> M B) :
  behaves background m -> (forall a, announces stream (f a)) ->
  announces stream (bind m f).
Proof.
  intros Hm Hf. apply announces_bind; [| exact Hf].
  apply announces_of_behaves.
  exact (behaves_weaken _ _ m (background_no_record_of stream) Hm).
Qed.

Ltac ann_step :=
  lazymatch goal with
  | |- announces _ (bind (write_schema _ _ _) _) =>
      apply announces_schema_then; intros; whole
  | |- announces _ (bind _ _) =>
      apply announces_prefix;
      [pose proof background_lets as Hbg; bhw | intros]
  end.

Lemma announces_sync_contacts fuel : announces "contacts" (sync_contacts fuel).
Proof. unfold sync_contacts. repeat ann_step. apply preserves_sync_contacts_row; exact _. Qed.

Lemma announces_sync_companies fuel : announces "companies" (sync_companies fuel).
Proof.
  unfold sync_companies. apply announces_bind; [| intros; apply announces_of_behaves;
    apply behaves_ret].
  unfold sync_companies_rows. repeat ann_step. apply preserves_sync_detail_row; exact _.
Qed.

Lemma announces_sync_deals fuel : announces "deals" (sync_deals fuel).
Proof.
  unfold sync_deals. apply announces_bind; [| intros; apply announces_of_behaves;
    apply behaves_ret].
  unfold sync_deals_rows. repeat ann_step. apply preserves_sync_detail_row; exact _.
Qed.

Lemma announces_sync_campaigns fuel : announces "campaigns" (sync_campaigns fuel).
Proof. unfold sync_campaigns. repeat ann_step. Qed.

Lemma announces_sync_contact_lists fuel :
  announces "contact_lists" (sync_contact_lists fuel).
Proof. unfold sync_contact_lists. repeat ann_step. Qed.

Lemma announces_sync_entity_chunked fuel e keys path :
  announces e (sync_entity_chunked fuel e keys path).
Proof. unfold sync_entity_chunked. repeat ann_step. apply preserves_chunk_loop; exact _. Qed.

Lemma announces_sync_single_page stream keys rows_key field :
  announces stream (sync_single_page stream keys rows_key field).
Proof. unfold sync_single_page. repeat ann_step. Qed.

(** A piece that writes for one stream only, with the schema first,
    keeps the order for every stream. *)
Lemma announces_every own stream {A} (m : M A) :
  behaves (of_stream own) m -> announces own m -> announces stream m.
Proof.
  intros Hb Ha. destruct (String.eqb_spec stream own) as [-> | Hne]; [exact Ha |].
  apply announces_of_behaves. refine (behaves_weaken _ _ m _ Hb).
  intros e He. destruct e; try reflexivity. simpl in *.
  apply String.eqb_eq in He. subst. apply negb_true_iff, String.eqb_neq.
  intros E. apply Hne. symmetry. exact E.
Qed.

Lemma announces_log stream msg : announces stream (write (LogInfo msg)).
Proof. intros w. exists [LogInfo msg]. split; [reflexivity | exact I]. Qed.

Lemma announces_do_sync fuel stream : announces stream (do_sync fuel).
Proof.
  destruct (own_streams fuel) as (H1 & H2 & H3 & H4 & H5 & H6 & H7 & H8 & H9 & H10 & H11).
  unfold do_sync.
  repeat lazymatch goal with
         | |- announces _ (bind _ _) => apply announces_bind; [| intros _]
         end.
  all: try apply announces_log.
  - apply (announces_every _ _ _ H1), announces_sync_entity_chunked.
  - apply (announces_every _ _ _ H2), announces_sync_entity_chunked.
  - apply (announces_every _ _ _ H3), announces_sync_single_page.
  - apply (announces_every _ _ _ H4), announces_sync_single_page.
  - apply (announces_every _ _ _ H5), announces_sync_single_page.
  - apply (announces_every _ _ _ H6), announces_sync_single_page.
  - apply (announces_every _ _ _ H7), announces_sync_campaigns.
  - apply (announces_every _ _ _ H8), announces_sync_contact_lists.
  - apply (announces_every _ _ _ H9), announces_sync_contacts.
  - apply (announces_every _ _ _ H10), announces_sync_companies.
  - apply (announces_every _ _ _ H11), announces_sync_deals.
Qed.

(** X3. In the output of a run of [do_sync], every record message of a
    stream comes after a schema message of that stream, whatever the API
    answers and also when the run fails part-way: for each record message
    of the new events, a schema message of the same stream is among the
    events before it. *)
Theorem schema_precedes_records :
  forall (fuel : nat) (stream : string) (w : World),
    exists evs,
      trace (snd (do_sync fuel w)) = (evs ++ trace w)%list /\
      announced stream evs /\
      (forall newer r older,
         evs = (newer ++ WriteRecord stream r :: older)%list ->
         exists schema keys, In (WriteSchema stream schema keys) older).
Proof.
  intros fuel stream w. destruct (announces_do_sync fuel stream w) as (evs & Ht & Ha).
  exists evs. split; [exact Ht |]. split; [exact Ha |].
  clear Ht. intros newer r older ->. induction newer as [| e newer IH].
  - simpl in Ha. destruct Ha as [Hs _]. apply Hs. reflexivity.
  - apply IH. destruct e; simpl in Ha; try exact Ha. apply Ha.
Qed.

(** ** The schema messages of a run *)

Lemma schemas_app (a b : list Event) : schemas (a ++ b) = (schemas b ++ schemas a)%list.
Proof. unfold schemas. rewrite rev_app_distr, omap_app. reflexivity. Qed.

Lemma schemas_none evs : forallb no_schema evs = true -> schemas evs = [].
Proof.
  induction evs as [| e rest IH]; [reflexivity |]. simpl. intros H.
  apply andb_true_iff in H as [He Hr]. change (e :: rest) with ([e] ++ rest)%list.
  rewrite schemas_app, (IH Hr). destruct e; try reflexivity; discriminate.
Qed.

Lemma no_schema_background : lets_background no_schema.
Proof. intros e He. destruct e; try reflexivity; discriminate. Qed.

Lemma declares_bind l1 l2 {A B} (m : M A) (f : A -> M B) :
  declares l1 m -> (forall a, declares l2 (f a)) -> declares (l1 ++ l2) (bind m f).
Proof.
  intros Hm Hf w. destruct (Hm w) as (e1 & H1 & [r1 P1] & R1). unfold bind.
  destruct (m w) as [[a | e | c | ] w1]; simpl in *.
  - destruct (Hf a w1) as (e2 & H2 & [r2 P2] & R2).
    exists (e2 ++ e1)%list. rewrite schemas_app, (R1 a eq_refl).
    split; [rewrite H2, H1; apply app_assoc |]. split.
    + exists r2. rewrite P2, <- app_assoc. reflexivity.
    + intros b Hb. rewrite (R2 b Hb). reflexivity.
  - exists e1. split; [exact H1 |]. split; [| discriminate].
    exists (r1 ++ l2)%list. rewrite P1, <- app_assoc. reflexivity.
  - exists e1. split; [exact H1 |]. split; [| discriminate].
    exists (r1 ++ l2)%list. rewrite P1, <- app_assoc. reflexivity.
  - exists e1. split; [exact H1 |]. split; [| discriminate].
    exists (r1 ++ l2)%list. rewrite P1, <- app_assoc. reflexivity.
Qed.

Lemma declares_of_behaves {A} (m : M A) : behaves no_schema m -> declares [] m.
Proof.
  intros H w. destruct (H w) as ((evs & Ht & Hf) & _). exists evs.
  rewrite (schemas_none evs Hf). split; [exact Ht |].
  split; [exists []; reflexivity | reflexivity].
Qed.

Lemma declares_write_schema stream schema keys :
  declares [stream] (write_schema stream schema keys).
Proof.
  intros w. exists [WriteSchema stream schema keys]. split; [reflexivity |].
  split; [exists []; reflexivity | reflexivity].
Qed.

Lemma declares_pre l {A B} (m : M A) (f : A -> M B) :
  behaves no_schema m -> (forall a, declares l (f a)) -> declares l (bind m f).
Proof. intros Hm Hf. apply (declares_bind [] l); [apply declares_of_behaves, Hm | exact Hf]. Qed.

Lemma declares_post l {A B} (m : M A) (f : A -> M B) :
  declares l m -> (forall a, behaves no_schema (f a)) -> declares l (bind m f).
Proof.
  intros Hm Hf. rewrite <- (app_nil_r l).
  apply declares_bind; [exact Hm | intros; apply declares_of_behaves, Hf].
Qed.

Lemma declares_schema_then stream schema keys {B} (f : unit -> M B) :
  (forall a, behaves no_schema (f a)) ->
  declares [stream] (bind (write_schema stream schema keys) f).
Proof. intros Hf. apply declares_post; [apply declares_write_schema | exact Hf]. Qed.

Ltac decl_step :=
  lazymatch goal with
  | |- declares _ (bind (write_schema _ _ _) _) => apply declares_schema_then; intros
  | |- declares _ (bind _ _) => apply declares_pre; [| intros]
  end.

Ltac decl := repeat decl_step; pose proof no_schema_background as Hbg; bhw.

Lemma declares_sync_contacts fuel : declares ["contacts"] (sync_contacts fuel).
Proof. unfold sync_contacts, sync_contacts_row. decl. Qed.

Lemma declares_sync_companies fuel : declares ["companies"] (sync_companies fuel).
Proof.
  unfold sync_companies. apply declares_post; [| intros; apply behaves_ret].
  unfold sync_companies_rows. decl.
  apply behaves_sync_detail_row; [exact Hbg | reflexivity | reflexivity | reflexivity].
Qed.

Lemma declares_sync_deals fuel : declares ["deals"] (sync_deals fuel).
Proof.
  unfold sync_deals. apply declares_post; [| intros; apply behaves_ret].
  unfold sync_deals_rows. decl.
  apply behaves_sync_detail_row; [exact Hbg | reflexivity | reflexivity | reflexivity].
Qed.

Lemma declares_sync_campaigns fuel : declares ["campaigns"] (sync_campaigns fuel).
Proof. unfold sync_campaigns. decl. Qed.

Lemma declares_sync_contact_lists fuel :
  declares ["contact_lists"] (sync_contact_lists fuel).
Proof. unfold sync_contact_lists. decl. Qed.

Lemma declares_sync_entity_chunked fuel e keys path size :
  CHUNK_SIZES e = Some size ->
  is_config_error (KeyError path) = false ->
  declares [e] (sync_entity_chunked fuel e keys path).
Proof.
  intros Hsize Hpath. unfold sync_entity_chunked.
  assert (Hurl : url_ok e [] = true).
  { destruct (chunk_size_cases _ _ Hsize) as [[-> _] | [-> _]]; reflexivity. }
  decl; first [ apply behaves_get_url, Hurl
              | eapply behaves_chunk_loop; [exact Hbg | eassumption | exact Hpath | reflexivity] ].
Qed.

Lemma declares_sync_single_page stream keys rows_key field :
  url_ok stream [] = true ->
  (forall k, rows_key = Some k -> is_config_error (KeyError k) = false) ->
  is_config_error (KeyError field) = false ->
  declares [stream] (sync_single_page stream keys rows_key field).
Proof.
  intros Hurl Hrows Hfield. unfold sync_single_page. decl.
  all: first [ apply behaves_get_url, Hurl | apply behaves_subscript, Hfield
             | apply behaves_subscript, Hrows; reflexivity ].
Qed.

Lemma declares_log msg : declares [] (write (LogInfo msg)).
Proof.
  intros w. exists [LogInfo msg]. split; [reflexivity |].
  split; [exists []; reflexivity | reflexivity].
Qed.

Lemma declares_do_sync fuel : declares stream_order (do_sync fuel).
Proof.
  unfold do_sync, sync_subscription_changes, sync_email_events, sync_forms,
    sync_workflows, sync_keywords, sync_owners.
  apply (declares_bind [] stream_order); [apply declares_log | intros _].
  apply (declares_bind ["subscription_changes"]);
    [eapply declares_sync_entity_chunked; reflexivity | intros _].
  apply (declares_bind ["email_events"]);
    [eapply declares_sync_entity_chunked; reflexivity | intros _].
  apply (declares_bind ["forms"]);
    [apply declares_sync_single_page; [reflexivity | discriminate | reflexivity] | intros _].
  apply (declares_bind ["workflows"]);
    [apply declares_sync_single_page;
     [reflexivity | intros k E; injection E as <-; reflexivity | reflexivity] | intros _].
  apply (declares_bind ["keywords"]);
    [apply declares_sync_single_page;
     [reflexivity | intros k E; injection E as <-; reflexivity | reflexivity] | intros _].
  apply (declares_bind ["owners"]);
    [apply declares_sync_single_page; [reflexivity | discriminate | reflexivity] | intros _].
  apply (declares_bind ["campaigns"]); [apply declares_sync_campaigns | intros _].
  apply (declares_bind ["contact_lists"]); [apply declares_sync_contact_lists | intros _].
  apply (declares_bind ["contacts"]); [apply declares_sync_contacts | intros _].
  apply (declares_bind ["companies"]); [apply declares_sync_companies | intros _].
  apply (declares_bind ["deals"] []); [apply declares_sync_deals | intros _].
  apply declares_log.
Qed.

(** A run against an API without data goes through all the streams. *)
Example do_sync_completes_without_data : fst (do_sync 5 quiet_api) = Ret tt.
Proof. vm_compute. reflexivity. Qed.

(** X4. A run of [do_sync] writes one schema message per stream, in the
    order subscription_changes, email_events, forms, workflows, keywords,
    owners, campaigns, contact_lists, contacts, companies, deals: the
    streams of the schema messages of a run that completes are exactly
    this list, and those of a run that stops early are the first streams
    of it, none twice and none out of order. *)
Theorem schemas_in_stream_order :
  forall (fuel : nat) (w : World),
    let r := do_sync fuel w in
    (exists rest, stream_order = (schemas (new_events w (snd r)) ++ rest)%list) /\
    (forall a, fst r = Ret a -> schemas (new_events w (snd r)) = stream_order).
Proof.
  intros fuel w r. destruct (declares_do_sync fuel w) as (evs & Ht & Hp & Hr).
  fold r in Ht, Hr. rewrite (new_events_app w (snd r) evs Ht).
  split; [exact Hp | exact Hr].
Qed.

(** ** The attempts of the requester *)

Lemma refresh_token_attempt w :
  exists evs,
    trace (snd (refresh_token w)) = (evs ++ trace w)%list /\
    sleeps evs = [] /\ List.filter is_get evs = [] /\
    length (List.filter is_post evs) = 1%nat /\
    fst (refresh_token w) <> OutOfFuel.
Proof.
  unfold refresh_token, bind, get_world, write, exchange, resp_json, subscript,
    of_option, utcnow, ret, raise. simpl.
  repeat match goal with
         | |- context [match ?x with _ => _ end] =>
             lazymatch x with
             | context [match _ with _ => _ end] => fail
             | _ => destruct x; simpl
             end
         end;
    first [ eexists [_; _; _]; split; [reflexivity |]
          | eexists [_; _]; split; [reflexivity |] ];
    repeat split; discriminate.
Qed.

Lemma send_get_attempt url P w :
  exists evs,
    trace (snd (send_get url P w)) = (evs ++ trace w)%list /\
    sleeps evs = [] /\ List.filter is_post evs = [] /\
    length (List.filter is_get evs) = 1%nat /\
    fst (send_get url P w) <> OutOfFuel.
Proof.
  unfold send_get, bind, get_world, write, exchange, sys_exit, ret. simpl.
  repeat match goal with
         | |- context [match ?x with _ => _ end] =>
             lazymatch x with
             | context [match _ with _ => _ end] => fail
             | _ => destruct x; simpl
             end
         end;
    first [ eexists [_; _; _]; split; [reflexivity |]
          | eexists [_; _]; split; [reflexivity |] ];
    repeat split; discriminate.
Qed.

Lemma sleeps_app (a b : list Event) : sleeps (a ++ b) = (sleeps b ++ sleeps a)%list.
Proof. unfold sleeps. rewrite rev_app_distr, omap_app. reflexivity. Qed.

Lemma request_body_attempt url params w :
  exists evs,
    trace (snd (request_body url params w)) = (evs ++ trace w)%list /\
    one_attempt evs /\ fst (request_body url params w) <> OutOfFuel.
Proof.
  rewrite request_body_split. unfold bind. rewrite token_check_run.
  destruct (checked_same w) as [Htr _].
  set (P := match params with Some p => p | None => ∅ end).
  destruct (expired w).
  - destruct (refresh_token_attempt (checked w)) as (e1 & H1 & S1 & G1 & P1 & F1).
    rewrite Htr in H1.
    destruct (refresh_token (checked w)) as [[[] | e | c | ] w1]; simpl in *;
      try (exists e1; split; [exact H1 |]; split; [| discriminate];
           unfold one_attempt; rewrite S1, G1, P1; simpl; repeat split; lia).
    + destruct (send_get_attempt url P w1) as (e2 & H2 & S2 & P2 & G2 & F2).
      exists (e2 ++ e1)%list. split; [rewrite H2, H1; apply app_assoc |].
      split; [| exact F2]. unfold one_attempt.
      rewrite sleeps_app, !List.filter_app, !length_app, S1, S2, G1, P2, G2, P1.
      simpl. repeat split; lia.
    + contradiction.
  - destruct (send_get_attempt url P (checked w)) as (e2 & H2 & S2 & P2 & G2 & F2).
    rewrite Htr in H2. exists e2. split; [exact H2 |]. split; [| exact F2].
    unfold one_attempt. rewrite S2, P2, G2. simpl. repeat split; lia.
Qed.

(** The decorator makes at most [max_tries] attempts, and sleeps between
    two attempts for the successive values of the wait generator. *)
Lemma on_exception_loop_step {A} max_tries gu factor (target : M A) remaining tries w :
  on_exception_loop max_tries gu factor target (S remaining) tries w =
    match target w with
    | (Raise (RequestException r), w1) =>
        if gu r || (S tries =? max_tries)%nat
        then (Raise (RequestException r), w1)
        else on_exception_loop max_tries gu factor target remaining (S tries)
               (emit (Sleep (expo factor tries)) w1)
    | res => res
    end.
Proof. reflexivity. Qed.

Lemma on_exception_loop_bounded {A} max_tries gu factor (target : M A) :
  (forall w, exists evs,
     trace (snd (target w)) = (evs ++ trace w)%list /\ one_attempt evs /\
     fst (target w) <> OutOfFuel) ->
  forall remaining tries w,
    (tries + S remaining = max_tries)%nat ->
    exists k evs,
      (k <= remaining)%nat /\
      trace (snd (on_exception_loop max_tries gu factor target (S remaining) tries w))
        = (evs ++ trace w)%list /\
      sleeps evs = map (expo factor) (seq tries k) /\
      (length (List.filter is_get evs) <= S k)%nat /\
      (length (List.filter is_post evs) <= S k)%nat /\
      fst (on_exception_loop max_tries gu factor target (S remaining) tries w)
        <> OutOfFuel.
Proof.
  intros Ht. induction remaining as [| n IH]; intros tries w Hsum;
    destruct (Ht w) as (e1 & H1 & (S1 & G1 & P1) & F1);
    rewrite on_exception_loop_step.
  - exists 0%nat, e1.
    destruct (target w) as [[a | [ | | | | resp] | c | ] w1]; cbn [fst snd] in *;
      try (repeat split; try assumption; try lia; discriminate).
    assert (E : (S tries =? max_tries)%nat = true) by (apply Nat.eqb_eq; lia).
    rewrite E, orb_true_r. cbn [fst snd].
    repeat split; try assumption; try lia; discriminate.
  - destruct (target w) as [[a | [ | | | | resp] | c | ] w1]; cbn [fst snd] in *;
      try (exists 0%nat, e1; repeat split; try assumption; try lia; discriminate).
    destruct (gu resp || (S tries =? max_tries)%nat).
    + exists 0%nat, e1. cbn [fst snd].
      repeat split; try assumption; try lia; discriminate.
    + destruct (IH (S tries) (emit (Sleep (expo factor tries)) w1) ltac:(lia))
        as (k & e2 & Hk & H2 & S2 & G2 & P2 & F2).
      exists (S k), (e2 ++ Sleep (expo factor tries) :: e1)%list.
      split; [lia |]. split.
      { rewrite H2. cbn [emit trace]. rewrite H1, <- app_assoc. reflexivity. }
      split.
      { rewrite sleeps_app. change (Sleep (expo factor tries) :: e1)
          with ([Sleep (expo factor tries)] ++ e1)%list.
        rewrite sleeps_app, S1, S2. reflexivity. }
      rewrite !List.filter_app, !length_app. cbn [List.filter is_get is_post length].
      repeat split; try lia; exact F2.
Qed.

(** X5. The retries of the requester are bounded. Whatever the API and
    the network do, a call of [request] makes at most five attempts: it
    sleeps at most four times, the waits of the backoff being the first
    of 2, 4, 8, 16 in this order; with k sleeps it has sent at most k + 1
    GET requests and at most k + 1 token refreshes; and it ends (with a
    response, an exception or an exit) within these attempts. *)
Theorem request_attempts_are_bounded :
  forall (url : Url) (params : option Params) (w : World),
    let r := request url params w in
    let evs := new_events w (snd r) in
    exists k,
      (k <= 4)%nat /\
      sleeps evs = take k [2; 4; 8; 16] /\
      (length (List.filter is_get evs) <= k + 1)%nat /\
      (length (List.filter is_post evs) <= k + 1)%nat /\
      fst r <> OutOfFuel.
Proof.
  intros url params w r evs.
  destruct (on_exception_loop_bounded 5 giveup 2 (request_body url params)
              (request_body_attempt url params) 4 0 w eq_refl)
    as (k & e & Hk & Ht & Hs & Hg & Hp & Hf).
  fold (on_exception 5 giveup 2 (request_body url params)) in Ht, Hf.
  fold (request url params) in Ht, Hf. fold r in Ht, Hf.
  exists k. unfold evs. rewrite (new_events_app w (snd r) e Ht).
  split; [exact Hk |]. split.
  - rewrite Hs. do 5 (destruct k as [| k]; [reflexivity |]). lia.
  - repeat split; try lia. exact Hf.
Qed.

(** ** A refresh that fails *)

Lemma checked_fields w :
  env (checked w) = env w /\ CONFIG (checked w) = CONFIG w /\
  exchanges (checked w) = exchanges w /\ trace (checked w) = trace w.
Proof. unfold checked. destruct (token_expires (CONFIG w)); repeat split. Qed.

(** What a refresh that the authorization endpoint refuses does:
    [raise_for_status] raises the error of the response. *)
Lemma refresh_token_refused w s b :
  server (env w) (exchanges w) (refresh_request (CONFIG w)) = Response s b ->
  400 <= s < 600 ->
  refresh_token w =
    (Raise (RequestException (Some s)),
     exchanged (refresh_request (CONFIG w)) (Response s b)
       (emit (LogInfo RefreshingToken) w)).
Proof.
  intros Hsrv Hs. unfold refresh_token, refresh_request in *.
  rewrite (bind_run get_world _ w w w eq_refl).
  erewrite (bind_run (write _) _ w tt); [| reflexivity].
  unfold bind at 1. unfold exchange. cbn [env exchanges emit]. rewrite Hsrv.
  unfold bind at 1. cbn [fst].
  replace ((400 <=? s) && (s <? 600)) with true
    by (symmetry; apply andb_true_iff; split; [apply Z.leb_le | apply Z.ltb_lt]; lia).
  reflexivity.
Qed.

Lemma request_first_attempt url params w :
  request url params w =
    match request_body url params w with
    | (Raise (RequestException r), w1) =>
        if giveup r
        then (Raise (RequestException r), w1)
        else on_exception_loop 5 giveup 2 (request_body url params) 4 1
               (emit (Sleep 2) w1)
    | res => res
    end.
Proof.
  unfold request, on_exception. rewrite on_exception_loop_step.
  destruct (request_body url params w) as [[a | [ | | | | r] | c | ] w1]; try reflexivity.
  cbn [Nat.eqb]. rewrite orb_false_r. reflexivity.
Qed.

Lemma request_body_refused url params w s b :
  expired w = true ->
  server (env w) (exchanges w) (refresh_request (CONFIG w)) = Response s b ->
  400 <= s < 600 ->
  request_body url params w =
    (Raise (RequestException (Some s)),
     exchanged (refresh_request (CONFIG w)) (Response s b)
       (emit (LogInfo RefreshingToken) (checked w))).
Proof.
  intros Hexp Hsrv Hs. rewrite request_body_split. unfold bind.
  rewrite token_check_run, Hexp.
  destruct (checked_fields w) as (He & Hc & Hx & _).
  rewrite (refresh_token_refused (checked w) s b); [| rewrite He, Hc, Hx; exact Hsrv | exact Hs].
  rewrite Hc. reflexivity.
Qed.

(** X6. A token refresh that the authorization endpoint answers with a
    client error (status 400 to 499) is not retried: the call of [request]
    raises the [RequestException] of that response at once. The only
    events of the call are the log line and the refresh exchange: no GET
    is sent and no backoff sleep takes place. *)
Theorem refresh_client_error_is_not_retried :
  forall (url : Url) (params : option Params) (w : World) (s : Z) (b : option json),
    expired w = true ->
    server (env w) (exchanges w) (refresh_request (CONFIG w)) = Response s b ->
    400 <= s < 500 ->
    fst (request url params w) = Raise (RequestException (Some s)) /\
    new_events w (snd (request url params w)) =
      [Http (refresh_request (CONFIG w)) (Response s b); LogInfo RefreshingToken].
Proof.
  intros url params w s b Hexp Hsrv Hs.
  rewrite request_first_attempt, (request_body_refused url params w s b Hexp Hsrv) by lia.
  assert (Hg : giveup (Some s) = true).
  { simpl. apply andb_true_iff. split; [apply Z.leb_le | apply Z.ltb_lt]; lia. }
  rewrite Hg. split; [reflexivity |]. apply new_events_app. cbn [snd exchanged emit trace].
  destruct (checked_fields w) as (_ & _ & _ & ->). reflexivity.
Qed.

Lemma refresh_client_error_is_not_retried_witness :
  fst (request sample_url None (refresh_answered 401)) = Raise (RequestException (Some 401)).
Proof.
  apply (refresh_client_error_is_not_retried sample_url None (refresh_answered 401) 401 None).
  - reflexivity.
  - reflexivity.
  - lia.
Defined.

Lemma attempts_exchange url params remaining tries w :
  (exchanges w <
   exchanges (snd (on_exception_loop 5 giveup 2 (request_body url params)
                     (S remaining) tries w)))%nat.
Proof.
  rewrite on_exception_loop_step.
  pose proof (request_body_exchanges url params w) as Hb.
  destruct (request_body url params w) as [[a | [ | | | | resp] | c | ] w1];
    simpl in Hb |- *; try exact Hb.
  match goal with |- context [if ?b then _ else _] => destruct b end; [exact Hb |].
  pose proof (preserves_on_exception_loop (le_on exchanges) 5 giveup 2
                (request_body url params) (preserves_request_body _ url params)
                remaining (S tries) (emit (Sleep (expo 2 tries)) w1)) as Hl.
  unfold le_on in Hl. simpl in Hl. lia.
Qed.

(** X7. A token refresh that the authorization endpoint answers with a
    server error (status 500 to 599) is retried: after the refused
    exchange the requester sleeps for the first wait of the backoff, 2,
    and makes a new attempt, in which at least one more HTTP exchange takes
    place. (A GET answered with the same status ends the run instead.) *)
Theorem refresh_server_error_is_retried :
  forall (url : Url) (params : option Params) (w : World) (s : Z) (b : option json),
    expired w = true ->
    server (env w) (exchanges w) (refresh_request (CONFIG w)) = Response s b ->
    500 <= s < 600 ->
    (exists evs,
       new_events w (snd (request url params w)) =
         (evs ++ [Sleep 2; Http (refresh_request (CONFIG w)) (Response s b);
                  LogInfo RefreshingToken])%list) /\
    (exchanges w + 2 <= exchanges (snd (request url params w)))%nat.
Proof.
  intros url params w s b Hexp Hsrv Hs.
  rewrite request_first_attempt, (request_body_refused url params w s b Hexp Hsrv) by lia.
  assert (Hg : giveup (Some s) = false).
  { simpl. apply andb_false_iff. right. apply Z.ltb_ge. lia. }
  rewrite Hg.
  set (w1 := emit (Sleep 2) _).
  assert (Ht : trace w1 = ([Sleep 2; Http (refresh_request (CONFIG w)) (Response s b);
                            LogInfo RefreshingToken] ++ trace w)%list).
  { unfold w1. cbn [exchanged emit trace]. destruct (checked_fields w) as (_ & _ & _ & ->).
    reflexivity. }
  assert (Hx : exchanges w1 = S (exchanges w)).
  { unfold w1. cbn [exchanged emit exchanges]. destruct (checked_fields w) as (_ & _ & -> & _).
    reflexivity. }
  split.
  - destruct (preserves_on_exception_loop extends 5 giveup 2 (request_body url params)
                (preserves_request_body _ url params) 4 1 w1) as [evs Hevs].
    exists evs. apply new_events_app. rewrite Hevs, Ht, <- app_assoc. reflexivity.
  - pose proof (attempts_exchange url params 3 1 w1). lia.
Qed.

Lemma refresh_server_error_is_retried_witness :
  (2 <= exchanges (snd (request sample_url None (refresh_answered 503))))%nat.
Proof.
  apply (refresh_server_error_is_retried sample_url None (refresh_answered 503) 503 None).
  - reflexivity.
  - reflexivity.
  - lia.
Defined.

(** ** The credential that a request sends *)

(** What a refresh that is granted does. *)
Lemma refresh_token_granted w st fields access refresh seconds :
  server (env w) (exchanges w) (refresh_request (CONFIG w))
    = Response st (Some (JObj fields)) ->
  st < 400 \/ 600 <= st ->
  obj_get "access_token" fields = Some access ->
  obj_get "refresh_token" fields = Some refresh ->
  obj_get "expires_in" fields = Some (JNum seconds) ->
  exists w1,
    refresh_token w = (Ret tt, w1) /\
    env w1 = env w /\ exchanges w1 = S (exchanges w) /\
    access_token (CONFIG w1) = access /\
    user_agent_value (CONFIG w1) = user_agent_value (CONFIG w) /\
    exists expires,
      trace w1 =
        LogInfo (TokenRefreshed expires)
          :: Http (refresh_request (CONFIG w)) (Response st (Some (JObj fields)))
          :: LogInfo RefreshingToken :: trace w.
Proof.
  intros Hsrv Hs Ha Hr He. unfold refresh_token, refresh_request in *.
  rewrite (bind_run get_world _ w w w eq_refl).
  erewrite (bind_run (write _) _ w tt); [| reflexivity].
  unfold bind at 1. unfold exchange. cbn [env exchanges emit]. rewrite Hsrv.
  unfold bind at 1. cbn [fst].
  replace ((400 <=? st) && (st <? 600)) with false
    by (symmetry; apply andb_false_iff;
        destruct Hs; [left; apply Z.leb_gt | right; apply Z.ltb_ge]; lia).
  unfold bind, ret, resp_json, subscript, of_option, utcnow, write. simpl.
  rewrite Ha. simpl. rewrite Hr. simpl. rewrite He. simpl.
  eexists. split; [reflexivity |]. simpl. repeat split. eexists. reflexivity.
Qed.

(** X8. The GET that follows a granted refresh carries the new access
    token. When the credential is missing or expired and the authorization
    endpoint grants the refresh, the attempt goes on with the GET of the
    requested URL, sent with the [access_token] of the answer (not the one
    held before), and this GET is the exchange right after the refresh. *)
Theorem refreshed_token_is_sent :
  forall (url : Url) (params : option Params) (w : World) (st : Z)
         (fields : list (string * json)) (access refresh : json) (seconds : Z),
    expired w = true ->
    server (env w) (exchanges w) (refresh_request (CONFIG w))
      = Response st (Some (JObj fields)) ->
    st < 400 \/ 600 <= st ->
    obj_get "access_token" fields = Some access ->
    obj_get "refresh_token" fields = Some refresh ->
    obj_get "expires_in" fields = Some (JNum seconds) ->
    let P := match params with Some p => p | None => ∅ end in
    let get := GET url P access (user_agent_value (CONFIG w)) in
    exists newer expires,
      new_events w (snd (request_body url params w)) =
        (newer ++
         [ Http get (server (env w) (S (exchanges w)) get);
           LogInfo (GetUrl url P);
           LogInfo (TokenRefreshed expires);
           Http (refresh_request (CONFIG w)) (Response st (Some (JObj fields)));
           LogInfo RefreshingToken ])%list /\
      (newer = [] \/ exists status content, newer = [LogError (GetFailed url P status content)]).
Proof.
  intros url params w st fields access refresh seconds Hexp Hsrv Hst Ha Hr He P get.
  destruct (checked_fields w) as (Henv & Hcfg & Hx & Htr).
  destruct (refresh_token_granted (checked w) st fields access refresh seconds)
    as (w1 & Hrun & Henv1 & Hx1 & Hacc & Hua & expires & Ht1); try assumption.
  { rewrite Henv, Hcfg, Hx. exact Hsrv. }
  rewrite Henv in Henv1. rewrite Hx in Hx1. rewrite Hcfg in Hua, Ht1. rewrite Htr in Ht1.
  rewrite request_body_split. unfold bind. rewrite token_check_run, Hexp, Hrun.
  fold P. unfold send_get, bind, get_world, write, exchange, sys_exit, ret.
  cbn [env exchanges emit CONFIG]. rewrite Hacc, Hua, Henv1, Hx1. fold get.
  destruct (server (env w) (S (exchanges w)) get) as [r | s b] eqn:Eg; cbn [fst snd].
  - exists [], expires. split; [| left; reflexivity].
    apply new_events_app. cbn [exchanged emit trace]. rewrite Ht1. reflexivity.
  - destruct (400 <=? s).
    + exists [LogError (GetFailed url P s b)], expires.
      split; [| right; exists s, b; reflexivity].
      apply new_events_app. cbn [exchanged emit trace snd]. rewrite Ht1. reflexivity.
    + exists [], expires. split; [| left; reflexivity].
      apply new_events_app. cbn [exchanged emit trace snd]. rewrite Ht1. reflexivity.
Qed.

Lemma refreshed_token_is_sent_witness :
  exists newer expires,
    new_events first_contact (snd (request_body sample_url None first_contact)) =
      (newer ++
       [ Http (GET sample_url ∅ (JStr "access-1") None) (Response 200 (Some (JList [])));
         LogInfo (GetUrl sample_url ∅);
         LogInfo (TokenRefreshed expires);
         Http (refresh_request (CONFIG first_contact))
           (Response 200 (Some (JObj [("access_token", JStr "access-1");
                                      ("refresh_token", JStr "refresh-1");
                                      ("expires_in", JNum 21600)])));
         LogInfo RefreshingToken ])%list /\
      (newer = [] \/ exists status content,
                       newer = [LogError (GetFailed sample_url ∅ status content)]).
Proof.
  apply (refreshed_token_is_sent sample_url None first_contact 200
           [("access_token", JStr "access-1"); ("refresh_token", JStr "refresh-1");
            ("expires_in", JNum 21600)]
           (JStr "access-1") (JStr "refresh-1") 21600).
  - reflexivity.
  - reflexivity.
  - left. lia.
  - reflexivity.
  - reflexivity.
  - reflexivity.
Defined.

(** ** The parameters of the next page *)

Lemma bind_unfold {A B} (m : M A) (f : A -> M B) w :
  bind m f w =
    match m w with
    | (Ret a, w') => f a w'
    | (Raise e, w') => (Raise e, w')
    | (SysExit c, w') => (SysExit c, w')
    | (OutOfFuel, w') => (OutOfFuel, w')
    end.
Proof. reflexivity. Qed.

Lemma copy_offsets_pure data pairs : forall params w,
  snd (copy_offsets data pairs params w) = w.
Proof.
  induction pairs as [| [k t] rest IH]; intros params w; simpl; [reflexivity |].
  unfold bind, subscript. destruct data; try reflexivity.
  unfold of_option. destruct (obj_get k kvs); [apply IH | reflexivity].
Qed.

Lemma copy_offsets_result data pairs : forall params w params',
  fst (copy_offsets data pairs params w) = Ret params' ->
  (forall t, ~ In t (map snd pairs) -> params' !! t = params !! t) /\
  (forall k t, In (k, t) pairs ->
     exists kvs v, data = JObj kvs /\ obj_get k kvs = Some v /\
                   (List.NoDup (map snd pairs) -> params' !! t = Some v)).
Proof.
  induction pairs as [| [k t] rest IH]; intros params w params' H; simpl in *.
  - injection H as <-. split; [reflexivity | contradiction].
  - unfold bind, subscript in H. destruct data as [ | | | | | | kvs]; try discriminate.
    unfold of_option in H. destruct (obj_get k kvs) as [v |] eqn:Ev; [| discriminate].
    simpl in H. destruct (IH _ _ _ H) as [Hkeep Hset]. split.
    + intros t' Hn. rewrite Hkeep by tauto. apply lookup_insert_ne. tauto.
    + intros k' t' [E | Hin].
      * injection E as <- <-. exists kvs, v. split; [reflexivity |]. split; [exact Ev |].
        intros Hnd. apply List.NoDup_cons_iff in Hnd as [Hnotin _].
        rewrite Hkeep by exact Hnotin. apply lookup_insert_eq.
      * destruct (Hset k' t' Hin) as (kvs' & v' & E & Ev' & Hv).
        exists kvs', v'. split; [exact E |]. split; [exact Ev' |].
        intros Hnd. apply List.NoDup_cons_iff in Hnd as [_ Hnd]. apply Hv, Hnd.
Qed.

(** X9. The parameters of the next page of a listing are those of the page
    before with the offsets of the response: the copy of the offsets
    ([params[target] = data[key]] for each pair) leaves every parameter
    that is no offset target as it was, reads each key from the response
    (which is then an object with that key) and, the targets being
    distinct, stores its value under the target. It changes nothing else
    (no exchange, no output), also when a key is missing. *)
Theorem next_page_takes_the_offsets :
  forall (data : json) (pairs : list (string * string)) (params : Params) (w : World),
    snd (copy_offsets data pairs params w) = w /\
    forall params',
      fst (copy_offsets data pairs params w) = Ret params' ->
      (forall t, ~ In t (map snd pairs) -> params' !! t = params !! t) /\
      (forall k t, In (k, t) pairs ->
         exists kvs v, data = JObj kvs /\ obj_get k kvs = Some v /\
                       (List.NoDup (map snd pairs) -> params' !! t = Some v)).
Proof.
  intros data pairs params w. split; [apply copy_offsets_pure |].
  intros params'. apply copy_offsets_result.
Qed.

(** ** The schema of the custom properties *)

Lemma obj_get_set_eq k v kvs : obj_get k (obj_set k v kvs) = Some v.
Proof.
  induction kvs as [| [k' v'] rest IH]; simpl.
  - rewrite String.eqb_refl. reflexivity.
  - destruct (String.eqb k k') eqn:E; simpl; rewrite ?String.eqb_refl, ?E; auto.
Qed.

Lemma obj_get_set_ne k k' v kvs : k <> k' -> obj_get k' (obj_set k v kvs) = obj_get k' kvs.
Proof.
  intros Hne. induction kvs as [| [k0 v0] rest IH]; simpl.
  - destruct (String.eqb_spec k' k); [congruence | reflexivity].
  - destruct (String.eqb_spec k k0) as [-> | Hk]; simpl.
    + destruct (String.eqb_spec k' k0); [congruence | reflexivity].
    + destruct (String.eqb_spec k' k0); [reflexivity | exact IH].
Qed.

Lemma obj_set_keys k v kvs :
  map fst (obj_set k v kvs) =
    if existsb (String.eqb k) (map fst kvs) then map fst kvs
    else (map fst kvs ++ [k])%list.
Proof.
  induction kvs as [| [k' v'] rest IH]; simpl; [reflexivity |].
  destruct (String.eqb_spec k k') as [-> | Hk]; simpl; [reflexivity |].
  rewrite IH. destruct (existsb (String.eqb k) (map fst rest)); reflexivity.
Qed.







(** ** The requests of a stream *)

Ltac bhr_leaf :=
  first [ apply behaves_resp_json | apply behaves_contains | apply behaves_iterate
        | apply behaves_dict_get | apply behaves_dict_items | apply behaves_strptime
        | apply behaves_at_or_after | apply behaves_days_since
        | apply behaves_refresh_token | apply behaves_record_modified_time
        | apply behaves_subscript; reflexivity ];
  lazymatch goal with
  | |- lets_routine _ => assumption
  | |- _ => idtac
  end.

(** Steps through a program up to its requests. *)
Ltac bhr :=
  repeat (intros; cbv beta zeta;
          first [ lazymatch goal with
                  | |- behaves _ (bind (ret _) _) => apply behaves_bind_ret
                  | |- behaves _ (bind (get_url _ _) _) =>
                      first [ erewrite get_url_plain by reflexivity
                            | erewrite get_url_with by reflexivity ]
                  end
                | bh_step | bhr_leaf | bh_close ]);
  intros.

Lemma In_omap {A B} (f : A -> option B) (y : B) (l : list A) :
  In y (omap f l) -> exists x, In x l /\ f x = Some y.
Proof.
  induction l as [| x l IH]; simpl; [contradiction |].
  destruct (f x) as [y' |] eqn:E.
  - intros [<- | H]; [exists x; auto |].
    destruct (IH H) as (x' & Hin & Hx). exists x'. auto.
  - intros H. destruct (IH H) as (x' & Hin & Hx). exists x'. auto.
Qed.

Lemma routine_full_batch : lets_routine full_batch.
Proof. intros e He. destruct e as [| | [] | | | |]; try discriminate; reflexivity. Qed.

Lemma behaves_full_batch_contacts fuel : behaves full_batch (sync_contacts fuel).
Proof.
  pose proof routine_full_batch as Hrt.
  assert (Hsl : sleeps_ok full_batch) by (intros s; reflexivity).
  unfold sync_contacts.
  apply behaves_bind; [apply behaves_get_start | intros start].
  apply behaves_bind; [apply behaves_strptime | intros last_sync].
  apply behaves_bind; [apply behaves_days_since | intros days].
  apply behaves_bind; [| intros schema].
  { apply behaves_load_schema; [exact Hrt | exact Hsl |].
    intros t Ht. vm_compute in Ht. injection Ht as <-. intros ? ? ?. reflexivity. }
  apply behaves_bind; [apply behaves_write; reflexivity | intros _].
  destruct (30 <? days).
  all: erewrite get_url_plain by reflexivity; apply behaves_bind_ret.
  all: apply behaves_bind; [| intros; apply behaves_write_state, Hrt].
  all: apply (behaves_gen_request full_batch Hrt (fun _ => True)); auto;
    try (intros p _ b ua ans; reflexivity);
    try (intros p Hp; vm_compute in Hp; injection Hp as <-; reflexivity).
  all: intros vids row; unfold sync_contacts_row.
  all: apply behaves_bind; [apply behaves_subscript; reflexivity | intros properties].
  all: apply behaves_bind; [apply behaves_contains | intros has].
  all: apply behaves_bind; [bhr | intros modified_time].
  all: apply behaves_bind; [bhr | intros vids'].
  all: destruct (length vids' =? 100)%nat eqn:Hlen; [| apply behaves_ret].
  all: erewrite get_url_plain by reflexivity; apply behaves_bind_ret.
  all: apply behaves_bind; [| bhr].
  all: apply behaves_request; [exact Hrt | exact Hsl |].
  all: intros b ua ans; unfold full_batch, detail_batch; cbn [url_text];
    rewrite String.eqb_refl;
    match goal with |- context [?m !! "vid"] =>
      replace (m !! "vid") with (Some (JList vids'))
        by (symmetry; apply lookup_singleton_eq) end;
    exact Hlen.
Qed.

(** X11. Every detail batch of the contacts has exactly 100 vids: in any
    run of [sync_contacts], whatever the listing returns, each request to
    the [contacts_detail] endpoint asks for a list of exactly 100 vids;
    a shorter batch is never requested. *)
Theorem contacts_detail_batches_are_full :
  forall (fuel : nat) (w : World),
    Forall (fun vids => length vids = 100%nat)
      (detail_batches (new_events w (snd (sync_contacts fuel w)))).
Proof.
  intros fuel w. destruct (behaves_full_batch_contacts fuel w) as ((evs & Ht & Hf) & _).
  rewrite (new_events_app _ _ evs Ht). clear Ht. unfold detail_batches.
  apply List.Forall_forall. intros vids Hin.
  apply In_omap in Hin as (e & Hin & He). apply in_rev in Hin.
  rewrite forallb_forall in Hf. specialize (Hf e Hin).
  unfold full_batch in Hf. rewrite He in Hf. apply Nat.eqb_eq, Hf.
Qed.

(** ** Which listing a stream reads *)

Lemma writes_bind ok {A B} (m : M A) (f : A -> M B) w :
  (exists evs, trace (snd (m w)) = (evs ++ trace w)%list /\ forallb ok evs = true) ->
  (forall a w1, m w = (Ret a, w1) ->
     exists evs, trace (snd (f a w1)) = (evs ++ trace w1)%list /\ forallb ok evs = true) ->
  exists evs, trace (snd (bind m f w)) = (evs ++ trace w)%list /\ forallb ok evs = true.
Proof.
  intros (e1 & H1 & K1) Hf. unfold bind.
  destruct (m w) as [[a | e | c | ] w1]; simpl in *; try (exists e1; split; assumption).
  destruct (Hf a w1 eq_refl) as (e2 & H2 & K2). exists (e2 ++ e1)%list. split.
  - rewrite H2, H1. apply app_assoc.
  - rewrite forallb_app, K1, K2. reflexivity.
Qed.

Lemma behaves_writes ok {A} (m : M A) :
  behaves ok m ->
  forall w, exists evs, trace (snd (m w)) = (evs ++ trace w)%list /\ forallb ok evs = true.
Proof. intros H w. apply H. Qed.

(** The start position that a stream reads, and what reading it leaves
    unchanged. *)
Lemma get_start_run key w start w1 :
  get_start key w = (Ret start, w1) ->
  start = watermark_of key w /\ env w1 = env w /\ ticks w1 = ticks w /\ trace w1 = trace w.
Proof.
  unfold watermark_of.
  destruct (get_start_cases key w) as [[Hn ->] | (t & Ht & ->)]; intros H;
    injection H as <- <-; [rewrite Hn | rewrite Ht]; repeat split.
Qed.

(** The age of the watermark that a stream computes at its start. *)
Lemma age_run ok key {B} (k : Z -> Z -> M B) w :
  (forall d w1,
     d = (clock (env w) (ticks w) - watermark_of key w) / 86400000 ->
     trace w1 = trace w ->
     exists evs, trace (snd (k (watermark_of key w) d w1)) = (evs ++ trace w1)%list /\
                 forallb ok evs = true) ->
  exists evs,
    trace (snd ((let* start := get_start key in
                 let* last_sync := strptime (JTime start) in
                 let* days_since_sync := days_since last_sync in
                 k last_sync days_since_sync) w)) = (evs ++ trace w)%list /\
    forallb ok evs = true.
Proof.
  intros Hk. rewrite bind_unfold.
  destruct (get_start key w) as [o w1] eqn:E.
  pose proof E as E'.
  destruct (get_start_cases key w) as [[Hn E1] | (t & Ht & E1)]; rewrite E1 in E';
    injection E' as <- Hw1; apply get_start_run in E as (HW & Henv & Hticks & Htr).
  all: unfold strptime, days_since, bind, ret, utcnow; cbn [fst snd].
  all: rewrite Henv, Hticks, HW.
  all: destruct (Hk _ (tick w1) eq_refl Htr) as (evs & Ht' & Hf).
  all: exists evs; split; [rewrite <- Htr; exact Ht' | exact Hf].
Qed.

Lemma routine_gets_from urls : lets_routine (gets_from urls).
Proof. intros e He. destruct e as [| | [] | | | |]; try discriminate; reflexivity. Qed.

Ltac gets_leaf ok Hrt Hsl :=
  first
    [ apply (behaves_request ok Hrt); [exact Hsl | intros ? ? ?; reflexivity]
    | apply (behaves_load_schema ok Hrt);
      [ exact Hsl
      | let t := fresh "t" in
        let Ht := fresh "Ht" in
        intros t Ht; vm_compute in Ht; injection Ht as <-; intros ? ? ?; reflexivity ]
    | apply (behaves_gen_request ok Hrt (fun _ => True));
      [ exact Hsl | intros ? _ ? ? ?; reflexivity | intros; exact I | exact I
      | reflexivity | side_path | reflexivity | ] ].

Ltac bhg ok Hrt Hsl :=
  repeat (intros; cbv beta zeta;
          first [ lazymatch goal with
                  | |- behaves _ (bind (ret _) _) => apply behaves_bind_ret
                  | |- behaves _ (bind (get_url _ _) _) =>
                      first [ erewrite get_url_plain by reflexivity
                            | erewrite get_url_with by reflexivity ]
                  end
                | bh_step | gets_leaf ok Hrt Hsl | bhr_leaf | bh_close ]);
  intros.

(** Proves that a stream sends its GET requests to the URLs of the goal
    only. *)
Ltac gets_only :=
  lazymatch goal with
  | |- behaves ?ok _ =>
      let Hrt := fresh "Hrt" in
      let Hsl := fresh "Hsl" in
      pose proof (routine_gets_from _ : lets_routine ok) as Hrt;
      assert (Hsl : sleeps_ok ok) by (intros ?; reflexivity);
      unfold sync_contacts_row, sync_detail_row; bhg ok Hrt Hsl
  end.

Lemma contacts_listing fuel w :
  let d := (clock (env w) (ticks w) - watermark_of "contacts" w) / 86400000 in
  exists evs,
    trace (snd (sync_contacts fuel w)) = (evs ++ trace w)%list /\
    forallb (gets_from
               [ BASE_URL ++ "/properties/v1/contacts/properties";
                 BASE_URL ++ "/contacts/v1/contact/vids/batch/";
                 BASE_URL ++ (if 30 <? d then "/contacts/v1/lists/all/contacts/all"
                              else "/contacts/v1/lists/recently_updated/contacts/recent") ])
      evs = true.
Proof.
  intros d. unfold sync_contacts. apply age_run. intros d' w1 -> _. fold d.
  apply behaves_writes. destruct (30 <? d); gets_only.
Qed.

Lemma companies_listing fuel w :
  let d := (clock (env w) (ticks w) - watermark_of "companies" w) / 86400000 in
  exists evs,
    trace (snd (sync_companies fuel w)) = (evs ++ trace w)%list /\
    forallb (gets_from
               [ BASE_URL ++ "/companies/v2/properties";
                 BASE_URL ++ "/companies/v2/companies/{company_id}";
                 BASE_URL ++ (if 30 <? d then "/companies/v2/companies/paged"
                              else "/companies/v2/companies/recent/modified") ])
      evs = true.
Proof.
  intros d. unfold sync_companies. apply writes_bind;
    [| intros; exists []; split; reflexivity].
  unfold sync_companies_rows. apply age_run. intros d' w1 -> _. fold d.
  apply behaves_writes. destruct (30 <? d); gets_only.
Qed.

Lemma deals_listing fuel w :
  let d := (clock (env w) (ticks w) - watermark_of "deals" w) / 86400000 in
  exists evs,
    trace (snd (sync_deals fuel w)) = (evs ++ trace w)%list /\
    forallb (gets_from
               [ BASE_URL ++ "/companies/v2/properties";
                 BASE_URL ++ "/deals/v1/deal/{deal_id}";
                 BASE_URL ++ (if 30 <? d then "/deals/v1/deal/paged"
                              else "/deals/v1/deal/recent/modified") ])
      evs = true.
Proof.
  intros d. unfold sync_deals. apply writes_bind;
    [| intros; exists []; split; reflexivity].
  unfold sync_deals_rows. apply age_run. intros d' w1 -> _. fold d.
  apply behaves_writes. destruct (30 <? d); gets_only.
Qed.

(** X12. The listing that a stream reads follows the age of its
    watermark. With [d] the number of whole days between the start
    position of the stream (its watermark, or the configured start date)
    and the clock at the start of the sync, the contacts, companies and
    deals syncs send their GET requests to three URLs only: the properties
    endpoint, the detail endpoint, and the full listing when [d > 30]
    (that is, from 31 days on), the listing of the recent changes
    otherwise; never to the other listing. The deals sync reads its
    custom properties from the properties endpoint of the companies, as
    the endpoint table has it. *)
Theorem listing_follows_the_age_of_the_watermark :
  forall (fuel : nat) (w : World),
    let d stream := (clock (env w) (ticks w) - watermark_of stream w) / 86400000 in
    let only (urls : list string) (m : M unit) :=
      exists evs, trace (snd (m w)) = (evs ++ trace w)%list /\
                  forallb (gets_from urls) evs = true in
    only [ BASE_URL ++ "/properties/v1/contacts/properties";
           BASE_URL ++ "/contacts/v1/contact/vids/batch/";
           BASE_URL ++ (if 30 <? d "contacts" then "/contacts/v1/lists/all/contacts/all"
                        else "/contacts/v1/lists/recently_updated/contacts/recent") ]
      (sync_contacts fuel) /\
    only [ BASE_URL ++ "/companies/v2/properties";
           BASE_URL ++ "/companies/v2/companies/{company_id}";
           BASE_URL ++ (if 30 <? d "companies" then "/companies/v2/companies/paged"
                        else "/companies/v2/companies/recent/modified") ]
      (sync_companies fuel) /\
    only [ BASE_URL ++ "/companies/v2/properties";
           BASE_URL ++ "/deals/v1/deal/{deal_id}";
           BASE_URL ++ (if 30 <? d "deals" then "/deals/v1/deal/paged"
                        else "/deals/v1/deal/recent/modified") ]
      (sync_deals fuel) /\
    (forall stream,
       (30 <? d stream) = true <->
       watermark_of stream w + 31 * 86400000 <= clock (env w) (ticks w)).
Proof.
  intros fuel w d only.
  split; [apply contacts_listing |]. split; [apply companies_listing |].
  split; [apply deals_listing |].
  intros stream. unfold d. rewrite Z.ltb_lt.
  set (a := clock (env w) (ticks w) - watermark_of stream w).
  split; intros H.
  - assert (31 <= a / 86400000) by lia.
    assert (86400000 * (a / 86400000) <= a) by (apply Z.mul_div_le; lia). lia.
  - assert (31 <= a / 86400000); [| lia].
    apply Z.div_le_lower_bound; unfold a; lia.
Qed.

(** ** The requests of the chunked driver *)








(** ** Which records a stream writes *)

Lemma subscript_run x k w v w' :
  subscript x k w = (Ret v, w') -> exists kvs, x = JObj kvs /\ obj_get k kvs = Some v.
Proof.
  unfold subscript. destruct x as [ | | | | | | kvs]; try discriminate.
  unfold of_option. destruct (obj_get k kvs) as [v' |] eqn:E; [| discriminate].
  intros H. injection H as <- _. exists kvs. split; [reflexivity | exact E].
Qed.






Lemma record_modified_time_run record w mt w' :
  record_modified_time record w = (Ret mt, w') -> mt = modified_time_of record.
Proof.
  unfold record_modified_time, modified_time_of, field_time.
  unfold bind, contains, subscript, of_option, strptime, ret, raise.
  destruct record as [ | | | s | | l | kvs]; try discriminate.
  - destruct (bool_decide _); [discriminate |]. destruct (bool_decide _); [discriminate |].
    intros H. injection H as <- _. reflexivity.
  - destruct (existsb _ l); [discriminate |]. destruct (existsb _ l); [discriminate |].
    intros H. injection H as <- _. reflexivity.
  - destruct (obj_get "hs_lastmodifieddate" kvs) as [f |].
    + simpl. destruct f as [ | | | | | | fk]; try discriminate.
      destruct (obj_get "value" fk) as [[ | | | | t | | ] |]; try discriminate.
      intros H. injection H as <- _. reflexivity.
    + simpl. destruct (obj_get "createdate" kvs) as [f |].
      * simpl. destruct f as [ | | | | | | fk]; try discriminate.
        destruct (obj_get "value" fk) as [[ | | | | t | | ] |]; try discriminate.
        intros H. injection H as <- _. reflexivity.
      * simpl. intros H. injection H as <- _. reflexivity.
Qed.

Lemma background_passes_start start : lets_background (passes_start start).
Proof. intros e He. destruct e; try reflexivity; discriminate. Qed.

Lemma behaves_detail_row_filter stream ep arg key last_sync schema i row :
  is_config_error (KeyError key) = false ->
  (forall id, url_ok ep [(arg, id)] = true) ->
  behaves (passes_start last_sync)
    (sync_detail_row stream ep arg key last_sync schema i row).
Proof.
  intros Hkey Hurl.
  pose proof (background_passes_start last_sync) as Hbg.
  pose proof (background_routine _ Hbg) as Hrt.
  unfold sync_detail_row.
  apply behaves_bind; [apply behaves_subscript, Hkey | intros id].
  apply behaves_bind; [apply behaves_get_url, Hurl | intros url].
  apply behaves_bind; [apply behaves_request_bg, Hbg | intros resp].
  apply behaves_bind; [apply behaves_resp_json | intros record0].
  apply behaves_bind; [apply behaves_apply_transform | intros record].
  apply (behaves_bind_post _ (fun mt => mt = modified_time_of record));
    [apply behaves_record_modified_time
    | intros w mt w' H; exact (record_modified_time_run _ _ _ _ H) |].
  intros mt ->.
  apply behaves_bind; [| intros _].
  - destruct (passes_filter (modified_time_of record) last_sync) eqn:Hp;
      [| apply behaves_ret].
    apply behaves_bind; [apply behaves_write; exact Hp | intros; apply behaves_update_state].
  - apply behaves_bind; [| intros; apply behaves_ret].
    destruct (Z.of_nat i mod 250 =? 0); [apply behaves_write_state, Hrt | apply behaves_ret].
Qed.

Lemma companies_filter fuel w :
  exists evs,
    trace (snd (sync_companies fuel w)) = (evs ++ trace w)%list /\
    forallb (passes_start (watermark_of "companies" w)) evs = true.
Proof.
  pose proof (background_passes_start (watermark_of "companies" w)) as Hbg.
  unfold sync_companies. apply writes_bind; [| intros; exists []; split; reflexivity].
  unfold sync_companies_rows. apply age_run. intros d w1 _ _.
  apply behaves_writes. bhw.
  apply behaves_detail_row_filter; reflexivity.
Qed.

Lemma deals_filter fuel w :
  exists evs,
    trace (snd (sync_deals fuel w)) = (evs ++ trace w)%list /\
    forallb (passes_start (watermark_of "deals" w)) evs = true.
Proof.
  pose proof (background_passes_start (watermark_of "deals" w)) as Hbg.
  unfold sync_deals. apply writes_bind; [| intros; exists []; split; reflexivity].
  unfold sync_deals_rows. apply age_run. intros d w1 _ _.
  apply behaves_writes. bhw.
  apply behaves_detail_row_filter; reflexivity.
Qed.

(** X15. The companies and deals syncs write only records that pass their
    filter. In any run, every record written either has no modification
    time (neither [hs_lastmodifieddate] nor [createdate]) or has one, the
    [hs_lastmodifieddate] when present and the [createdate] otherwise, that
    is at or after the start position of the stream (its watermark at the
    start of the sync, or the configured start date). *)
Theorem detail_records_pass_the_filter :
  forall (fuel : nat) (w : World),
    let passes (stream : string) (m : M unit) :=
      exists evs, trace (snd (m w)) = (evs ++ trace w)%list /\
                  forallb (passes_start (watermark_of stream w)) evs = true in
    passes "companies" (sync_companies fuel) /\
    passes "deals" (sync_deals fuel).
Proof.
  intros fuel w passes. split; [apply companies_filter | apply deals_filter].
Qed.

(** ** What a single-page stream writes when it completes *)

#[export] Instance same_env_stable : Stable same_env.
Proof.
  split; try (intros; reflexivity).
  intros w1 w2 w3 H1 H2. unfold same_env in *. congruence.
Qed.

#[export] Instance same_env_get : GetStable same_env.
Proof. intros url params bearer ua answer w. reflexivity. Qed.



Lemma subscript_pure x k w : snd (subscript x k w) = w.
Proof.
  unfold subscript. destruct x; try reflexivity.
  unfold of_option. destruct (obj_get k kvs); reflexivity.
Qed.

Lemma pure_run {A} (m : M A) w a w' :
  (forall w0, snd (m w0) = w0) -> m w = (Ret a, w') -> w' = w.
Proof. intros Hp H. specialize (Hp w). rewrite H in Hp. exact Hp. Qed.






(** The run of the witness: the form updated at 200 is written, the one
    updated at 50 is not, and the watermark moves from 100 to 200. *)
Example two_forms_run :
  let r := sync_forms two_forms in
  fst r = Ret tt /\
  records "forms" (new_events two_forms (snd r)) = [JObj [("updatedAt", JTime 200)]] /\
  STATE (snd r) !! "forms" = Some 200.
Proof. vm_compute. repeat split. Qed.

(** ** A chunked stream that is up to date *)

(** X17. A chunked stream whose start position is not before the current
    instant has no window to read: the sync completes at once, whatever
    the fuel; it writes the schema message and nothing else (no request,
    no record, no state message), and the watermark of the stream is its
    start position. *)
Theorem chunked_stream_up_to_date_reads_nothing :
  forall (fuel : nat) (e : string) (keys : list string) (path : string) (size : Z)
         (w : World),
    CHUNK_SIZES e = Some size ->
    clock (env w) (ticks w) <= watermark_of e w ->
    fst (sync_entity_chunked fuel e keys path w) = Ret tt /\
    new_events w (snd (sync_entity_chunked fuel e keys path w))
      = [WriteSchema e (load_json (env w) e) keys] /\
    STATE (snd (sync_entity_chunked fuel e keys path w)) !! e = Some (watermark_of e w).
Proof.
  intros fuel e keys path size w Hsize Hle.
  destruct (sync_entity_chunked_run fuel e keys path size w Hsize)
    as (url & w0 & -> & Hst & Htr & _).
  assert (Hdone : forall n,
            chunk_loop n fuel e path (load_json (env w) e) url
              (clock (env w) (ticks w)) (watermark_of e w) w0 = (Ret tt, w0)).
  { intros n. destruct n; cbn [chunk_loop];
      (replace (watermark_of e w <? clock (env w) (ticks w)) with false
         by (symmetry; apply Z.ltb_ge; exact Hle)); reflexivity. }
  rewrite Hdone. cbn [fst snd]. split; [reflexivity |]. split; [| exact Hst].
  apply new_events_app. rewrite Htr. reflexivity.
Qed.

Lemma chunked_stream_up_to_date_reads_nothing_witness :
  fst (sync_email_events 0 up_to_date) = Ret tt /\
  new_events up_to_date (snd (sync_email_events 0 up_to_date))
    = [WriteSchema "email_events" (load_json (env up_to_date) "email_events") ["id"]] /\
  STATE (snd (sync_email_events 0 up_to_date)) !! "email_events"
    = Some (watermark_of "email_events" up_to_date).
Proof.
  apply (chunked_stream_up_to_date_reads_nothing 0 "email_events" ["id"] "events"
           (1000 * 60 * 60) up_to_date).
  - reflexivity.
  - vm_compute. discriminate.
Defined.

(** ** The schema of a stream with custom properties *)

Lemma obj_get_existsb k kvs :
  is_Some (obj_get k kvs) -> existsb (String.eqb k) (map fst kvs) = true.
Proof.
  induction kvs as [| [k' v'] rest IH]; simpl; [intros [x H]; discriminate |].
  destruct (String.eqb k k'); [reflexivity | exact IH].
Qed.

(** X18. The schema of a stream with custom properties is its schema
    file with the custom properties grafted in. When [load_schema] returns
    for contacts, companies or deals, the schema file is an object whose
    [properties] member is an object; the result has the keys of the file
    in the same order and the same members, except that in [properties]
    the member [properties] is now the object with [type] "object" and, as
    [properties], the custom schema that [get_custom_schema] has returned
    in this run; the requests of the run are those of [get_custom_schema]. *)
Theorem custom_properties_are_grafted_into_the_schema :
  forall (e : string) (w : World) (r : json) (w' : World),
    existsb (String.eqb e) ["contacts"; "companies"; "deals"] = true ->
    load_schema e w = (Ret r, w') ->
    exists top inner custom kvs inner',
      load_json (env w) e = JObj top /\
      obj_get "properties" top = Some (JObj inner) /\
      get_custom_schema e w = (Ret custom, w') /\
      r = JObj kvs /\
      map fst kvs = map fst top /\
      (forall k, k <> "properties" -> obj_get k kvs = obj_get k top) /\
      obj_get "properties" kvs = Some (JObj inner') /\
      map fst inner' =
        (if existsb (String.eqb "properties") (map fst inner) then map fst inner
         else map fst inner ++ ["properties"])%list /\
      (forall k, k <> "properties" -> obj_get k inner' = obj_get k inner) /\
      obj_get "properties" inner' =
        Some (JObj [("type", JStr "object"); ("properties", custom)]).
Proof.
  intros e w r w' Hcustom H. unfold load_schema in H.
  rewrite (bind_run get_world _ w w w eq_refl), Hcustom in H.
  apply bind_Ret_inv in H as (custom & w1 & Hc & H).
  apply bind_Ret_inv in H as (properties & w2 & Hp & H).
  pose proof (pure_run _ _ _ _ (subscript_pure _ _) Hp) as ->.
  apply subscript_run in Hp as (top & Etop & Hprops).
  rewrite Etop in H. destruct properties as [ | | | | | | inner]; try discriminate.
  injection H as <- <-.
  exists top, inner, custom. eexists _, _.
  split; [exact Etop |]. split; [exact Hprops |]. split; [exact Hc |].
  split; [reflexivity |]. split.
  { rewrite obj_set_keys, obj_get_existsb; [reflexivity |]. rewrite Hprops. eexists.
    reflexivity. }
  split; [intros k Hk; apply obj_get_set_ne; congruence |].
  split; [apply obj_get_set_eq |].
  split; [apply obj_set_keys |].
  split; [intros k Hk; apply obj_get_set_ne; congruence | apply obj_get_set_eq].
Qed.

Lemma custom_properties_are_grafted_into_the_schema_witness :
  exists r w',
    load_schema "contacts" contacts_250 = (Ret r, w') /\
    exists custom kvs inner',
      get_custom_schema "contacts" contacts_250 = (Ret custom, w') /\
      r = JObj kvs /\
      obj_get "properties" kvs = Some (JObj inner') /\
      obj_get "properties" inner' =
        Some (JObj [("type", JStr "object"); ("properties", custom)]).
Proof.
  eexists _, _. split; [vm_compute; reflexivity |].
  destruct (custom_properties_are_grafted_into_the_schema "contacts" contacts_250 _ _
              eq_refl ltac:(vm_compute; reflexivity))
    as (top & inner & custom & kvs & inner' & _ & _ & Hc & Hr & _ & _ & Hp & _ & _ & Hi).
  exists custom, kvs, inner'. repeat split; assumption.
Defined.
